(** * AntiRateLimit: a shallow embedding of [src/antiRateLimit.ts]

    The class [AntiRateLimit] keeps a queue of wrapped tasks and two counters
    ([activeTasks], [requestCount]).  Its only asynchronous construct is the
    [await task.execute()] inside the loop of [processQueue]; JavaScript runs
    every piece of code between two suspension points atomically, so the
    class is modelled as a state machine whose transitions are exactly those
    atomic pieces:

    - [AddTask t]   : a call of the public method [addTask];
    - [Tick]        : one firing of the [setInterval] callback;
    - [Settle h o]  : the promise returned by [execute()] of the running task
                      [h] settles with outcome [o] and the activation of
                      [processQueue] suspended on it resumes.

    Integers of the source ([number]) are modelled as [Z]; an optional field
    is an [option].  The thunk [execute] is opaque to the class.  A call of
    it either returns (a promise, whose outcome the environment supplies
    later with [Settle]) or throws synchronously, inside the [try]; in the
    second case the [catch], the [finally], the activation of [processQueue]
    started there and the next round of the loop all run in the same turn.
    What the calls of one thunk do is given call by call ([execute k] for
    call number [k], which is the retry count of the task at the call); a
    thunk does not call the scheduler back while it runs. *)

From Stdlib Require Import ZArith List String Bool Lia Permutation Sorted.
Import ListNotations.
Local Open Scope string_scope.
Local Open Scope list_scope.
Local Open Scope Z_scope.

(** ** JavaScript values and operators used by the class *)

Module JS.

(** Results and failure reasons are of type [any] in the source; a label
    stands for each of them. *)
Definition value := string.

(** [x || d] where [x] is a number or [undefined]: [0] and [undefined] are
    falsy, every other integer is truthy. *)
Definition or_default (x : option Z) (d : Z) : Z :=
  match x with
  | Some v => if v =? 0 then d else v
  | None => d
  end.

End JS.

(** ** Data model *)

Record RateLimiterOptions := mkOptions {
  opt_maxRequests : Z;
  opt_interval : Z;
  opt_concurrency : option Z;
  opt_retryLimit : option Z
}.

(** What a call of a thunk does before control comes back to the caller. *)
Inductive Call :=
| Returns                 (* gives back a promise *)
| Throws (e : JS.value).  (* throws *)

(** [Task<T>].  The thunk is known to the class by its calls only:
    [execute k] is what its call number [k] (from 0) does. *)
Record Task := mkTask {
  id : string;
  execute : nat -> Call;
  priority : option Z
}.

(** [InternalTask<T>].  The object built by [addTask] carries the [resolve]
    and [reject] functions of the promise handed back to the caller; [handle]
    is the rank of the [addTask] call that allocated the object and stands
    for its identity and for that promise. *)
Record InternalTask := mkInternal {
  handle : nat;
  base : Task;
  retries : Z
}.

(** How an execution ends: the awaited promise is fulfilled, or it is
    rejected, or the call threw. *)
Inductive Outcome :=
| Fulfilled (v : JS.value)
| Thrown (e : JS.value).

(** What an observer of the class and of the thunks sees. *)
Inductive Effect :=
| Started (h : nat)                 (* task.execute() is called *)
| Ended (h : nat) (o : Outcome)     (* that execution is over *)
| Resolved (h : nat) (v : JS.value) (* task.resolve(result) *)
| Rejected (h : nat) (e : JS.value) (* task.reject(error) *)
| WindowReset.                      (* this.requestCount = 0 in the timer *)

Inductive Event :=
| AddTask (t : Task)
| Tick
| Settle (h : nat) (o : Outcome).

(** The fields of the class, followed by what the runtime holds for it: the
    activations of [processQueue] suspended at [await], each with the task it
    waits for; the allocation counter; the interval timer registered by the
    constructor (the value returned by [setInterval] is dropped, so this is
    host state, not a field). *)
Record AntiRateLimit := mkState {
  maxRequests : Z;
  interval : Z;
  concurrency : Z;
  retryLimit : Z;
  queue : list InternalTask;
  activeTasks : Z;
  requestCount : Z;
  awaiting : list InternalTask;
  nextHandle : nat;
  resetTimer : option Z
}.

Definition with_queue (q : list InternalTask) (s : AntiRateLimit) :=
  mkState (maxRequests s) (interval s) (concurrency s) (retryLimit s)
          q (activeTasks s) (requestCount s) (awaiting s) (nextHandle s)
          (resetTimer s).

Definition with_activeTasks (a : Z) (s : AntiRateLimit) :=
  mkState (maxRequests s) (interval s) (concurrency s) (retryLimit s)
          (queue s) a (requestCount s) (awaiting s) (nextHandle s)
          (resetTimer s).

Definition with_requestCount (r : Z) (s : AntiRateLimit) :=
  mkState (maxRequests s) (interval s) (concurrency s) (retryLimit s)
          (queue s) (activeTasks s) r (awaiting s) (nextHandle s)
          (resetTimer s).

Definition with_awaiting (w : list InternalTask) (s : AntiRateLimit) :=
  mkState (maxRequests s) (interval s) (concurrency s) (retryLimit s)
          (queue s) (activeTasks s) (requestCount s) w (nextHandle s)
          (resetTimer s).

Definition with_nextHandle (n : nat) (s : AntiRateLimit) :=
  mkState (maxRequests s) (interval s) (concurrency s) (retryLimit s)
          (queue s) (activeTasks s) (requestCount s) (awaiting s) n
          (resetTimer s).

(** ** The class *)

(** [constructor(options)] *)
Definition constructor (options : RateLimiterOptions) : AntiRateLimit :=
  mkState (opt_maxRequests options)
          (opt_interval options)
          (JS.or_default (opt_concurrency options) 1)
          (JS.or_default (opt_retryLimit options) 3)
          [] 0 0 [] 0%nat
          (Some (opt_interval options)).

(** [(t.priority || 0)] *)
Definition prio (t : InternalTask) : Z := JS.or_default (priority (base t)) 0.

(** [this.queue.sort((a, b) => (b.priority || 0) - (a.priority || 0))].
    [Array.prototype.sort] is stable; with this comparator [a] goes before
    [b] when its priority is strictly larger, and elements that compare equal
    keep their order.  The stable sort is written as an insertion sort. *)
Fixpoint insert_by_priority (x : InternalTask) (l : list InternalTask)
  : list InternalTask :=
  match l with
  | [] => [x]
  | y :: l' =>
      if prio y <=? prio x then x :: y :: l'
      else y :: insert_by_priority x l'
  end.

Definition sort_queue (l : list InternalTask) : list InternalTask :=
  fold_right insert_by_priority [] l.

(** The guard of the [while] loop of [processQueue]. *)
Definition has_headroom (s : AntiRateLimit) : bool :=
  (0 <? Z.of_nat (List.length (queue s)))
  && (activeTasks s <? concurrency s)
  && (requestCount s <? maxRequests s).

(** [this.queue.shift(); this.activeTasks++; this.requestCount++], the head
    of the queue being gone and [rest] left. *)
Definition start_task (rest : list InternalTask) (s : AntiRateLimit)
  : AntiRateLimit :=
  mkState (maxRequests s) (interval s) (concurrency s) (retryLimit s)
          rest (activeTasks s + 1) (requestCount s + 1)
          (awaiting s) (nextHandle s) (resetTimer s).

(** The call [task.execute()] made on a task object: each earlier call of
    the object failed and was retried, so the call has number [retries]. *)
Definition call_of (task : InternalTask) : Call :=
  execute (base task) (Z.to_nat (retries task)).

(** The [try]/[catch] part of the loop body, run when the execution of
    [task] is over. *)
Definition settle_task (task : InternalTask) (o : Outcome) (s : AntiRateLimit)
  : AntiRateLimit * list Effect :=
  match o with
  | Fulfilled result => (s, [Resolved (handle task) result])
  | Thrown error =>
      if retries task <? retryLimit s then
        (with_queue
           (queue s ++ [mkInternal (handle task) (base task) (retries task + 1)])
           s,
         [])
      else (s, [Rejected (handle task) error])
  end.

(** One activation of [processQueue], from its call to its suspension or
    its return.  When the guard fails the activation returns.  When it
    holds, the head of the queue is shifted, both counters are incremented
    and [task.execute()] is called.  If the call returns, the activation
    waits for the promise.  If the call throws, the same turn goes on with
    the [catch], the [finally] ([activeTasks--] and a fresh, un-awaited
    activation, which runs to its own suspension or return) and the next
    round of the loop.  Every round spends one unit of [requestCount], which
    nothing gives back within a turn: [fuel] bounds the rounds left. *)
Fixpoint processQueue_fuel (fuel : nat) (s : AntiRateLimit)
  : AntiRateLimit * list Effect :=
  match fuel with
  | O => (s, [])
  | S fuel' =>
      if has_headroom s then
        match queue s with
        | [] => (s, [])                          (* if (!task) return *)
        | task :: rest =>
            let s1 := start_task rest s in
            match call_of task with
            | Returns =>
                (with_awaiting (awaiting s1 ++ [task]) s1,
                 [Started (handle task)])
            | Throws error =>
                let (s2, e2) := settle_task task (Thrown error) s1 in
                let (s3, e3) :=
                  processQueue_fuel fuel'
                    (with_activeTasks (activeTasks s2 - 1) s2) in
                let (s4, e4) := processQueue_fuel fuel' s3 in
                (s4,
                 Started (handle task) :: Ended (handle task) (Thrown error)
                 :: e2 ++ e3 ++ e4)
            end
        end
      else (s, [])
  end.

(** The admissions the window still allows: no turn makes more rounds. *)
Definition turn_budget (s : AntiRateLimit) : nat :=
  Z.to_nat (maxRequests s - requestCount s).

Definition processQueue (s : AntiRateLimit) : AntiRateLimit * list Effect :=
  processQueue_fuel (turn_budget s) s.

(** The rest of an activation once the execution it started is over with
    outcome [o]: the [try]/[catch], then [finally] ([activeTasks--] and a
    fresh, un-awaited activation of [processQueue]), then the activation
    goes round its [while] loop once more, up to its next suspension or its
    return. *)
Definition resume (task : InternalTask) (o : Outcome) (s : AntiRateLimit)
  : AntiRateLimit * list Effect :=
  let (s1, e1) := settle_task task o s in
  let s2 := with_activeTasks (activeTasks s1 - 1) s1 in
  let (s3, e3) := processQueue s2 in
  let (s4, e4) := processQueue s3 in
  (s4, Ended (handle task) o :: e1 ++ e3 ++ e4).

(** [addTask(task)]: wrap, push, sort, call [processQueue]. *)
Definition addTask (t : Task) (s : AntiRateLimit)
  : AntiRateLimit * list Effect :=
  let wrappedTask := mkInternal (nextHandle s) t 0 in
  let s1 := with_nextHandle (S (nextHandle s)) s in
  let s2 := with_queue (sort_queue (queue s1 ++ [wrappedTask])) s1 in
  processQueue s2.

(** The callback given to [setInterval]. *)
Definition tick (s : AntiRateLimit) : AntiRateLimit * list Effect :=
  let (s', effs) := processQueue (with_requestCount 0 s) in
  (s', WindowReset :: effs).

Definition has_handle (h : nat) (t : InternalTask) : bool :=
  Nat.eqb (handle t) h.

Definition lookup (h : nat) (l : list InternalTask) : option InternalTask :=
  find (has_handle h) l.

(** The activation found by [lookup] leaves the waiting ones. *)
Fixpoint drop_handle (h : nat) (l : list InternalTask) : list InternalTask :=
  match l with
  | [] => []
  | t :: l' => if has_handle h t then l' else t :: drop_handle h l'
  end.

(** One atomic transition.  [Settle h o] is possible only for a task some
    activation waits for, [Tick] only while the timer is registered. *)
Definition step (s : AntiRateLimit) (ev : Event)
  : option (AntiRateLimit * list Effect) :=
  match ev with
  | AddTask t => Some (addTask t s)
  | Tick =>
      match resetTimer s with
      | Some _ => Some (tick s)
      | None => None
      end
  | Settle h o =>
      match lookup h (awaiting s) with
      | Some task => Some (resume task o (with_awaiting (drop_handle h (awaiting s)) s))
      | None => None
      end
  end.

Fixpoint run (s : AntiRateLimit) (evs : list Event)
  : option (AntiRateLimit * list Effect) :=
  match evs with
  | [] => Some (s, [])
  | ev :: rest =>
      match step s ev with
      | None => None
      | Some (s1, e1) =>
          match run s1 rest with
          | None => None
          | Some (s2, e2) => Some (s2, e1 ++ e2)
          end
      end
  end.

(** ** Observations on runs *)

(** A thunk all of whose calls return a promise. *)
Definition promised : nat -> Call := fun _ => Returns.

(** A task with such a thunk. *)
Definition async (name : string) (p : option Z) : Task :=
  mkTask name promised p.

Definition is_thrown (o : Outcome) : bool :=
  match o with Thrown _ => true | Fulfilled _ => false end.

(** The outcomes of the executions of task [h], oldest first. *)
Definition outcome_of (h : nat) (e : Effect) : list Outcome :=
  match e with
  | Ended h' o => if Nat.eqb h' h then [o] else []
  | _ => []
  end.

Definition outcomes (h : nat) (log : list Effect) : list Outcome :=
  flat_map (outcome_of h) log.

Definition is_start (h : nat) (e : Effect) : bool :=
  match e with Started h' => Nat.eqb h' h | _ => false end.

(** Number of times [execute()] of task [h] was called. *)
Definition attempts (h : nat) (log : list Effect) : nat :=
  List.length (filter (is_start h) log).

Definition is_final (h : nat) (e : Effect) : bool :=
  match e with
  | Resolved h' _ | Rejected h' _ => Nat.eqb h' h
  | _ => false
  end.

(** The calls of [resolve] and [reject] of task [h]: what its future sees. *)
Definition finals (h : nat) (log : list Effect) : list Effect :=
  filter (is_final h) log.

(** The tasks dequeued, in order. *)
Definition started_of (e : Effect) : list nat :=
  match e with Started h => [h] | _ => [] end.

Definition dequeued (log : list Effect) : list nat := flat_map started_of log.

(** Starts per window: the pair of the closed windows (latest first) and of
    the window still open. *)
Definition tally_step (acc : list nat * nat) (e : Effect) : list nat * nat :=
  match e with
  | WindowReset => (snd acc :: fst acc, 0%nat)
  | Started _ => (fst acc, S (snd acc))
  | _ => acc
  end.

Definition tally (log : list Effect) : list nat * nat :=
  fold_left tally_step log ([], 0%nat).

Definition closed_windows (log : list Effect) : list nat := fst (tally log).
Definition open_window (log : list Effect) : nat := snd (tally log).

(** Where a task is in its life. *)
Inductive Phase :=
| Fresh                 (* not allocated yet *)
| Queued (r : Z)        (* in the queue, retries = r *)
| Running (r : Z)       (* executing, retries = r *)
| Done.                 (* resolved or rejected *)

Definition phase (s : AntiRateLimit) (h : nat) : Phase :=
  match lookup h (awaiting s) with
  | Some t => Running (retries t)
  | None =>
      match lookup h (queue s) with
      | Some t => Queued (retries t)
      | None => if (h <? nextHandle s)%nat then Done else Fresh
      end
  end.

(** Handles are allocated once and name one object. *)
Definition handles (s : AntiRateLimit) : list nat :=
  map handle (queue s ++ awaiting s).

Definition well_formed (s : AntiRateLimit) : Prop :=
  NoDup (handles s)
  /\ Forall (fun h => (h < nextHandle s)%nat) (handles s).

(** The invariant of the two counters. *)
Definition within_bounds (s : AntiRateLimit) : Prop :=
  0 <= requestCount s <= maxRequests s
  /\ 0 <= activeTasks s <= concurrency s
  /\ activeTasks s = Z.of_nat (List.length (awaiting s)).

(** The configuration and the timer are written by the constructor only. *)
Definition same_config (s s' : AntiRateLimit) : Prop :=
  maxRequests s' = maxRequests s /\ interval s' = interval s
  /\ concurrency s' = concurrency s /\ retryLimit s' = retryLimit s
  /\ resetTimer s' = resetTimer s.

(** The gate counter counts the suspended activations. *)
Definition gate_ok (s : AntiRateLimit) : Prop :=
  0 <= activeTasks s <= concurrency s
  /\ activeTasks s = Z.of_nat (List.length (awaiting s)).

(** The window counter counts the starts of the open window; no closed
    window saw more starts than allowed. *)
Definition window_ok (s : AntiRateLimit) (acc : list nat * nat) : Prop :=
  0 <= requestCount s <= maxRequests s
  /\ Z.of_nat (snd acc) = requestCount s
  /\ Forall (fun n => Z.of_nat n <= maxRequests s) (fst acc).

(** The life of one task, one move at a time: the phase before, the outcome
    of the execution that ends (if one does), the number of starts, the
    calls of [resolve]/[reject], the phase after. *)
Inductive task_move (limit : Z) (h : nat)
  : Phase -> list Outcome -> nat -> list Effect -> Phase -> Prop :=
| tm_submit : task_move limit h Fresh [] 0 [] (Queued 0)
| tm_start r : task_move limit h (Queued r) [] 1 [] (Running r)
| tm_throw_retry r e :
    r < limit ->
    task_move limit h (Queued r) [Thrown e] 1 [] (Queued (r + 1))
| tm_throw_reject r e :
    ~ r < limit ->
    task_move limit h (Queued r) [Thrown e] 1 [Rejected h e] Done
| tm_resolve r v :
    task_move limit h (Running r) [Fulfilled v] 0 [Resolved h v] Done
| tm_retry r e :
    r < limit ->
    task_move limit h (Running r) [Thrown e] 0 [] (Queued (r + 1))
| tm_reject r e :
    ~ r < limit ->
    task_move limit h (Running r) [Thrown e] 0 [Rejected h e] Done.

(** What a turn of the scheduler does to one task: a sequence of moves. *)
Inductive task_moves (limit : Z) (h : nat)
  : Phase -> list Outcome -> nat -> list Effect -> Phase -> Prop :=
| tms_nil p : task_moves limit h p [] 0 [] p
| tms_cons p o k f p' o' k' f' p'' :
    task_move limit h p o k f p' ->
    task_moves limit h p' o' k' f' p'' ->
    task_moves limit h p (o ++ o') (k + k') (f ++ f') p''.

(** What activations of [processQueue] do to a task none of whose
    executions ends meanwhile: nothing, or take it from the queue and start
    it. *)
Definition admits (s s' : AntiRateLimit) (e : list Effect) (h : nat) : Prop :=
  finals h e = []
  /\ ((phase s' h = phase s h /\ attempts h e = 0%nat)
      \/ (exists r, phase s h = Queued r /\ phase s' h = Running r
                    /\ attempts h e = 1%nat)).

(** The executions of [h] that end in [e] all end by a throw of the thunk
    of [h] itself, a task queued in [s]. *)
Definition own_throws (s : AntiRateLimit) (e : list Effect) (h : nat) : Prop :=
  forall o, In o (outcomes h e) ->
    exists t k err,
      In t (queue s) /\ handle t = h
      /\ execute (base t) k = Throws err /\ o = Thrown err.

(** The queued objects of handle [h] in [s'] carry thunks queued under [h]
    in [s]. *)
Definition same_thunks (s s' : AntiRateLimit) (h : nat) : Prop :=
  forall t', In t' (queue s') -> handle t' = h ->
    exists t, In t (queue s) /\ handle t = h /\ base t = base t'.

(** What the history of a task looks like in each phase: [outs] are the
    outcomes of its executions so far, [n] the number of starts, [fin] the
    calls of [resolve]/[reject]. *)
Definition life (limit : Z) (h : nat) (p : Phase)
    (outs : list Outcome) (n : nat) (fin : list Effect) : Prop :=
  match p with
  | Fresh => outs = [] /\ n = 0%nat /\ fin = []
  | Queued r =>
      0 <= r <= limit /\ forallb is_thrown outs = true
      /\ Z.of_nat (List.length outs) = r /\ Z.of_nat n = r /\ fin = []
  | Running r =>
      0 <= r <= limit /\ forallb is_thrown outs = true
      /\ Z.of_nat (List.length outs) = r /\ Z.of_nat n = r + 1 /\ fin = []
  | Done =>
      exists errs o,
        outs = errs ++ [o] /\ forallb is_thrown errs = true
        /\ Z.of_nat n = Z.of_nat (List.length errs) + 1
        /\ match o with
           | Fulfilled v =>
               Z.of_nat (List.length errs) <= limit /\ fin = [Resolved h v]
           | Thrown e =>
               Z.of_nat (List.length errs) = limit /\ fin = [Rejected h e]
           end
  end.


(** The history of a task when the stored retry limit is negative. *)
Definition fail_fast_life (h : nat) (p : Phase)
    (outs : list Outcome) (n : nat) (fin : list Effect) : Prop :=
  match p with
  | Fresh => outs = [] /\ n = 0%nat /\ fin = []
  | Queued r => r = 0 /\ outs = [] /\ n = 0%nat /\ fin = []
  | Running r => r = 0 /\ outs = [] /\ n = 1%nat /\ fin = []
  | Done =>
      exists o, outs = [o] /\ n = 1%nat
                /\ fin = match o with
                         | Fulfilled v => [Resolved h v]
                         | Thrown e => [Rejected h e]
                         end
  end.

(** How many tasks the guard of [processQueue] lets through from [s]. *)
Definition headroom (s : AntiRateLimit) : nat :=
  Nat.min (List.length (queue s))
          (Nat.min (Z.to_nat (concurrency s - activeTasks s))
                   (Z.to_nat (maxRequests s - requestCount s))).

(** [n] activations of [processQueue] in a row, nothing else in between. *)
Fixpoint processQueue_times (n : nat) (s : AntiRateLimit)
  : AntiRateLimit * list Effect :=
  match n with
  | O => (s, [])
  | S n' =>
      let (s1, e1) := processQueue s in
      let (s2, e2) := processQueue_times n' s1 in
      (s2, e1 ++ e2)
  end.

(** The tasks whose future was rejected. *)
Definition rejected_of (e : Effect) : list nat :=
  match e with Rejected h _ => [h] | _ => [] end.

Definition rejected (log : list Effect) : list nat := flat_map rejected_of log.

(** ** A measure of the work left *)

Definition retries_within (limit : Z) (t : InternalTask) : Prop :=
  0 <= retries t <= limit.

(** What a list of task objects can still cost: two units for every
    execution an object may still get, and [w] for the object itself. *)
Definition cost (limit w : Z) (l : list InternalTask) : Z :=
  fold_right (fun t a => 2 * (limit - retries t) + w + a) 0 l.

(** A queued task weighs one unit more than a task in flight. *)
Definition load (s : AntiRateLimit) : Z :=
  cost (retryLimit s) 2 (queue s) + cost (retryLimit s) 1 (awaiting s).

(** A scheduler that can work: at least one slot, at least one request per
    window, the timer registered, counters and retry counts in range. *)
Definition live (s : AntiRateLimit) : Prop :=
  well_formed s
  /\ activeTasks s = Z.of_nat (List.length (awaiting s))
  /\ 0 <= requestCount s
  /\ 1 <= concurrency s /\ 1 <= maxRequests s /\ 0 <= retryLimit s
  /\ resetTimer s <> None
  /\ Forall (retries_within (retryLimit s)) (queue s)
  /\ Forall (retries_within (retryLimit s)) (awaiting s).

(** The objects of handle [h] in [l] carry a thunk all of whose calls
    return a promise. *)
Definition returns_promises (h : nat) (l : list InternalTask) : Prop :=
  Forall (fun t => handle t = h -> forall k, execute (base t) k = Returns) l.

(** Number of executions that ended. *)
Definition is_ending (e : Effect) : bool :=
  match e with Ended _ _ => true | _ => false end.

Definition endings (log : list Effect) : nat :=
  List.length (filter is_ending log).

(** The public members of the class besides its constructor. *)
Inductive PublicMethod :=
| call_addTask (t : Task).

Definition call (m : PublicMethod) (s : AntiRateLimit) : AntiRateLimit :=
  match m with
  | call_addTask t => fst (addTask t s)
  end.

(** Queue order: priorities never increase from head to tail. *)
Definition by_priority (a b : InternalTask) : Prop := prio b <= prio a.

Definition queue_sorted (l : list InternalTask) : Prop :=
  StronglySorted by_priority l.

(** The executions that fail. *)
Definition is_failure (e : Effect) : bool :=
  match e with Ended _ (Thrown _) => true | _ => false end.

(** No execution has failed. *)
Definition no_failure (log : list Effect) : bool :=
  forallb (fun e => negb (is_failure e)) log.

(** Queue order with ties broken by submission: [a] is served before [b]
    when its priority is larger, or equal with [a] allocated first. *)
Definition goes_before (a b : InternalTask) : bool :=
  (prio b <? prio a) || ((prio a =? prio b) && (handle a <? handle b)%nat).

Definition queue_ordered (l : list InternalTask) : Prop :=
  StronglySorted (fun a b => goes_before a b = true) l.

(** Number of calls of [addTask] in a run. *)
Definition is_submission (ev : Event) : bool :=
  match ev with AddTask _ => true | _ => false end.

Definition submissions (evs : list Event) : nat :=
  List.length (filter is_submission evs).

(** The retry limit the caller asked for: the option, 3 when it is left
    out. *)
Definition configured_retryLimit (options : RateLimiterOptions) : Z :=
  match opt_retryLimit options with
  | Some n => n
  | None => 3
  end.

(** The options of the README's first example. *)
Definition readme_options : RateLimiterOptions :=
  mkOptions 5 1000 (Some 2) (Some 3).

(** * Properties *)

(** ** Scenarios *)

Example run_two_tasks :
  option_map snd
    (run (constructor readme_options)
         [AddTask (async "task1" None); AddTask (async "task2" None);
          Settle 0 (Fulfilled "ok")])
  = Some [Started 0%nat; Started 1%nat;
          Ended 0%nat (Fulfilled "ok"); Resolved 0%nat "ok"].
Proof. vm_compute. reflexivity. Qed.

(** Six immediate tasks under the README's options: five begin in the first
    window, the sixth only after the reset; never more than two at once. *)
Example run_six_tasks :
  let t := async "t" None in
  option_map (fun r => dequeued (snd r))
    (run (constructor readme_options)
         [AddTask t; AddTask t; AddTask t; AddTask t; AddTask t; AddTask t;
          Settle 0 (Fulfilled "a"); Settle 1 (Fulfilled "b");
          Settle 2 (Fulfilled "c"); Settle 3 (Fulfilled "d");
          Settle 4 (Fulfilled "e")])
  = Some [0; 1; 2; 3; 4]%nat
  /\ option_map (fun r => dequeued (snd r))
    (run (constructor readme_options)
         [AddTask t; AddTask t; AddTask t; AddTask t; AddTask t; AddTask t;
          Settle 0 (Fulfilled "a"); Settle 1 (Fulfilled "b");
          Settle 2 (Fulfilled "c"); Settle 3 (Fulfilled "d");
          Settle 4 (Fulfilled "e"); Tick])
  = Some [0; 1; 2; 3; 4; 5]%nat.
Proof. split; vm_compute; reflexivity. Qed.

(** Priorities 1 and 10 both waiting behind a running task: 10 goes first
    although it was submitted last. *)
Example run_priorities :
  option_map (fun r => dequeued (snd r))
    (run (constructor (mkOptions 5 1000 None None))
         [AddTask (async "first" None); AddTask (async "low" (Some 1));
          AddTask (async "high" (Some 10)); Settle 0 (Fulfilled "v")])
  = Some [0; 2]%nat.
Proof. vm_compute. reflexivity. Qed.

(** A thunk that throws at each call, queued with two other tasks behind
    an exhausted window, two slots free: one firing of the timer starts it,
    starts the next task from the activation made in [finally], and a third
    from the loop. *)
Example run_synchronous_throw :
  let thrower := mkTask "t" (fun _ => Throws "boom") None in
  let before :=
    [AddTask (async "x" None); AddTask (async "y" None);
     AddTask (async "z" None); Settle 0 (Fulfilled "v");
     Settle 1 (Fulfilled "v"); Settle 2 (Fulfilled "v");
     AddTask thrower; AddTask (async "a" None); AddTask (async "b" None)] in
  option_map (fun r => dequeued (snd r))
    (run (constructor (mkOptions 3 1000 (Some 2) None)) before)
  = Some [0; 1; 2]%nat
  /\ option_map (fun r => dequeued (snd r))
       (run (constructor (mkOptions 3 1000 (Some 2) None)) (before ++ [Tick]))
     = Some [0; 1; 2; 3; 4; 5]%nat.
Proof. split; vm_compute; reflexivity. Qed.

(** ** The recursion of [processQueue] *)

Lemma has_headroom_true (s : AntiRateLimit) :
  has_headroom s = true ->
  activeTasks s < concurrency s /\ requestCount s < maxRequests s.
Proof.
  unfold has_headroom. intros G.
  apply andb_prop in G as [G G3]. apply andb_prop in G as [_ G2].
  split; lia.
Qed.

Lemma has_headroom_queue (s : AntiRateLimit) :
  has_headroom s = true -> exists task rest, queue s = task :: rest.
Proof.
  unfold has_headroom. destruct (queue s) as [|task rest]; simpl.
  - discriminate.
  - eauto.
Qed.

Lemma settle_task_fields task o s s' e :
  settle_task task o s = (s', e) ->
  maxRequests s' = maxRequests s /\ interval s' = interval s
  /\ concurrency s' = concurrency s /\ retryLimit s' = retryLimit s
  /\ resetTimer s' = resetTimer s
  /\ activeTasks s' = activeTasks s /\ requestCount s' = requestCount s
  /\ awaiting s' = awaiting s /\ nextHandle s' = nextHandle s.
Proof.
  unfold settle_task. destruct o; [|destruct (retries task <? retryLimit s)];
    intros H; inversion H; subst; repeat split.
Qed.

(** The state in which the turn goes on after a call that threw. *)
Lemma throw_state s task rest error s2 e2 :
  settle_task task (Thrown error) (start_task rest s) = (s2, e2) ->
  let s3 := with_activeTasks (activeTasks s2 - 1) s2 in
  maxRequests s3 = maxRequests s /\ interval s3 = interval s
  /\ concurrency s3 = concurrency s /\ retryLimit s3 = retryLimit s
  /\ resetTimer s3 = resetTimer s
  /\ activeTasks s3 = activeTasks s
  /\ requestCount s3 = requestCount s + 1
  /\ awaiting s3 = awaiting s /\ nextHandle s3 = nextHandle s
  /\ ((retries task < retryLimit s
       /\ queue s3
          = rest ++ [mkInternal (handle task) (base task) (retries task + 1)]
       /\ e2 = [])
      \/ (~ retries task < retryLimit s
          /\ queue s3 = rest /\ e2 = [Rejected (handle task) error])).
Proof.
  unfold settle_task. cbn [retryLimit start_task].
  destruct (Z.ltb_spec (retries task) (retryLimit s)) as [Hlt|Hge];
    intros Hs; inversion Hs; subst; simpl;
    repeat split; try lia; [left | right]; repeat split; lia.
Qed.

Lemma processQueue_fuel_budget n s :
  maxRequests (fst (processQueue_fuel n s)) = maxRequests s
  /\ requestCount s <= requestCount (fst (processQueue_fuel n s)).
Proof.
  revert s. induction n as [|n IH]; intros s; [simpl; lia|].
  cbn [processQueue_fuel]. destruct (has_headroom s); [|simpl; lia].
  destruct (queue s) as [|task rest]; [simpl; lia|].
  destruct (call_of task) as [|error]; [simpl; lia|].
  destruct (settle_task _ _ _) as [s2 e2] eqn:E2.
  pose proof (throw_state _ _ _ _ _ _ E2) as (M & _ & _ & _ & _ & _ & R & _).
  pose proof (IH (with_activeTasks (activeTasks s2 - 1) s2)) as [M3 R3].
  destruct (processQueue_fuel n (with_activeTasks _ _)) as [s3 e3].
  pose proof (IH s3) as [M4 R4].
  destruct (processQueue_fuel n s3) as [s4 e4].
  cbn [fst] in *. split; [congruence | lia].
Qed.

Lemma processQueue_fuel_stable n m s :
  (turn_budget s <= n)%nat -> (turn_budget s <= m)%nat ->
  processQueue_fuel n s = processQueue_fuel m s.
Proof.
  revert m s. induction n as [|n IH]; intros m s Hn Hm.
  - assert (G : has_headroom s = false).
    { destruct (has_headroom s) eqn:G; [|reflexivity].
      apply has_headroom_true in G. unfold turn_budget in Hn. lia. }
    destruct m as [|m]; [reflexivity|].
    cbn [processQueue_fuel]. rewrite G. reflexivity.
  - destruct m as [|m].
    + assert (G : has_headroom s = false).
      { destruct (has_headroom s) eqn:G; [|reflexivity].
        apply has_headroom_true in G. unfold turn_budget in Hm. lia. }
      cbn [processQueue_fuel]. rewrite G. reflexivity.
    + cbn [processQueue_fuel]. destruct (has_headroom s); [|reflexivity].
      destruct (queue s) as [|task rest]; [reflexivity|].
      destruct (call_of task) as [|error]; [reflexivity|].
      destruct (settle_task _ _ _) as [s2 e2] eqn:E2.
      pose proof (throw_state _ _ _ _ _ _ E2) as (M & _ & _ & _ & _ & _ & R & _).
      set (s2' := with_activeTasks (activeTasks s2 - 1) s2) in *.
      assert (B : (turn_budget s2' <= n)%nat /\ (turn_budget s2' <= m)%nat).
      { unfold turn_budget in *. rewrite M, R. lia. }
      rewrite (IH m s2' (proj1 B) (proj2 B)).
      pose proof (processQueue_fuel_budget m s2') as [M3 R3].
      destruct (processQueue_fuel m s2') as [s3 e3]. cbn [fst] in *.
      assert (B3 : (turn_budget s3 <= n)%nat /\ (turn_budget s3 <= m)%nat).
      { unfold turn_budget in *. rewrite M3. lia. }
      rewrite (IH m s3 (proj1 B3) (proj2 B3)). reflexivity.
Qed.

(** [processQueue] satisfies the equation its source text reads as. *)
Lemma processQueue_eq s :
  processQueue s =
  if has_headroom s then
    match queue s with
    | [] => (s, [])
    | task :: rest =>
        match call_of task with
        | Returns =>
            (with_awaiting (awaiting s ++ [task]) (start_task rest s),
             [Started (handle task)])
        | Throws error =>
            let (s', effs) := resume task (Thrown error) (start_task rest s) in
            (s', Started (handle task) :: effs)
        end
    end
  else (s, []).
Proof.
  unfold processQueue at 1. destruct (turn_budget s) as [|n] eqn:B.
  - destruct (has_headroom s) eqn:G; [|reflexivity].
    apply has_headroom_true in G. unfold turn_budget in B. lia.
  - cbn [processQueue_fuel]. destruct (has_headroom s); [|reflexivity].
    destruct (queue s) as [|task rest]; [reflexivity|].
    destruct (call_of task) as [|error]; [reflexivity|].
    unfold resume. destruct (settle_task _ _ _) as [s2 e2] eqn:E2.
    pose proof (throw_state _ _ _ _ _ _ E2) as (M & _ & _ & _ & _ & _ & R & _).
    set (s2' := with_activeTasks (activeTasks s2 - 1) s2) in *.
    assert (B2 : (turn_budget s2' <= n)%nat).
    { unfold turn_budget in *. rewrite M, R. lia. }
    unfold processQueue.
    rewrite (processQueue_fuel_stable n (turn_budget s2') s2' B2 (Nat.le_refl _)).
    pose proof (processQueue_fuel_budget (turn_budget s2') s2') as [M3 R3].
    destruct (processQueue_fuel (turn_budget s2') s2') as [s3 e3].
    cbn [fst] in *.
    assert (B3 : (turn_budget s3 <= n)%nat).
    { unfold turn_budget in *. rewrite M3. lia. }
    rewrite (processQueue_fuel_stable n (turn_budget s3) s3 B3 (Nat.le_refl _)).
    destruct (processQueue_fuel (turn_budget s3) s3) as [s4 e4].
    reflexivity.
Qed.

(** Induction on the rounds of one activation. *)
Lemma processQueue_rounds
    (P : AntiRateLimit -> AntiRateLimit -> list Effect -> Prop) :
  (forall s, has_headroom s = false -> P s s []) ->
  (forall s task rest,
      has_headroom s = true -> queue s = task :: rest ->
      call_of task = Returns ->
      P s (with_awaiting (awaiting s ++ [task]) (start_task rest s))
        [Started (handle task)]) ->
  (forall s task rest error s2 e2 s3 e3 s4 e4,
      has_headroom s = true -> queue s = task :: rest ->
      call_of task = Throws error ->
      settle_task task (Thrown error) (start_task rest s) = (s2, e2) ->
      processQueue (with_activeTasks (activeTasks s2 - 1) s2) = (s3, e3) ->
      P (with_activeTasks (activeTasks s2 - 1) s2) s3 e3 ->
      processQueue s3 = (s4, e4) ->
      P s3 s4 e4 ->
      P s s4 (Started (handle task) :: Ended (handle task) (Thrown error)
              :: e2 ++ e3 ++ e4)) ->
  forall s s' e, processQueue s = (s', e) -> P s s' e.
Proof.
  intros Hidle Hwait Hthrow.
  enough (G : forall n s, (turn_budget s <= n)%nat ->
                          forall s' e, processQueue s = (s', e) -> P s s' e).
  { intros s s' e. apply (G (turn_budget s) s (Nat.le_refl _)). }
  induction n as [|n IH]; intros s B s' e; rewrite processQueue_eq.
  - destruct (has_headroom s) eqn:G.
    + apply has_headroom_true in G. unfold turn_budget in B. lia.
    + intros H; inversion H; subst. apply Hidle. exact G.
  - destruct (has_headroom s) eqn:G.
    2:{ intros H; inversion H; subst. apply Hidle. exact G. }
    destruct (has_headroom_queue s G) as (task & rest & Q). rewrite Q.
    destruct (call_of task) as [|error] eqn:C.
    + intros H; inversion H; subst. apply Hwait; assumption.
    + unfold resume. destruct (settle_task _ _ _) as [s2 e2] eqn:E2.
      pose proof (throw_state _ _ _ _ _ _ E2)
        as (M & _ & _ & _ & _ & _ & R & _).
      set (s2' := with_activeTasks (activeTasks s2 - 1) s2) in *.
      destruct (processQueue s2') as [s3 e3] eqn:E3.
      destruct (processQueue s3) as [s4 e4] eqn:E4.
      intros H; inversion H; subst.
      apply has_headroom_true in G as G'.
      assert (B2 : (turn_budget s2' <= n)%nat).
      { unfold turn_budget in *. rewrite M, R. lia. }
      assert (B3 : (turn_budget s3 <= n)%nat).
      { pose proof (processQueue_fuel_budget (turn_budget s2') s2') as [M3 R3].
        unfold processQueue in E3. rewrite E3 in M3, R3. cbn [fst] in *.
        unfold turn_budget in *. rewrite M3. lia. }
      eapply Hthrow; eauto.
Qed.

(** ** Basic facts about the operations *)

Lemma same_config_refl s : same_config s s.
Proof. repeat split. Qed.

Lemma same_config_trans s1 s2 s3 :
  same_config s1 s2 -> same_config s2 s3 -> same_config s1 s3.
Proof. unfold same_config. intuition congruence. Qed.

Lemma processQueue_config s s' e :
  processQueue s = (s', e) -> same_config s s'.
Proof.
  revert s s' e. apply processQueue_rounds.
  - intros s _. apply same_config_refl.
  - intros s task rest _ _ _. repeat split.
  - intros s task rest error s2 e2 s3 e3 s4 e4 _ _ _ E2 _ C3 _ C4.
    pose proof (throw_state _ _ _ _ _ _ E2) as (M & I & C & L & T & _).
    eapply same_config_trans; [|exact C4].
    eapply same_config_trans; [|exact C3].
    repeat split; assumption.
Qed.

Lemma settle_task_config task o s s' e :
  settle_task task o s = (s', e) -> same_config s s'.
Proof.
  intros H. apply settle_task_fields in H as (?&?&?&?&?&_).
  repeat split; assumption.
Qed.

Lemma resume_config task o s s' e :
  resume task o s = (s', e) -> same_config s s'.
Proof.
  unfold resume.
  destruct (settle_task task o s) as [s1 e1] eqn:E1.
  destruct (processQueue _) as [s3 e3] eqn:E3.
  destruct (processQueue s3) as [s4 e4] eqn:E4.
  intros H; inversion H; subst.
  apply settle_task_config in E1. apply processQueue_config in E3, E4.
  eapply same_config_trans; [|exact E4].
  eapply same_config_trans; [|exact E3].
  destruct E1 as (?&?&?&?&?). repeat split; assumption.
Qed.

Lemma step_config s ev s' e :
  step s ev = Some (s', e) -> same_config s s'.
Proof.
  destruct ev as [t| |h o]; simpl.
  - intros H; inversion H as [H1]. unfold addTask in H1.
    apply processQueue_config in H1. destruct H1 as (?&?&?&?&?).
    repeat split; assumption.
  - destruct (resetTimer s); [|discriminate]. unfold tick.
    destruct (processQueue _) as [s1 e1] eqn:E1.
    intros H; inversion H; subst. apply processQueue_config in E1.
    destruct E1 as (?&?&?&?&?). repeat split; assumption.
  - destruct (lookup h (awaiting s)); [|discriminate].
    intros H; inversion H as [H1]. apply resume_config in H1.
    destruct H1 as (?&?&?&?&?). repeat split; assumption.
Qed.

(** Induction along a run, with the events and effects seen so far. *)
Lemma run_app s evs1 evs2 :
  run s (evs1 ++ evs2) =
  match run s evs1 with
  | None => None
  | Some (s1, e1) =>
      match run s1 evs2 with
      | None => None
      | Some (s2, e2) => Some (s2, e1 ++ e2)
      end
  end.
Proof.
  revert s. induction evs1 as [|ev evs1 IH]; intros s; simpl.
  - destruct (run s evs2) as [[s2 e2]|]; reflexivity.
  - destruct (step s ev) as [[s1 e1]|]; [|reflexivity].
    rewrite IH. destruct (run s1 evs1) as [[s2 e2]|]; [|reflexivity].
    destruct (run s2 evs2) as [[s3 e3]|]; [|reflexivity].
    rewrite app_assoc. reflexivity.
Qed.

Lemma run_invariant (P : list Event -> AntiRateLimit -> list Effect -> Prop) :
  (forall evs s log ev s' effs,
      P evs s log -> step s ev = Some (s', effs) ->
      P (evs ++ [ev]) s' (log ++ effs)) ->
  forall s0, P [] s0 [] ->
  forall evs s log, run s0 evs = Some (s, log) -> P evs s log.
Proof.
  intros Hstep s0 H0.
  assert (G : forall evs evs0 s1 log0,
             P evs0 s1 log0 ->
             forall s log, run s1 evs = Some (s, log) ->
                           P (evs0 ++ evs) s (log0 ++ log)).
  { induction evs as [|ev evs IH]; intros evs0 s1 log0 HP s log; simpl.
    - intros H; inversion H; subst. rewrite !app_nil_r. exact HP.
    - destruct (step s1 ev) as [[s2 e2]|] eqn:E; [|discriminate].
      destruct (run s2 evs) as [[s3 e3]|] eqn:R; [|discriminate].
      intros H; inversion H; subst.
      replace (evs0 ++ ev :: evs) with ((evs0 ++ [ev]) ++ evs)
        by (rewrite <- app_assoc; reflexivity).
      rewrite app_assoc. eapply IH; eauto. }
  intros evs s log R. apply (G evs [] s0 [] H0 s log R).
Qed.

Lemma run_config s0 evs s log :
  run s0 evs = Some (s, log) -> same_config s0 s.
Proof.
  apply (run_invariant (fun _ s _ => same_config s0 s)).
  - intros _ s1 _ ev s' effs H E. apply step_config in E.
    eapply same_config_trans; eauto.
  - apply same_config_refl.
Qed.

(** ** The counters stay within their bounds *)

Lemma drop_handle_length h l t :
  lookup h l = Some t ->
  List.length l = S (List.length (drop_handle h l)).
Proof.
  unfold lookup. induction l as [|x l IH]; simpl; [discriminate|].
  destruct (has_handle h x); simpl; [reflexivity|].
  intros H. rewrite (IH H). reflexivity.
Qed.

Lemma settle_task_tally task o s s' e acc :
  settle_task task o s = (s', e) -> fold_left tally_step e acc = acc.
Proof.
  unfold settle_task. destruct o; [|destruct (retries task <? retryLimit s)];
    intros H; inversion H; subst; reflexivity.
Qed.

Lemma processQueue_counters s s' e :
  processQueue s = (s', e) ->
  forall acc, gate_ok s -> window_ok s acc ->
              gate_ok s' /\ window_ok s' (fold_left tally_step e acc).
Proof.
  revert s s' e.
  apply (processQueue_rounds
           (fun s s' e =>
              forall acc, gate_ok s -> window_ok s acc ->
                          gate_ok s' /\ window_ok s' (fold_left tally_step e acc))).
  - intros s _ acc G W. split; assumption.
  - intros s task rest G _ _ acc [GB GL] (WB & WC & WF).
    apply has_headroom_true in G. unfold gate_ok, window_ok; simpl.
    rewrite length_app; simpl. repeat split; try lia. exact WF.
  - intros s task rest error s2 e2 s3 e3 s4 e4 G _ _ E2 _ IH3 _ IH4
           acc [GB GL] (WB & WC & WF).
    pose proof (throw_state _ _ _ _ _ _ E2)
      as (M & _ & C & _ & _ & A & R & Aw & _).
    apply has_headroom_true in G.
    cbn [fold_left tally_step]. rewrite !fold_left_app.
    rewrite (settle_task_tally _ _ _ _ _ (fst acc, S (snd acc)) E2).
    destruct (IH3 (fst acc, S (snd acc))) as [G3 W3].
    + unfold gate_ok. rewrite A, C, Aw. split; assumption.
    + unfold window_ok. rewrite R, M. simpl. repeat split; try lia. exact WF.
    + apply IH4; assumption.
Qed.

Lemma resume_counters task o s0 s s' e acc :
  lookup (handle task) (awaiting s0) = Some task ->
  s = with_awaiting (drop_handle (handle task) (awaiting s0)) s0 ->
  gate_ok s0 -> window_ok s0 acc ->
  resume task o s = (s', e) ->
  gate_ok s' /\ window_ok s' (fold_left tally_step e acc).
Proof.
  intros L -> [GB GL] W. unfold resume.
  destruct (settle_task _ _ _) as [s1 e1] eqn:E1.
  destruct (processQueue (with_activeTasks _ _)) as [s3 e3] eqn:E3.
  destruct (processQueue s3) as [s4 e4] eqn:E4.
  intros H; inversion H; subst. cbn [fold_left tally_step].
  rewrite !fold_left_app.
  pose proof (settle_task_fields _ _ _ _ _ E1)
    as (C1 & _ & C3 & _ & _ & A1 & R1 & W1 & _).
  rewrite (settle_task_tally _ _ _ _ _ acc E1).
  simpl in A1, R1, W1, C1, C3.
  apply drop_handle_length in L.
  assert (G2 : gate_ok (with_activeTasks (activeTasks s1 - 1) s1)).
  { unfold gate_ok; simpl. rewrite W1, A1, C3. lia. }
  assert (W2 : window_ok (with_activeTasks (activeTasks s1 - 1) s1) acc).
  { destruct W as (B & C & F). unfold window_ok; simpl.
    rewrite R1, C1. auto. }
  destruct (processQueue_counters _ _ _ E3 acc G2 W2) as [G3 W3].
  apply (processQueue_counters _ _ _ E4); assumption.
Qed.

Lemma lookup_handle h l t : lookup h l = Some t -> handle t = h.
Proof.
  unfold lookup. intros H. apply find_some in H as [_ H].
  apply Nat.eqb_eq in H. exact H.
Qed.

Lemma step_counters s ev s' e acc :
  gate_ok s -> window_ok s acc ->
  step s ev = Some (s', e) ->
  gate_ok s' /\ window_ok s' (fold_left tally_step e acc).
Proof.
  intros G W. destruct ev as [t| |h o]; simpl.
  - intros H; inversion H as [H1]. unfold addTask in H1.
    apply (processQueue_counters _ _ _ H1); assumption.
  - destruct (resetTimer s); [|discriminate]. unfold tick.
    destruct (processQueue _) as [s1 e1] eqn:E1.
    intros H; inversion H; subst. simpl.
    apply (processQueue_counters _ _ _ E1); [exact G|].
    destruct W as (B & C & F). unfold window_ok; simpl.
    repeat split; try lia. constructor; [lia | exact F].
  - destruct (lookup h (awaiting s)) as [task|] eqn:L; [|discriminate].
    intros H; inversion H as [H1].
    pose proof (lookup_handle _ _ _ L) as Hh. subst h.
    eapply resume_counters; eauto.
Qed.

Lemma run_counters s0 evs s log :
  gate_ok s0 -> window_ok s0 ([], 0%nat) ->
  run s0 evs = Some (s, log) ->
  gate_ok s /\ window_ok s (tally log).
Proof.
  intros G W.
  apply (run_invariant (fun _ s log => gate_ok s /\ window_ok s (tally log))).
  - intros _ s1 log1 ev s' effs [G1 W1] E. unfold tally.
    rewrite fold_left_app. eapply step_counters; eauto.
  - split; assumption.
Qed.

(** C3: along every run from a scheduler built with a non-negative
    [maxRequests] and a non-negative (or absent) [concurrency], the window
    counter stays in [0, maxRequests] and counts the tasks started since the
    last reset, no window between two resets saw more than [maxRequests]
    starts, and the in-flight counter stays in [0, concurrency] and counts
    the tasks in flight. *)
Theorem counters_within_bounds (options : RateLimiterOptions)
    (evs : list Event) (s : AntiRateLimit) (log : list Effect) :
  0 <= opt_maxRequests options ->
  (forall c, opt_concurrency options = Some c -> 0 <= c) ->
  run (constructor options) evs = Some (s, log) ->
  0 <= requestCount s <= maxRequests s
  /\ 0 <= activeTasks s <= concurrency s
  /\ activeTasks s = Z.of_nat (List.length (awaiting s))
  /\ Z.of_nat (open_window log) = requestCount s
  /\ Forall (fun n => Z.of_nat n <= maxRequests s) (closed_windows log)
  /\ maxRequests s = opt_maxRequests options
  /\ concurrency s = JS.or_default (opt_concurrency options) 1.
Proof.
  intros Hm Hc R.
  assert (G0 : gate_ok (constructor options)).
  { unfold gate_ok; simpl. split; [|reflexivity]. split; [lia|].
    unfold JS.or_default. destruct (opt_concurrency options) as [c|]; [|lia].
    specialize (Hc c eq_refl). destruct (c =? 0) eqn:E; lia. }
  assert (W0 : window_ok (constructor options) ([], 0%nat)).
  { unfold window_ok; simpl. repeat split; try lia. constructor. }
  destruct (run_counters _ _ _ _ G0 W0 R) as [[GB GL] (WB & WC & WF)].
  destruct (run_config _ _ _ _ R) as (C1 & _ & C3 & _).
  repeat split; try assumption; try lia.
Qed.

Lemma counters_within_bounds_witness :
  match run (constructor readme_options)
            [AddTask (async "a" None); AddTask (async "b" (Some 2));
             AddTask (async "c" None); Settle 1 (Thrown "x"); Tick;
             Settle 0 (Fulfilled "v")]
  with
  | Some (s, log) =>
      0 <= requestCount s <= maxRequests s
      /\ 0 <= activeTasks s <= concurrency s
      /\ Forall (fun n => Z.of_nat n <= maxRequests s) (closed_windows log)
  | None => False
  end.
Proof.
  destruct (run _ _) as [[s log]|] eqn:R.
  - pose proof (counters_within_bounds readme_options _ s log
                  ltac:(simpl; lia)
                  ltac:(simpl; intros c H; inversion H; lia)
                  R) as (A & B & _ & _ & C & _).
    split; [exact A|]. split; [exact B|exact C].
  - vm_compute in R. discriminate R.
Defined.

(** ** The constructor's defaults *)

(** C10: a falsy [concurrency] (absent or [0]) gives a scheduler whose
    effective max concurrency is 1, and such a scheduler does launch the
    first task it is given as soon as the window allows one admission: the
    call of [addTask] starts the task, and starts nothing else when the
    thunk returns a promise. *)
Theorem falsy_concurrency_defaults_to_one (options : RateLimiterOptions) :
  opt_concurrency options = None \/ opt_concurrency options = Some 0 ->
  concurrency (constructor options) = 1
  /\ ((0 <? opt_maxRequests options) = true ->
      forall t, exists rest,
        snd (addTask t (constructor options)) = Started 0%nat :: rest
        /\ (execute t 0%nat = Returns -> rest = [])).
Proof.
  intros H.
  assert (C : concurrency (constructor options) = 1).
  { simpl. destruct H as [-> | ->]; reflexivity. }
  split; [exact C|].
  intros M t. unfold addTask. rewrite processQueue_eq.
  unfold has_headroom.
  cbn [queue activeTasks requestCount concurrency maxRequests
       with_queue with_nextHandle constructor app sort_queue fold_right
       insert_by_priority List.length].
  change (JS.or_default (opt_concurrency options) 1)
    with (concurrency (constructor options)).
  rewrite C, M. cbn [Z.of_nat Z.ltb Z.compare andb].
  unfold call_of. cbn [base retries Z.to_nat].
  destruct (execute t 0%nat) as [|error] eqn:Ex.
  - exists []. split; [reflexivity | reflexivity].
  - destruct (resume _ _ _) as [s' effs]. exists effs.
    split; [reflexivity | discriminate].
Qed.

Lemma falsy_concurrency_defaults_to_one_witness :
  concurrency (constructor (mkOptions 5 1000 (Some 0) None)) = 1
  /\ exists rest,
       snd (addTask (async "task1" None)
                    (constructor (mkOptions 5 1000 (Some 0) None)))
       = Started 0%nat :: rest
       /\ (execute (async "task1" None) 0%nat = Returns -> rest = []).
Proof.
  destruct (falsy_concurrency_defaults_to_one
              (mkOptions 5 1000 (Some 0) None)
              (or_intror eq_refl)) as [C L].
  split; [exact C|]. apply L. reflexivity.
Defined.

(** C1: with [retryLimit: 0] the constructor stores 3 ([0 || 3]); a task
    that fails is put back in the queue and executed again, and its future
    is rejected only after the fourth failure. *)
Theorem retryLimit_zero_is_retried :
  let s0 := constructor (mkOptions 10 1000 None (Some 0)) in
  let t := AddTask (async "t" None) in
  retryLimit s0 = 3
  /\ option_map snd (run s0 [t; Settle 0 (Thrown "e1")])
     = Some [Started 0%nat; Ended 0%nat (Thrown "e1"); Started 0%nat]
  /\ option_map snd
       (run s0 [t; Settle 0 (Thrown "e1"); Settle 0 (Thrown "e2");
                Settle 0 (Thrown "e3"); Settle 0 (Thrown "e4")])
     = Some [Started 0%nat; Ended 0%nat (Thrown "e1");
             Started 0%nat; Ended 0%nat (Thrown "e2");
             Started 0%nat; Ended 0%nat (Thrown "e3");
             Started 0%nat; Ended 0%nat (Thrown "e4");
             Rejected 0%nat "e4"].
Proof. repeat split; vm_compute; reflexivity. Qed.

(** ** The reset timer *)

Lemma step_timer s ev s' e :
  step s ev = Some (s', e) -> resetTimer s' = resetTimer s.
Proof. intros H. apply step_config in H. apply H. Qed.

(** C9, as stated, fails: no public method, called in any state where the
    timer is registered, leaves it unregistered. *)
Lemma no_public_method_stops_the_timer :
  ~ exists (m : PublicMethod) (s : AntiRateLimit),
      resetTimer s <> None /\ resetTimer (call m s) = None.
Proof.
  intros (m & s & Hs & Hc). destruct m as [t]. simpl in Hc.
  assert (E : step s (AddTask t) = Some (addTask t s)) by reflexivity.
  destruct (addTask t s) as [s' e] eqn:A. apply step_timer in E.
  simpl in Hc. congruence.
Qed.

(** C9 amended: the timer registered by the constructor stays registered,
    with the configured period, along every run: nothing in the class stops
    it. *)
Theorem timer_never_stopped (options : RateLimiterOptions)
    (evs : list Event) (s : AntiRateLimit) (log : list Effect) :
  run (constructor options) evs = Some (s, log) ->
  resetTimer s = Some (opt_interval options).
Proof.
  intros R. apply run_config in R. destruct R as (_ & _ & _ & _ & T).
  rewrite T. reflexivity.
Qed.

Lemma timer_never_stopped_witness :
  match run (constructor readme_options)
            [AddTask (async "a" None); Tick; Settle 0 (Fulfilled "v"); Tick]
  with
  | Some (s, _) => resetTimer s = Some 1000
  | None => False
  end.
Proof.
  destruct (run _ _) as [[s log]|] eqn:R.
  - exact (timer_never_stopped readme_options _ s log R).
  - vm_compute in R. discriminate R.
Defined.

(** ** Repeated activations of [processQueue] *)

Lemma dequeued_app e1 e2 : dequeued (e1 ++ e2) = dequeued e1 ++ dequeued e2.
Proof. apply flat_map_app. Qed.

Lemma rejected_app e1 e2 : rejected (e1 ++ e2) = rejected e1 ++ rejected e2.
Proof. apply flat_map_app. Qed.

Lemma processQueue_blocked s :
  has_headroom s = false -> processQueue s = (s, []).
Proof. intros G. rewrite processQueue_eq, G. reflexivity. Qed.

Lemma processQueue_once s s' e :
  processQueue s = (s', e) ->
  requestCount s' = requestCount s + Z.of_nat (List.length (dequeued e))
  /\ requestCount s' <= Z.max (requestCount s) (maxRequests s)
  /\ activeTasks s' <= Z.max (activeTasks s) (concurrency s)
  /\ (exists new,
         awaiting s' = awaiting s ++ new
         /\ activeTasks s' = activeTasks s + Z.of_nat (List.length new)
         /\ (has_headroom s' = false \/ (1 <= List.length new)%nat))
  /\ Permutation (handles s) (handles s' ++ rejected e).
Proof.
  revert s s' e. apply processQueue_rounds.
  - intros s G. simpl. rewrite app_nil_r.
    split; [lia|]. split; [lia|]. split; [lia|]. split; [|reflexivity].
    exists []. rewrite app_nil_r.
    split; [reflexivity|]. split; [simpl; lia | left; exact G].
  - intros s task rest G Q _. apply has_headroom_true in G. simpl.
    split; [lia|]. split; [lia|]. split; [lia|]. split.
    + exists [task]. split; [reflexivity|].
      split; [simpl; lia | right; simpl; lia].
    + unfold handles; simpl. rewrite Q, app_nil_r. apply Permutation_map.
      rewrite app_assoc. simpl. apply Permutation_cons_app.
      rewrite app_nil_r. reflexivity.
  - intros s task rest error s2 e2 s3 e3 s4 e4 G Q _ E2 E3 IH3 E4 IH4.
    pose proof (throw_state _ _ _ _ _ _ E2)
      as (M & _ & C & _ & _ & A & R & Aw & _ & Qs).
    set (s2' := with_activeTasks (activeTasks s2 - 1) s2) in *.
    destruct IH3 as (R3 & Rb3 & Ab3 & (new3 & W3 & A3 & D3) & P3).
    destruct IH4 as (R4 & Rb4 & Ab4 & (new4 & W4 & A4 & D4) & P4).
    pose proof (processQueue_config _ _ _ E3) as (M3 & _ & C3 & _).
    apply has_headroom_true in G.
    cbn [dequeued flat_map started_of app List.length].
    fold (dequeued (e2 ++ e3 ++ e4)). rewrite !dequeued_app, !length_app.
    assert (D2 : dequeued e2 = []).
    { destruct Qs as [(_ & _ & ->)|(_ & _ & ->)]; reflexivity. }
    rewrite D2. cbn [List.length].
    split; [lia|]. split; [lia|]. split; [lia|]. split.
    + exists (new3 ++ new4). rewrite W4, W3, Aw, <- app_assoc, length_app.
      split; [reflexivity|]. split; [lia|].
      destruct D4 as [D4|D4]; [left; exact D4 | right; lia].
    + cbn [rejected flat_map rejected_of app].
      fold (rejected (e2 ++ e3 ++ e4)). rewrite !rejected_app.
      assert (P2 : Permutation (handles s) (handles s2' ++ rejected e2)).
      { unfold handles. rewrite Q, Aw.
        destruct Qs as [(_ & -> & ->)|(_ & -> & ->)]; simpl.
        - rewrite app_nil_r, <- app_assoc, !map_app. simpl.
          apply Permutation_cons_app. reflexivity.
        - rewrite !map_app. apply Permutation_cons_app.
          rewrite <- app_assoc, app_nil_r. reflexivity. }
      rewrite P2, P3, P4. rewrite <- !app_assoc.
      apply Permutation_app_head.
      rewrite (Permutation_app_comm (rejected e4)).
      rewrite (Permutation_app_comm (rejected e3)).
      rewrite <- app_assoc. reflexivity.
Qed.

Lemma headroom_zero s : has_headroom s = false -> headroom s = 0%nat.
Proof.
  unfold has_headroom, headroom. intros H.
  apply andb_false_iff in H as [H|H]; [apply andb_false_iff in H as [H|H]|].
  - destruct (queue s); simpl in *; [reflexivity|discriminate].
  - apply Z.ltb_ge in H. lia.
  - apply Z.ltb_ge in H. lia.
Qed.

Lemma headroom_succ s task rest :
  has_headroom s = true -> queue s = task :: rest ->
  headroom s
  = S (headroom (with_awaiting (awaiting s ++ [task]) (start_task rest s))).
Proof.
  intros G Q. apply has_headroom_true in G. unfold headroom.
  cbn [queue concurrency activeTasks maxRequests requestCount
       with_awaiting start_task].
  rewrite Q. cbn [List.length]. lia.
Qed.

Lemma processQueue_times_blocked n s :
  has_headroom s = false -> processQueue_times n s = (s, []).
Proof.
  intros G. induction n as [|n IH]; [reflexivity|].
  cbn [processQueue_times]. rewrite (processQueue_blocked s G), IH.
  reflexivity.
Qed.

(** When the calls of the queued thunks all return, [n] activations take
    the first [min n headroom] tasks of the queue, in queue order. *)
Lemma processQueue_times_promises n :
  forall s,
    Forall (fun t => call_of t = Returns) (queue s) ->
    let k := Nat.min n (headroom s) in
    dequeued (snd (processQueue_times n s)) = map handle (firstn k (queue s))
    /\ queue (fst (processQueue_times n s)) = skipn k (queue s)
    /\ awaiting (fst (processQueue_times n s))
       = awaiting s ++ firstn k (queue s).
Proof.
  induction n as [|n IH]; intros s F; cbv zeta.
  - simpl. rewrite app_nil_r. repeat split.
  - destruct (has_headroom s) eqn:G.
    + cbn [processQueue_times]. rewrite processQueue_eq, G.
      destruct (queue s) as [|t r] eqn:Q.
      { apply has_headroom_queue in G as (t & r & Q'). congruence. }
      inversion F as [|? ? Ht Fr]; subst. rewrite Ht.
      rewrite (headroom_succ s t r G Q).
      specialize (IH (with_awaiting (awaiting s ++ [t]) (start_task r s)) Fr).
      cbv zeta in IH.
      destruct (processQueue_times n _) as [s2 e2]. cbn [fst snd] in *.
      cbn [queue awaiting with_awaiting start_task] in IH.
      destruct IH as (D & Hq & Hw).
      rewrite <- Nat.succ_min_distr. cbn [firstn skipn map].
      split; [simpl; rewrite D; reflexivity|].
      split; [exact Hq|]. rewrite Hw, <- app_assoc. reflexivity.
    + rewrite (processQueue_times_blocked (S n) s G), (headroom_zero s G).
      rewrite Nat.min_0_r. cbn [fst snd firstn skipn map app].
      rewrite app_nil_r. repeat split.
Qed.

(** C8 amended: [n] activations in a row dequeue only under the guard:
    [requestCount] rises by the number of tasks dequeued and, like
    [activeTasks], does not pass its bound; every task held before is
    afterwards still queued, in flight or rejected, none twice; each
    activation leaves no headroom or a task in flight that it started; and
    activations made without headroom change nothing.  When the calls of
    the queued thunks all return, the tasks dequeued are the first
    [min n headroom] tasks of the queue, in queue order. *)
Theorem processQueue_times_spec (n : nat) (s : AntiRateLimit) :
  let s' := fst (processQueue_times n s) in
  let effs := snd (processQueue_times n s) in
  requestCount s' = requestCount s + Z.of_nat (List.length (dequeued effs))
  /\ requestCount s' <= Z.max (requestCount s) (maxRequests s)
  /\ activeTasks s' <= Z.max (activeTasks s) (concurrency s)
  /\ (exists new,
         awaiting s' = awaiting s ++ new
         /\ activeTasks s' = activeTasks s + Z.of_nat (List.length new)
         /\ (has_headroom s' = false \/ (n <= List.length new)%nat))
  /\ Permutation (handles s) (handles s' ++ rejected effs)
  /\ (has_headroom s = true \/ processQueue_times n s = (s, []))
  /\ (Forall (fun t => call_of t = Returns) (queue s) ->
      let k := Nat.min n (headroom s) in
      dequeued effs = map handle (firstn k (queue s))
      /\ queue s' = skipn k (queue s)
      /\ awaiting s' = awaiting s ++ firstn k (queue s)).
Proof.
  cbv zeta. split; [|split; [|split; [|split; [|split; [|split]]]]];
    try exact (processQueue_times_promises n s);
    revert s; induction n as [|n IH]; intros s.
  - simpl. lia.
  - cbn [processQueue_times].
    destruct (processQueue s) as [s1 e1] eqn:E1.
    pose proof (processQueue_once _ _ _ E1) as (R1 & _).
    specialize (IH s1). destruct (processQueue_times n s1) as [s2 e2].
    cbn [fst snd] in *. rewrite dequeued_app, length_app. lia.
  - simpl. lia.
  - cbn [processQueue_times].
    destruct (processQueue s) as [s1 e1] eqn:E1.
    pose proof (processQueue_once _ _ _ E1) as (R1 & Rb1 & _).
    pose proof (processQueue_config _ _ _ E1) as (M1 & _).
    specialize (IH s1). destruct (processQueue_times n s1) as [s2 e2].
    cbn [fst snd] in *. lia.
  - simpl. lia.
  - cbn [processQueue_times].
    destruct (processQueue s) as [s1 e1] eqn:E1.
    pose proof (processQueue_once _ _ _ E1) as (_ & _ & Ab1 & _).
    pose proof (processQueue_config _ _ _ E1) as (_ & _ & C1 & _).
    specialize (IH s1). destruct (processQueue_times n s1) as [s2 e2].
    cbn [fst snd] in *. lia.
  - exists []. simpl. rewrite app_nil_r.
    split; [reflexivity|]. split; [lia | right; lia].
  - cbn [processQueue_times].
    destruct (processQueue s) as [s1 e1] eqn:E1.
    pose proof (processQueue_once _ _ _ E1)
      as (_ & _ & _ & (new1 & W1 & A1 & D1) & _).
    specialize (IH s1).
    pose proof (processQueue_times_blocked n s1) as Bl.
    destruct (processQueue_times n s1) as [s2 e2]. cbn [fst snd] in *.
    destruct IH as (new2 & W2 & A2 & D2).
    exists (new1 ++ new2). rewrite W2, W1, <- app_assoc, length_app.
    split; [reflexivity|]. split; [lia|].
    destruct D2 as [D2|D2]; [left; exact D2|].
    destruct D1 as [D1|D1]; [|right; lia].
    left. specialize (Bl D1). inversion Bl; subst. exact D1.
  - simpl. rewrite app_nil_r. reflexivity.
  - cbn [processQueue_times].
    destruct (processQueue s) as [s1 e1] eqn:E1.
    pose proof (processQueue_once _ _ _ E1) as (_ & _ & _ & _ & P1).
    specialize (IH s1). destruct (processQueue_times n s1) as [s2 e2].
    cbn [fst snd] in *. rewrite rejected_app, P1, IH.
    rewrite <- !app_assoc. apply Permutation_app_head.
    apply Permutation_app_comm.
  - right. reflexivity.
  - destruct (has_headroom s) eqn:G; [left; reflexivity | right].
    apply processQueue_times_blocked. exact G.
Qed.

(** C8, as stated, fails: after an exhausted window is reset with two tasks
    queued and two free slots, one activation dequeues one task and two
    activations dequeue two. *)
Lemma processQueue_not_idempotent :
  exists s,
    option_map fst
      (run (constructor (mkOptions 2 1000 (Some 2) None))
           [AddTask (async "a" None); AddTask (async "b" None);
            AddTask (async "c" None); AddTask (async "d" None);
            Settle 0 (Fulfilled "x"); Settle 1 (Fulfilled "y")])
    = Some s
    /\ dequeued (snd (processQueue_times 1 (with_requestCount 0 s)))
       = [2%nat]
    /\ dequeued (snd (processQueue_times 2 (with_requestCount 0 s)))
       = [2%nat; 3%nat].
Proof.
  eexists. split; [vm_compute; reflexivity|].
  split; vm_compute; reflexivity.
Qed.

(** ** The queue order kept by [addTask] *)

Lemma insert_by_priority_perm x l :
  Permutation (insert_by_priority x l) (x :: l).
Proof.
  induction l as [|y l IH]; simpl; [reflexivity|].
  destruct (prio y <=? prio x); [reflexivity|].
  rewrite IH. apply perm_swap.
Qed.

Lemma sort_queue_perm l : Permutation (sort_queue l) l.
Proof.
  induction l as [|x l IH]; simpl; [reflexivity|].
  rewrite insert_by_priority_perm. constructor. exact IH.
Qed.

Lemma insert_by_priority_sorted x l :
  queue_sorted l -> queue_sorted (insert_by_priority x l).
Proof.
  unfold queue_sorted. induction 1 as [|y l S IH F]; simpl.
  - constructor; constructor.
  - destruct (prio y <=? prio x) eqn:C.
    + apply Z.leb_le in C. constructor; [constructor; assumption|].
      constructor; [exact C|].
      eapply Forall_impl; [|exact F]. unfold by_priority. intros; lia.
    + apply Z.leb_gt in C. constructor; [exact IH|].
      eapply Permutation_Forall;
        [symmetry; apply insert_by_priority_perm|].
      constructor; [unfold by_priority; lia | exact F].
Qed.

Lemma sort_queue_sorted l : queue_sorted (sort_queue l).
Proof.
  induction l as [|x l IH]; simpl; [constructor|].
  apply insert_by_priority_sorted. exact IH.
Qed.

(** Stability: the tasks of one priority keep their relative order. *)
Lemma insert_by_priority_band p x l :
  filter (fun t => prio t =? p) (insert_by_priority x l)
  = filter (fun t => prio t =? p) (x :: l).
Proof.
  induction l as [|y l IH]; [reflexivity|].
  cbn [insert_by_priority]. destruct (prio y <=? prio x) eqn:C;
    [reflexivity|].
  apply Z.leb_gt in C. cbn [filter] in *. rewrite IH.
  destruct (prio x =? p) eqn:X; destruct (prio y =? p) eqn:Y;
    try reflexivity.
  apply Z.eqb_eq in X, Y. lia.
Qed.

Lemma sort_queue_stable p l :
  filter (fun t => prio t =? p) (sort_queue l)
  = filter (fun t => prio t =? p) l.
Proof.
  induction l as [|x l IH]; [reflexivity|].
  cbn [sort_queue fold_right]. rewrite insert_by_priority_band.
  cbn [filter]. fold (sort_queue l). rewrite IH. reflexivity.
Qed.

Lemma sort_queue_id l : queue_sorted l -> sort_queue l = l.
Proof.
  unfold queue_sorted. induction 1 as [|y l S IH F]; [reflexivity|].
  cbn [sort_queue fold_right]. fold (sort_queue l). rewrite IH.
  destruct l as [|z l]; [reflexivity|]. cbn [insert_by_priority].
  inversion F as [|? ? Hz _]; subst. unfold by_priority in Hz.
  destruct (prio z <=? prio y) eqn:C; [reflexivity|].
  apply Z.leb_gt in C. lia.
Qed.

(** The head of a sorted queue has the largest priority of the queue. *)
Lemma queue_sorted_head t rest :
  queue_sorted (t :: rest) -> forall u, In u rest -> prio u <= prio t.
Proof.
  intros S u Hu. inversion S as [|? ? _ F]; subst.
  rewrite Forall_forall in F. apply F. exact Hu.
Qed.

Lemma no_failure_app e1 e2 :
  no_failure (e1 ++ e2) = no_failure e1 && no_failure e2.
Proof. apply forallb_app. Qed.

Lemma processQueue_keeps_sorted s s' e :
  processQueue s = (s', e) ->
  no_failure e = true ->
  queue_sorted (queue s) -> queue_sorted (queue s').
Proof.
  revert s s' e.
  apply (processQueue_rounds
           (fun s s' e => no_failure e = true ->
                          queue_sorted (queue s) -> queue_sorted (queue s'))).
  - intros s _ _ S. exact S.
  - intros s task rest _ Q _ _ S. simpl. rewrite Q in S.
    inversion S; assumption.
  - intros. discriminate.
Qed.

(** After [addTask] the queue is in priority order, whatever it was, unless
    a thunk threw during the call. *)
Lemma addTask_queue_sorted t s :
  no_failure (snd (addTask t s)) = true ->
  queue_sorted (queue (fst (addTask t s))).
Proof.
  unfold addTask. destruct (processQueue _) as [s' e] eqn:E. simpl.
  intros NF. apply (processQueue_keeps_sorted _ _ _ E NF). simpl.
  apply sort_queue_sorted.
Qed.

(** On a sorted queue an admission takes a task no other queued task
    beats on priority. *)
Lemma admission_from_sorted_queue s h :
  queue_sorted (queue s) ->
  snd (processQueue s) = [Started h] ->
  exists t rest, queue s = t :: rest /\ handle t = h
                 /\ forall u, In u rest -> prio u <= prio t.
Proof.
  intros S. rewrite processQueue_eq.
  destruct (has_headroom s); [|discriminate].
  destruct (queue s) as [|t r] eqn:Q; [discriminate|].
  destruct (call_of t).
  - simpl. intros H; inversion H; subst. exists t, r.
    repeat split. apply queue_sorted_head. exact S.
  - unfold resume.
    destruct (settle_task _ _ _) as [s1 e1].
    destruct (processQueue _) as [s3 e3].
    destruct (processQueue s3) as [s4 e4]. simpl. discriminate.
Qed.

(** As long as no execution fails the queue stays in priority order, so
    every admission takes a task of largest priority, the oldest of them. *)
Lemma step_keeps_sorted s ev s' effs :
  no_failure effs = true -> queue_sorted (queue s) ->
  step s ev = Some (s', effs) -> queue_sorted (queue s').
Proof.
  intros NF S. destruct ev as [t| |h o]; simpl.
  - intros H; inversion H as [H1].
    pose proof (addTask_queue_sorted t s) as A. rewrite H1 in A.
    apply A. exact NF.
  - destruct (resetTimer s); [|discriminate]. unfold tick.
    destruct (processQueue _) as [s1 e1] eqn:E1.
    intros H; inversion H; subst. simpl in NF.
    apply (processQueue_keeps_sorted _ _ _ E1 NF S).
  - destruct (lookup h (awaiting s)) as [task|]; [|discriminate].
    unfold resume.
    destruct (settle_task _ _ _) as [s1 e1] eqn:E1.
    destruct (processQueue (with_activeTasks _ _)) as [s3 e3] eqn:E3.
    destruct (processQueue s3) as [s4 e4] eqn:E4.
    intros H; inversion H; subst. cbn [no_failure forallb] in NF.
    fold (no_failure (e1 ++ e3 ++ e4)) in NF.
    apply andb_prop in NF as [NFo NF].
    rewrite !no_failure_app in NF.
    apply andb_prop in NF as [_ NF]. apply andb_prop in NF as [NF3 NF4].
    destruct o as [v|e]; [|discriminate]. simpl in E1.
    inversion E1; subst.
    apply (processQueue_keeps_sorted _ _ _ E4 NF4).
    apply (processQueue_keeps_sorted _ _ _ E3 NF3). exact S.
Qed.

Lemma run_keeps_sorted options evs s log :
  run (constructor options) evs = Some (s, log) ->
  no_failure log = true ->
  queue_sorted (queue s).
Proof.
  revert evs s log.
  apply (run_invariant
           (fun _ s log => no_failure log = true -> queue_sorted (queue s))).
  - intros evs1 s1 log1 ev s' effs IH E NF.
    rewrite no_failure_app in NF. apply andb_prop in NF as [NF1 NF2].
    eapply step_keeps_sorted; eauto.
  - intros _. constructor.
Qed.

(** ** Retried tasks and the queue order *)

(** C2: a task of priority 10 fails while a task of priority 1 waits.  The
    retry is pushed behind the waiting task and the queue is not sorted
    again: the next admission, made in the same turn, takes the task of
    priority 1.  A fresh submission of the same task would have been sorted
    to the head. *)
Theorem retry_is_pushed_behind_lower_priority :
  let s0 := constructor (mkOptions 10 1000 None None) in
  let high := async "high" (Some 10) in
  let low := async "low" (Some 1) in
  let retried := mkInternal 0 high 1 in
  exists s,
    option_map fst (run s0 [AddTask high; AddTask low]) = Some s
    /\ queue s = [mkInternal 1 low 0] /\ awaiting s = [mkInternal 0 high 0]
    /\ queue (fst (settle_task (mkInternal 0 high 0) (Thrown "boom")
                     (with_awaiting [] s)))
       = [mkInternal 1 low 0; retried]
    /\ sort_queue (queue s ++ [retried]) = [retried; mkInternal 1 low 0]
    /\ option_map snd (step s (Settle 0 (Thrown "boom")))
       = Some [Ended 0%nat (Thrown "boom"); Started 1%nat]
    /\ option_map (fun r => queue (fst r)) (step s (Settle 0 (Thrown "boom")))
       = Some [retried].
Proof.
  eexists. split; [vm_compute; reflexivity|].
  repeat split; vm_compute; reflexivity.
Qed.

(** C4: three tasks of priorities 5, 1 and 3; the first one runs, fails and
    is retried.  At the admission that follows, the task taken has priority
    3 although the retried task of priority 5 is in the queue, and at the
    next one the task of priority 1 is taken before it as well. *)
Theorem admission_not_maximal_after_retry :
  let s0 := constructor (mkOptions 10 1000 None None) in
  let a := async "a" (Some 5) in
  let b := async "b" (Some 1) in
  let c := async "c" (Some 3) in
  option_map snd
    (run s0 [AddTask a; AddTask b; AddTask c; Settle 0 (Thrown "boom")])
  = Some [Started 0%nat; Ended 0%nat (Thrown "boom"); Started 2%nat]
  /\ option_map (fun r => map (fun t => (handle t, prio t)) (queue (fst r)))
       (run s0 [AddTask a; AddTask b; AddTask c; Settle 0 (Thrown "boom")])
     = Some [(1%nat, 1); (0%nat, 5)]
  /\ option_map snd
       (run s0 [AddTask a; AddTask b; AddTask c; Settle 0 (Thrown "boom");
                Settle 2 (Fulfilled "v")])
     = Some [Started 0%nat; Ended 0%nat (Thrown "boom"); Started 2%nat;
             Ended 2%nat (Fulfilled "v"); Resolved 2%nat "v";
             Started 1%nat].
Proof. repeat split; vm_compute; reflexivity. Qed.

(** ** Looking tasks up by handle *)

Lemma lookup_app h l1 l2 :
  lookup h (l1 ++ l2) =
  match lookup h l1 with Some t => Some t | None => lookup h l2 end.
Proof.
  unfold lookup. induction l1 as [|x l1 IH]; simpl; [reflexivity|].
  destruct (has_handle h x); [reflexivity | exact IH].
Qed.

Lemma lookup_cons h x l :
  lookup h (x :: l) = if Nat.eqb (handle x) h then Some x else lookup h l.
Proof. reflexivity. Qed.

Lemma lookup_In h l t : lookup h l = Some t -> In t l /\ handle t = h.
Proof.
  intros H. split; [|eapply lookup_handle; eauto].
  unfold lookup in H. apply find_some in H. apply H.
Qed.

Lemma lookup_None h l : lookup h l = None <-> ~ In h (map handle l).
Proof.
  unfold lookup. split.
  - intros H Hin. apply in_map_iff in Hin as (t & Ht & Hin).
    apply (find_none _ _ H) in Hin. unfold has_handle in Hin.
    rewrite Ht, Nat.eqb_refl in Hin. discriminate.
  - intros H. destruct (find (has_handle h) l) as [t|] eqn:F; [|reflexivity].
    exfalso. apply H. apply find_some in F as [Hin Hh].
    apply Nat.eqb_eq in Hh. rewrite <- Hh. apply in_map. exact Hin.
Qed.

Lemma NoDup_handle_inj l t t' :
  NoDup (map handle l) -> In t l -> In t' l -> handle t = handle t' -> t = t'.
Proof.
  induction l as [|x l IH]; simpl; [contradiction|].
  intros N [->|Ht] [->|Ht'] E; inversion N as [|? ? Nx Nl]; subst.
  - reflexivity.
  - exfalso. apply Nx. rewrite E. apply in_map. exact Ht'.
  - exfalso. apply Nx. rewrite <- E. apply in_map. exact Ht.
  - apply IH; assumption.
Qed.

Lemma lookup_found h l t :
  NoDup (map handle l) -> In t l -> handle t = h -> lookup h l = Some t.
Proof.
  intros N Hin Hh. destruct (lookup h l) as [t'|] eqn:L.
  - apply lookup_In in L as [Hin' Hh']. f_equal.
    eapply NoDup_handle_inj; eauto. congruence.
  - exfalso. apply lookup_None in L. apply L. rewrite <- Hh.
    apply in_map. exact Hin.
Qed.

Lemma lookup_perm h l l' :
  NoDup (map handle l) -> Permutation l l' -> lookup h l = lookup h l'.
Proof.
  intros N P.
  assert (N' : NoDup (map handle l')).
  { eapply Permutation_NoDup; [|exact N]. apply Permutation_map. exact P. }
  destruct (lookup h l) as [t|] eqn:L.
  - apply lookup_In in L as [Hin Hh]. symmetry. apply lookup_found; auto.
    eapply Permutation_in; eauto.
  - symmetry. apply lookup_None. apply lookup_None in L. intros Hin.
    apply L. eapply Permutation_in; [|exact Hin].
    apply Permutation_map. symmetry. exact P.
Qed.

Lemma lookup_drop_other h h0 l :
  h <> h0 -> lookup h (drop_handle h0 l) = lookup h l.
Proof.
  intros Hn. unfold lookup. induction l as [|x l IH]; simpl; [reflexivity|].
  destruct (has_handle h0 x) eqn:X; simpl.
  - unfold has_handle in *. apply Nat.eqb_eq in X.
    destruct (Nat.eqb_spec (handle x) h); [congruence | reflexivity].
  - rewrite IH. reflexivity.
Qed.

Lemma drop_handle_incl h0 l t : In t (drop_handle h0 l) -> In t l.
Proof.
  induction l as [|x l IH]; simpl; [contradiction|].
  destruct (has_handle h0 x); simpl; intuition.
Qed.

Lemma drop_handle_perm h0 l t :
  lookup h0 l = Some t -> Permutation l (t :: drop_handle h0 l).
Proof.
  unfold lookup. induction l as [|x l IH]; simpl; [discriminate|].
  destruct (has_handle h0 x).
  - intros H; inversion H; subst. reflexivity.
  - intros H. rewrite (IH H) at 1. apply perm_swap.
Qed.

Lemma lookup_absent_Done s h :
  lookup h (awaiting s) = None -> lookup h (queue s) = None ->
  (h < nextHandle s)%nat -> phase s h = Done.
Proof.
  intros A Q B. unfold phase. rewrite A, Q.
  apply Nat.ltb_lt in B. rewrite B. reflexivity.
Qed.

(** ** One turn, seen from one task *)

Lemma attempts_app h e1 e2 :
  attempts h (e1 ++ e2) = (attempts h e1 + attempts h e2)%nat.
Proof. unfold attempts. rewrite filter_app, length_app. reflexivity. Qed.

Lemma finals_app h e1 e2 : finals h (e1 ++ e2) = finals h e1 ++ finals h e2.
Proof. unfold finals. apply filter_app. Qed.

Lemma outcomes_app h e1 e2 :
  outcomes h (e1 ++ e2) = outcomes h e1 ++ outcomes h e2.
Proof. unfold outcomes. apply flat_map_app. Qed.

Lemma well_formed_perm s s' :
  Permutation (handles s) (handles s') -> nextHandle s' = nextHandle s ->
  well_formed s -> well_formed s'.
Proof.
  intros P E [N B]. unfold well_formed. rewrite E. split.
  - eapply Permutation_NoDup; eauto.
  - eapply Permutation_Forall; eauto.
Qed.

Lemma well_formed_lookup s h :
  well_formed s ->
  (forall t, lookup h (queue s) = Some t -> lookup h (awaiting s) = None)
  /\ NoDup (map handle (queue s)) /\ NoDup (map handle (awaiting s))
  /\ ((nextHandle s <= h)%nat ->
      lookup h (queue s) = None /\ lookup h (awaiting s) = None).
Proof.
  intros [N B]. unfold handles in *. rewrite map_app in N, B.
  split; [|split; [|split]].
  - intros t L. apply lookup_In in L as [Hin Hh]. apply lookup_None.
    intros Ha. revert N. generalize (map handle (awaiting s)) Ha.
    assert (Hq : In h (map handle (queue s)))
      by (rewrite <- Hh; apply in_map; exact Hin).
    revert Hq. generalize (map handle (queue s)). clear.
    induction l as [|x l IH]; simpl; [contradiction|].
    intros [->|Hq] l' Ha N; inversion N as [|? ? Nx Nl]; subst.
    + apply Nx. apply in_or_app. right. exact Ha.
    + eapply IH; eauto.
  - eapply NoDup_app_remove_r; eauto.
  - eapply NoDup_app_remove_l; eauto.
  - intros Hle. rewrite Forall_forall in B.
    split; apply lookup_None; intros Hin;
      assert (Hlt : (h < nextHandle s)%nat)
        by (apply B; apply in_or_app; auto); lia.
Qed.

Lemma phase_Fresh s h :
  well_formed s -> (nextHandle s <= h)%nat -> phase s h = Fresh.
Proof.
  intros W Hle. destruct (well_formed_lookup s h W) as (_ & _ & _ & F).
  destruct (F Hle) as [Q A]. unfold phase. rewrite A, Q.
  destruct (Nat.ltb_spec h (nextHandle s)); [lia | reflexivity].
Qed.

Lemma admits_trans s s1 s2 e1 e2 h :
  admits s s1 e1 h -> admits s1 s2 e2 h -> admits s s2 (e1 ++ e2) h.
Proof.
  intros [F1 H1] [F2 H2]. unfold admits.
  rewrite finals_app, attempts_app, F1, F2. split; [reflexivity|].
  destruct H1 as [[P1 A1]|(r1 & P1 & P1' & A1)];
    destruct H2 as [[P2 A2]|(r2 & P2 & P2' & A2)]; rewrite A1, A2.
  - left. split; [congruence | reflexivity].
  - right. exists r2. repeat split; congruence.
  - right. exists r1. repeat split; congruence.
  - congruence.
Qed.

Lemma handles_drop s h0 task :
  lookup h0 (awaiting s) = Some task ->
  Permutation (handles s)
    (h0 :: handles (with_awaiting (drop_handle h0 (awaiting s)) s)).
Proof.
  intros L. unfold handles; simpl.
  pose proof (lookup_handle _ _ _ L) as Hh.
  apply drop_handle_perm in L. rewrite <- Hh.
  change (handle task :: map handle (queue s ++ drop_handle (handle task) (awaiting s)))
    with (map handle (task :: queue s ++ drop_handle (handle task) (awaiting s))).
  apply Permutation_map. rewrite Hh in *.
  rewrite L at 1. symmetry. apply Permutation_middle.
Qed.

Lemma not_in_handles s h :
  ~ In h (handles s) ->
  lookup h (queue s) = None /\ lookup h (awaiting s) = None.
Proof.
  unfold handles. rewrite map_app. intros H.
  split; apply lookup_None; intros Hin; apply H; apply in_or_app; auto.
Qed.


Lemma task_moves_one limit h p o k f p' :
  task_move limit h p o k f p' -> task_moves limit h p o k f p'.
Proof.
  intros M. rewrite <- (app_nil_r o), <- (app_nil_r f), <- (Nat.add_0_r k).
  econstructor; [exact M | constructor].
Qed.

Lemma task_moves_app limit h p o k f p' o' k' f' p'' :
  task_moves limit h p o k f p' ->
  task_moves limit h p' o' k' f' p'' ->
  task_moves limit h p (o ++ o') (k + k') (f ++ f') p''.
Proof.
  intros M1 M2. induction M1 as [p|p o1 k1 f1 q o2 k2 f2 q' M Ms IH].
  - exact M2.
  - rewrite <- !app_assoc, <- Nat.add_assoc. econstructor; [exact M|].
    apply IH. exact M2.
Qed.

Lemma settle_task_effects task o s s' e h :
  settle_task task o s = (s', e) ->
  attempts h e = 0%nat /\ outcomes h e = []
  /\ (h <> handle task -> finals h e = []).
Proof.
  unfold settle_task. destruct o; [|destruct (retries task <? retryLimit s)];
    intros H; inversion H; subst; repeat split; intros Hn;
    unfold finals; simpl;
    destruct (Nat.eqb_spec (handle task) h); congruence.
Qed.

(** The [try]/[catch] applied to a task that is in neither list. *)
Lemma settle_task_phases sa task o s1 e1 :
  well_formed sa ->
  ~ In (handle task) (handles sa) ->
  (handle task < nextHandle sa)%nat ->
  settle_task task o sa = (s1, e1) ->
  well_formed s1
  /\ (forall h, h <> handle task -> phase s1 h = phase sa h)
  /\ match o with
     | Fulfilled v =>
         phase s1 (handle task) = Done
         /\ finals (handle task) e1 = [Resolved (handle task) v]
     | Thrown e =>
         if retries task <? retryLimit sa
         then phase s1 (handle task) = Queued (retries task + 1)
              /\ finals (handle task) e1 = []
         else phase s1 (handle task) = Done
              /\ finals (handle task) e1 = [Rejected (handle task) e]
     end.
Proof.
  intros Wa Nh Bh E.
  destruct (not_in_handles sa _ Nh) as [Lq La].
  assert (Pa0 : phase sa (handle task) = Done)
    by (apply lookup_absent_Done; assumption).
  unfold settle_task in E. destruct o as [v|e].
  - inversion E; subst; clear E.
    split; [exact Wa|]. split; [reflexivity|].
    split; [exact Pa0|]. unfold finals; simpl.
    rewrite Nat.eqb_refl. reflexivity.
  - destruct (retries task <? retryLimit sa) eqn:C;
      inversion E; subst; clear E.
    + assert (Ph : forall h,
                 phase (with_queue
                          (queue sa ++ [mkInternal (handle task) (base task)
                                                   (retries task + 1)]) sa) h
                 = if Nat.eqb (handle task) h
                   then Queued (retries task + 1) else phase sa h).
      { intros h. unfold phase. cbn [with_queue awaiting queue nextHandle].
        rewrite lookup_app, lookup_cons. cbn [handle retries lookup find].
        destruct (Nat.eqb_spec (handle task) h) as [<-|Hn].
        - rewrite La, Lq. reflexivity.
        - destruct (lookup h (awaiting sa)); [reflexivity|].
          destruct (lookup h (queue sa)); reflexivity. }
      split; [|split].
      * destruct Wa as [N B]. split.
        -- eapply Permutation_NoDup;
             [|apply (NoDup_cons (handle task) Nh N)].
           unfold handles. cbn [with_queue queue awaiting].
           rewrite <- app_assoc, !map_app. cbn [map app handle].
           apply Permutation_middle.
        -- eapply Permutation_Forall;
             [|apply (Forall_cons (handle task) Bh B)].
           unfold handles. cbn [with_queue queue awaiting].
           rewrite <- app_assoc, !map_app. cbn [map app handle].
           apply Permutation_middle.
      * intros h Hn. rewrite Ph.
        destruct (Nat.eqb_spec (handle task) h); [congruence | reflexivity].
      * rewrite Ph, Nat.eqb_refl. split; reflexivity.
    + split; [exact Wa|]. split; [reflexivity|].
      split; [exact Pa0|]. unfold finals; simpl.
      rewrite Nat.eqb_refl. reflexivity.
Qed.

(** A task leaves the waiting activations. *)
Lemma leave_awaiting s h0 task :
  well_formed s -> lookup h0 (awaiting s) = Some task ->
  let sa := with_awaiting (drop_handle h0 (awaiting s)) s in
  well_formed sa /\ ~ In (handle task) (handles sa)
  /\ (handle task < nextHandle sa)%nat
  /\ (forall h, h <> handle task -> phase sa h = phase s h)
  /\ phase s (handle task) = Running (retries task).
Proof.
  intros W L sa.
  pose proof (lookup_handle _ _ _ L) as Hh.
  pose proof (handles_drop s h0 task L) as P. fold sa in P.
  assert (Wc : NoDup (h0 :: handles sa)
               /\ Forall (fun h => (h < nextHandle s)%nat) (h0 :: handles sa)).
  { destruct W as [N B]. split.
    - eapply Permutation_NoDup; eauto.
    - eapply Permutation_Forall; eauto. }
  destruct Wc as [N B]. subst h0.
  inversion N as [|? ? Nh Na]; subst. inversion B as [|? ? Bh Ba]; subst.
  split; [split; assumption|]. split; [exact Nh|]. split; [exact Bh|].
  split.
  - intros h Hn. unfold phase, sa; simpl.
    rewrite lookup_drop_other by exact Hn. reflexivity.
  - unfold phase. rewrite L. reflexivity.
Qed.

(** A task leaves the head of the queue. *)
Lemma leave_queue s task rest :
  well_formed s -> queue s = task :: rest ->
  let sa := start_task rest s in
  well_formed sa /\ ~ In (handle task) (handles sa)
  /\ (handle task < nextHandle sa)%nat
  /\ (forall h, h <> handle task -> phase sa h = phase s h)
  /\ phase s (handle task) = Queued (retries task).
Proof.
  intros [N B] Q sa. unfold handles in N, B. rewrite Q in N, B.
  cbn [app map] in N, B.
  inversion N as [|? ? Nh Na]; subst. inversion B as [|? ? Bh Ba]; subst.
  split; [split; assumption|]. split; [exact Nh|]. split; [exact Bh|].
  destruct (not_in_handles sa _ Nh) as [Lq La].
  cbn [sa start_task queue awaiting] in Lq, La.
  split.
  - intros h Hn. unfold phase, sa. cbn [start_task queue awaiting nextHandle].
    rewrite Q, lookup_cons.
    destruct (Nat.eqb_spec (handle task) h); [congruence | reflexivity].
  - unfold phase. rewrite La, Q, lookup_cons, Nat.eqb_refl. reflexivity.
Qed.

Lemma admits_idle limit s s' e h :
  admits s s' e h -> outcomes h e = [] ->
  task_moves limit h (phase s h) (outcomes h e) (attempts h e) (finals h e)
             (phase s' h).
Proof.
  intros [F [[P A]|(r & P & P' & A)]] O; rewrite F, A, O.
  - rewrite P. constructor.
  - rewrite P, P'. apply task_moves_one. constructor.
Qed.

Lemma same_thunks_refl s h : same_thunks s s h.
Proof. intros t Hin Hh. exists t. auto. Qed.

Lemma same_thunks_trans s1 s2 s3 h :
  same_thunks s1 s2 h -> same_thunks s2 s3 h -> same_thunks s1 s3 h.
Proof.
  intros T12 T23 t3 Hin Hh.
  destruct (T23 t3 Hin Hh) as (t2 & Hin2 & Hh2 & Hb2).
  destruct (T12 t2 Hin2 Hh2) as (t1 & Hin1 & Hh1 & Hb1).
  exists t1. repeat split; congruence || assumption.
Qed.

Lemma own_throws_mono s s' e h :
  same_thunks s s' h -> own_throws s' e h -> own_throws s e h.
Proof.
  intros T O o Ho. destruct (O o Ho) as (t' & k & err & Hin & Hh & Hx & ->).
  destruct (T t' Hin Hh) as (t & Hin0 & Hh0 & Hb0).
  exists t, k, err. rewrite Hb0. auto.
Qed.

Lemma own_throws_app s e1 e2 h :
  own_throws s e1 h -> own_throws s e2 h -> own_throws s (e1 ++ e2) h.
Proof.
  intros O1 O2 o Ho. rewrite outcomes_app in Ho.
  apply in_app_or in Ho as [Ho|Ho]; auto.
Qed.

Lemma own_throws_none s e h : outcomes h e = [] -> own_throws s e h.
Proof. intros O o Ho. rewrite O in Ho. contradiction. Qed.

(** A call that throws: the task goes from the head of the queue to its
    tail, or out. *)
Lemma throw_moves s task rest error s2 e2 :
  well_formed s -> queue s = task :: rest ->
  call_of task = Throws error ->
  settle_task task (Thrown error) (start_task rest s) = (s2, e2) ->
  let s2' := with_activeTasks (activeTasks s2 - 1) s2 in
  let e0 := Started (handle task) :: Ended (handle task) (Thrown error) :: e2 in
  well_formed s2'
  /\ forall h,
       task_moves (retryLimit s) h (phase s h) (outcomes h e0) (attempts h e0)
                  (finals h e0) (phase s2' h)
       /\ same_thunks s s2' h
       /\ own_throws s e0 h
       /\ (h <> handle task ->
           phase s2' h = phase s h /\ outcomes h e0 = []
           /\ attempts h e0 = 0%nat /\ finals h e0 = []).
Proof.
  intros W Q C E2 s2' e0.
  destruct (leave_queue s task rest W Q) as (Wa & Nh & Bh & Pa & P0).
  destruct (settle_task_phases _ _ _ _ _ Wa Nh Bh E2) as (W2 & P2 & Own).
  split; [exact W2|]. intros h.
  pose proof (settle_task_effects _ _ _ _ _ h E2) as (A2 & O2 & F2).
  assert (Eo : outcomes h e0 = outcome_of h (Ended (handle task) (Thrown error))).
  { unfold e0, outcomes. cbn [flat_map outcome_of app].
    fold (outcomes h e2). rewrite O2, app_nil_r. reflexivity. }
  assert (Ea : attempts h e0
               = if Nat.eqb (handle task) h then 1%nat else 0%nat).
  { unfold e0, attempts. cbn [filter is_start].
    fold (attempts h e2).
    destruct (Nat.eqb (handle task) h); cbn [List.length];
      unfold attempts in A2; rewrite A2; reflexivity. }
  assert (Ef : finals h e0 = finals h e2) by reflexivity.
  assert (T : same_thunks s s2' h).
  { intros t' Hin Hh. unfold s2' in Hin. cbn [with_activeTasks queue] in Hin.
    unfold settle_task in E2. cbn [retryLimit start_task] in E2.
    destruct (retries task <? retryLimit s); inversion E2; subst; clear E2;
      cbn [queue with_queue start_task] in Hin.
    - apply in_app_or in Hin as [Hin|[<-|[]]].
      + exists t'. rewrite Q. split; [right; exact Hin|].
        split; [first [exact Hh | reflexivity] | reflexivity].
      + exists task. rewrite Q. split; [left; reflexivity|].
        split; [first [exact Hh | reflexivity] | reflexivity].
    - exists t'. rewrite Q. split; [right; exact Hin|].
      split; [first [exact Hh | reflexivity] | reflexivity]. }
  destruct (Nat.eqb_spec (handle task) h) as [<-|Hn].
  - split; [|split; [exact T|split]].
    + rewrite Eo, Ea, Ef, P0. cbn [outcome_of]. rewrite Nat.eqb_refl.
      change (phase s2' (handle task)) with (phase s2 (handle task)).
      cbn [retryLimit start_task] in Own.
      destruct (Z.ltb_spec (retries task) (retryLimit s));
        destruct Own as [-> ->]; apply task_moves_one; constructor; lia.
    + intros o Ho. rewrite Eo in Ho. cbn [outcome_of] in Ho.
      rewrite Nat.eqb_refl in Ho. destruct Ho as [<-|[]].
      exists task, (Z.to_nat (retries task)), error.
      rewrite Q. repeat split; [left; reflexivity | exact C].
    + intros Hn. congruence.
  - assert (Eo' : outcomes h e0 = []).
    { rewrite Eo. cbn [outcome_of].
      destruct (Nat.eqb_spec (handle task) h); [congruence | reflexivity]. }
    assert (Ph : phase s2' h = phase s h).
    { change (phase s2' h) with (phase s2 h).
      rewrite (P2 h (not_eq_sym Hn)). apply Pa. congruence. }
    assert (Ff : finals h e0 = []) by (rewrite Ef; apply F2; congruence).
    split; [|split; [exact T|split]].
    + rewrite Eo', Ea, Ff, Ph. constructor.
    + apply own_throws_none. exact Eo'.
    + intros _. repeat split; assumption.
Qed.

(** One activation of [processQueue], task by task. *)
Lemma processQueue_moves s s' e :
  processQueue s = (s', e) ->
  well_formed s ->
  well_formed s'
  /\ forall h,
       task_moves (retryLimit s) h (phase s h) (outcomes h e) (attempts h e)
                  (finals h e) (phase s' h)
       /\ same_thunks s s' h
       /\ own_throws s e h
       /\ (outcomes h e = [] -> admits s s' e h).
Proof.
  revert s s' e.
  apply (processQueue_rounds
           (fun s s' e =>
              well_formed s ->
              well_formed s'
              /\ forall h,
                   task_moves (retryLimit s) h (phase s h) (outcomes h e)
                              (attempts h e) (finals h e) (phase s' h)
                   /\ same_thunks s s' h
                   /\ own_throws s e h
                   /\ (outcomes h e = [] -> admits s s' e h))).
  - intros s _ W. split; [exact W|]. intros h.
    split; [constructor|]. split; [apply same_thunks_refl|].
    split; [apply own_throws_none; reflexivity|].
    intros _. split; [reflexivity|]. left. split; reflexivity.
  - intros s task rest _ Q _ W.
    assert (W' : well_formed (with_awaiting (awaiting s ++ [task])
                                            (start_task rest s))).
    { eapply well_formed_perm; [| |exact W]; [|reflexivity].
      unfold handles; simpl. rewrite Q. apply Permutation_map.
      rewrite app_assoc. simpl. apply Permutation_cons_app.
      rewrite app_nil_r. reflexivity. }
    split; [exact W'|]. intros h.
    assert (A : admits s (with_awaiting (awaiting s ++ [task]) (start_task rest s))
                       [Started (handle task)] h).
    { destruct (well_formed_lookup s h W) as (X & _).
      unfold admits. split; [reflexivity|].
      unfold phase, attempts.
      cbn [awaiting queue nextHandle filter is_start with_awaiting start_task].
      rewrite lookup_app. rewrite Q in X |- *. rewrite !lookup_cons.
      rewrite lookup_cons in X. cbn [lookup find].
      destruct (Nat.eqb_spec (handle task) h) as [Eh|Nh].
      + right. rewrite (X task eq_refl). exists (retries task).
        repeat split.
      + left. split; [|reflexivity].
        destruct (lookup h (awaiting s)); reflexivity. }
    split; [apply admits_idle; [exact A | reflexivity]|].
    split; [|split; [apply own_throws_none; reflexivity | intros _; exact A]].
    intros t' Hin Hh. exists t'. rewrite Q.
    repeat split; [right; exact Hin | exact Hh].
  - intros s task rest error s2 e2 s3 e3 s4 e4 _ Q C E2 E3 IH3 E4 IH4 W.
    destruct (throw_moves s task rest error s2 e2 W Q C E2) as [W2 M0].
    pose proof (throw_state _ _ _ _ _ _ E2) as (_ & _ & _ & L2 & _).
    pose proof (processQueue_config _ _ _ E3) as (_ & _ & _ & L3 & _).
    destruct (IH3 W2) as [W3 M3]. destruct (IH4 W3) as [W4 M4].
    split; [exact W4|]. intros h.
    destruct (M0 h) as (T0 & S0 & O0 & U0).
    destruct (M3 h) as (T3 & S3 & O3 & A3).
    destruct (M4 h) as (T4 & S4 & O4 & A4).
    rewrite L2 in T3. rewrite L3, L2 in T4.
    set (e0 := Started (handle task) :: Ended (handle task) (Thrown error)
               :: e2) in *.
    change (Started (handle task) :: Ended (handle task) (Thrown error)
            :: e2 ++ e3 ++ e4) with (e0 ++ e3 ++ e4).
    rewrite !outcomes_app, !attempts_app, !finals_app.
    split; [|split; [|split]].
    + exact (task_moves_app _ _ _ _ _ _ _ _ _ _ _ T0
               (task_moves_app _ _ _ _ _ _ _ _ _ _ _ T3 T4)).
    + exact (same_thunks_trans _ _ _ _ S0 (same_thunks_trans _ _ _ _ S3 S4)).
    + apply own_throws_app; [exact O0|]. apply own_throws_app.
      * eapply own_throws_mono; [exact S0 | exact O3].
      * eapply own_throws_mono;
          [exact (same_thunks_trans _ _ _ _ S0 S3) | exact O4].
    + intros On. apply app_eq_nil in On as [On0 On].
      apply app_eq_nil in On as [On3 On4].
      destruct (Nat.eq_dec h (handle task)) as [->|Hn].
      { exfalso. destruct (O0 (Thrown error)) as (_ & _ & _ & _);
          [|rewrite On0 in *].
        - unfold e0, outcomes. cbn [flat_map outcome_of].
          rewrite Nat.eqb_refl. left. reflexivity.
        - unfold e0, outcomes in On0. cbn [flat_map outcome_of] in On0.
          rewrite Nat.eqb_refl in On0. discriminate. }
      destruct (U0 Hn) as (Ph & _ & At & Fi).
      pose proof (admits_trans _ _ _ _ _ h (A3 On3) (A4 On4)) as [F Ad].
      unfold admits. rewrite finals_app, attempts_app, Fi, At, F.
      split; [reflexivity|]. cbn [app Nat.add].
      destruct Ad as [[P A]|(r & P & P' & A)].
      * left. rewrite A, P, Ph. split; reflexivity.
      * right. exists r. rewrite A, <- Ph. repeat split; assumption.
Qed.

Lemma addTask_phases s t :
  well_formed s ->
  let s2 := with_queue
              (sort_queue (queue s ++ [mkInternal (nextHandle s) t 0]))
              (with_nextHandle (S (nextHandle s)) s) in
  well_formed s2
  /\ forall h, phase s2 h
               = if Nat.eqb (nextHandle s) h then Queued 0 else phase s h.
Proof.
  intros W s2.
  assert (P : Permutation (handles s2) (nextHandle s :: handles s)).
  { unfold handles, s2. cbn [with_queue with_nextHandle queue awaiting].
    rewrite !map_app.
    rewrite (Permutation_map handle
               (sort_queue_perm (queue s ++ [mkInternal (nextHandle s) t 0]))).
    rewrite map_app. cbn [map handle]. rewrite <- app_assoc.
    symmetry. apply Permutation_middle. }
  destruct W as [N B].
  assert (Nn : ~ In (nextHandle s) (handles s)).
  { intros Hin. rewrite Forall_forall in B. apply B in Hin. lia. }
  assert (W2 : well_formed s2).
  { split.
    - eapply Permutation_NoDup; [symmetry; exact P|].
      constructor; assumption.
    - eapply Permutation_Forall; [symmetry; exact P|].
      constructor; [simpl; lia|].
      eapply Forall_impl; [|exact B]. simpl. intros; lia. }
  split; [exact W2|]. intros h.
  destruct (well_formed_lookup s2 h W2) as (_ & Nq & _ & _).
  unfold phase. unfold s2 in Nq |- *.
  cbn [with_queue with_nextHandle queue awaiting nextHandle] in *.
  rewrite (lookup_perm h _ _ Nq (sort_queue_perm _)).
  rewrite lookup_app, lookup_cons. cbn [handle retries lookup find].
  destruct (not_in_handles s _ Nn) as [Lq La].
  destruct (Nat.eqb_spec (nextHandle s) h) as [<-|Hn].
  - rewrite La, Lq. reflexivity.
  - destruct (lookup h (awaiting s)); [reflexivity|].
    destruct (lookup h (queue s)); [reflexivity|].
    destruct (Nat.ltb_spec h (S (nextHandle s)));
      destruct (Nat.ltb_spec h (nextHandle s)); try reflexivity; lia.
Qed.

(** A promise settles: the task goes from the waiting activations to the
    tail of the queue, or out. *)
Lemma settle_moves s h0 task o s1 e1 :
  well_formed s -> lookup h0 (awaiting s) = Some task ->
  settle_task task o (with_awaiting (drop_handle h0 (awaiting s)) s)
  = (s1, e1) ->
  let s2' := with_activeTasks (activeTasks s1 - 1) s1 in
  let e0 := Ended (handle task) o :: e1 in
  well_formed s2'
  /\ forall h,
       task_moves (retryLimit s) h (phase s h) (outcomes h e0) (attempts h e0)
                  (finals h e0) (phase s2' h)
       /\ (h <> handle task ->
           phase s2' h = phase s h /\ outcomes h e0 = []
           /\ attempts h e0 = 0%nat /\ finals h e0 = []
           /\ same_thunks s s2' h).
Proof.
  intros W L E1 s2' e0.
  destruct (leave_awaiting s h0 task W L) as (Wa & Nh & Bh & Pa & P0).
  destruct (settle_task_phases _ _ _ _ _ Wa Nh Bh E1) as (W1 & P1 & Own).
  split; [exact W1|]. intros h.
  pose proof (settle_task_effects _ _ _ _ _ h E1) as (A1 & O1 & F1).
  assert (Eo : outcomes h e0 = outcome_of h (Ended (handle task) o)).
  { unfold e0, outcomes. cbn [flat_map outcome_of app].
    fold (outcomes h e1). rewrite O1, app_nil_r. reflexivity. }
  assert (Ea : attempts h e0 = 0%nat) by exact A1.
  assert (Ef : finals h e0 = finals h e1) by reflexivity.
  destruct (Nat.eqb_spec (handle task) h) as [<-|Hn].
  - split; [|intros Hn; congruence].
    rewrite Eo, Ea, Ef, P0. cbn [outcome_of]. rewrite Nat.eqb_refl.
    change (phase s2' (handle task)) with (phase s1 (handle task)).
    destruct o as [v|e].
    + destruct Own as [-> ->]. apply task_moves_one. constructor.
    + cbn [retryLimit with_awaiting] in Own.
      destruct (Z.ltb_spec (retries task) (retryLimit s));
        destruct Own as [-> ->]; apply task_moves_one; constructor; lia.
  - assert (Eo' : outcomes h e0 = []).
    { rewrite Eo. cbn [outcome_of].
      destruct (Nat.eqb_spec (handle task) h); [congruence | reflexivity]. }
    assert (Ph : phase s2' h = phase s h).
    { change (phase s2' h) with (phase s1 h).
      rewrite (P1 h (not_eq_sym Hn)). apply Pa. congruence. }
    assert (Ff : finals h e0 = []) by (rewrite Ef; apply F1; congruence).
    split.
    + rewrite Eo', Ea, Ff, Ph. constructor.
    + intros _. repeat split; try assumption.
      intros t' Hin Hh. unfold s2' in Hin.
      cbn [with_activeTasks queue] in Hin.
      unfold settle_task in E1. cbn [retryLimit with_awaiting] in E1.
      destruct o as [v|e]; [|destruct (retries task <? retryLimit s)];
        inversion E1 as [[E1s E1e]]; rewrite <- E1s in Hin;
        cbn [queue with_queue with_awaiting] in Hin.
      * exists t'. auto.
      * apply in_app_or in Hin as [Hin|[<-|[]]]; [exists t'; auto|].
        cbn [handle] in Hh. congruence.
      * exists t'. auto.
Qed.

Lemma resume_moves s h0 task o s' effs :
  well_formed s -> lookup h0 (awaiting s) = Some task ->
  resume task o (with_awaiting (drop_handle h0 (awaiting s)) s) = (s', effs) ->
  well_formed s'
  /\ forall h,
       task_moves (retryLimit s) h (phase s h) (outcomes h effs)
                  (attempts h effs) (finals h effs) (phase s' h)
       /\ (h <> h0 ->
           own_throws s effs h
           /\ (outcomes h effs = [] -> admits s s' effs h)).
Proof.
  intros W L. unfold resume.
  destruct (settle_task _ _ _) as [s1 e1] eqn:E1.
  destruct (processQueue (with_activeTasks _ _)) as [s3 e3] eqn:E3.
  destruct (processQueue s3) as [s4 e4] eqn:E4.
  intros H; inversion H; subst; clear H.
  pose proof (lookup_handle _ _ _ L) as Hh.
  destruct (settle_moves s h0 task o s1 e1 W L E1) as [W1 M0].
  pose proof (settle_task_fields _ _ _ _ _ E1) as (_ & _ & _ & L1 & _).
  pose proof (processQueue_config _ _ _ E3) as (_ & _ & _ & L3 & _).
  destruct (processQueue_moves _ _ _ E3 W1) as [W3 M3].
  destruct (processQueue_moves _ _ _ E4 W3) as [W4 M4].
  cbn [retryLimit with_activeTasks with_awaiting] in L1, L3.
  split; [exact W4|]. intros h.
  destruct (M0 h) as (T0 & U0).
  destruct (M3 h) as (T3 & S3 & O3 & A3).
  destruct (M4 h) as (T4 & S4 & O4 & A4).
  cbn [retryLimit with_activeTasks] in T3. rewrite L1 in T3.
  rewrite L3, L1 in T4.
  set (e0 := Ended (handle task) o :: e1) in *.
  change (Ended (handle task) o :: e1 ++ e3 ++ e4) with (e0 ++ e3 ++ e4).
  split.
  - rewrite !outcomes_app, !attempts_app, !finals_app.
    exact (task_moves_app _ _ _ _ _ _ _ _ _ _ _ T0
             (task_moves_app _ _ _ _ _ _ _ _ _ _ _ T3 T4)).
  - intros Hn. rewrite <- Hh in Hn.
    destruct (U0 Hn) as (Ph & On0 & At & Fi & S0). split.
    + apply own_throws_app; [apply own_throws_none; exact On0|].
      apply own_throws_app.
      * eapply own_throws_mono; [exact S0 | exact O3].
      * eapply own_throws_mono;
          [exact (same_thunks_trans _ _ _ _ S0 S3) | exact O4].
    + rewrite !outcomes_app. intros On.
      apply app_eq_nil in On as [_ On].
      apply app_eq_nil in On as [On3 On4].
      pose proof (admits_trans _ _ _ _ _ h (A3 On3) (A4 On4)) as [F Ad].
      unfold admits. rewrite finals_app, attempts_app, Fi, At, F.
      split; [reflexivity|]. cbn [app Nat.add].
      change (phase (with_activeTasks (activeTasks s1 - 1) s1) h)
        with (phase s1 h) in *.
      destruct Ad as [[P A]|(r & P & P' & A)].
      * left. rewrite A, P, Ph. split; reflexivity.
      * right. exists r. rewrite A, <- Ph. repeat split; assumption.
Qed.

(** Every step of the scheduler is, for every task, a sequence of moves of
    the task's own life; handles stay unique. *)
Lemma step_task s ev s' effs :
  well_formed s -> step s ev = Some (s', effs) ->
  well_formed s'
  /\ forall h, task_moves (retryLimit s) h (phase s h) (outcomes h effs)
                          (attempts h effs) (finals h effs) (phase s' h).
Proof.
  intros W. destruct ev as [t| |h0 o]; simpl.
  - intros H; inversion H as [H1]; clear H. unfold addTask in H1.
    destruct (addTask_phases s t W) as [W2 Ph].
    destruct (processQueue_moves _ _ _ H1 W2) as (W' & M).
    split; [exact W'|]. intros h. destruct (M h) as (T & _).
    cbn [retryLimit with_queue with_nextHandle] in T. rewrite Ph in T.
    destruct (Nat.eqb (nextHandle s) h) eqn:Eh.
    + apply Nat.eqb_eq in Eh. subst h.
      rewrite (phase_Fresh s _ W (Nat.le_refl _)).
      apply (task_moves_app _ _ _ [] 0%nat [] _ _ _ _ _
               (task_moves_one _ _ _ _ _ _ _ (tm_submit _ _)) T).
    + exact T.
  - destruct (resetTimer s); [|discriminate]. unfold tick.
    destruct (processQueue _) as [s1 e1] eqn:E1.
    intros H; inversion H; subst; clear H.
    destruct (processQueue_moves (with_requestCount 0 s) _ _ E1 W)
      as (W' & M).
    split; [exact W'|]. intros h. destruct (M h) as (T & _). exact T.
  - destruct (lookup h0 (awaiting s)) as [task|] eqn:L; [|discriminate].
    intros H; inversion H as [H1]; clear H.
    destruct (resume_moves s h0 task o s' effs W L H1) as [W' M].
    split; [exact W'|]. intros h. apply M.
Qed.

(** ** The life of a task along a run *)

Lemma life_move limit h p outs n fin o' k f' p' :
  0 <= limit ->
  life limit h p outs n fin ->
  task_move limit h p o' k f' p' ->
  life limit h p' (outs ++ o') (n + k) (fin ++ f').
Proof.
  intros Hl L T. destruct T; simpl in L |- *.
  - destruct L as (-> & -> & ->). simpl. repeat split; lia.
  - destruct L as (B & Ft & Ln & Hn & ->).
    rewrite !app_nil_r. repeat split; try assumption; lia.
  - destruct L as (B & Ft & Ln & Hn & ->).
    rewrite forallb_app, length_app, Ft. simpl. repeat split; lia.
  - destruct L as (B & Ft & Ln & Hn & ->).
    exists outs, (Thrown e). repeat split; try assumption; lia.
  - destruct L as (B & Ft & Ln & Hn & ->).
    exists outs, (Fulfilled v). repeat split; try assumption; lia.
  - destruct L as (B & Ft & Ln & Hn & ->).
    rewrite forallb_app, length_app, Ft. simpl. repeat split; lia.
  - destruct L as (B & Ft & Ln & Hn & ->).
    exists outs, (Thrown e). repeat split; try assumption; lia.
Qed.

Lemma life_moves limit h p outs n fin o' k f' p' :
  0 <= limit ->
  life limit h p outs n fin ->
  task_moves limit h p o' k f' p' ->
  life limit h p' (outs ++ o') (n + k) (fin ++ f').
Proof.
  intros Hl L T. revert outs n fin L.
  induction T as [p|p o1 k1 f1 q o2 k2 f2 q' M Ms IH]; intros outs n fin L.
  - rewrite !app_nil_r, Nat.add_0_r. exact L.
  - rewrite !app_assoc, Nat.add_assoc. apply IH.
    eapply life_move; eauto.
Qed.

Lemma constructor_well_formed options : well_formed (constructor options).
Proof. split; simpl; constructor. Qed.

Lemma run_well_formed options evs s log :
  run (constructor options) evs = Some (s, log) -> well_formed s.
Proof.
  revert evs s log.
  apply (run_invariant (fun _ s _ => well_formed s)).
  - intros _ s1 _ ev s' effs W E. apply (step_task _ _ _ _ W E).
  - apply constructor_well_formed.
Qed.

Lemma run_life options evs s log :
  0 <= retryLimit (constructor options) ->
  run (constructor options) evs = Some (s, log) ->
  forall h, life (retryLimit (constructor options)) h (phase s h)
                 (outcomes h log) (attempts h log) (finals h log).
Proof.
  intros Hl R.
  enough (G : retryLimit s = retryLimit (constructor options)
              /\ well_formed s
              /\ forall h, life (retryLimit (constructor options)) h
                                (phase s h) (outcomes h log)
                                (attempts h log) (finals h log))
    by apply G.
  revert evs s log R.
  apply (run_invariant
           (fun _ s log =>
              retryLimit s = retryLimit (constructor options)
              /\ well_formed s
              /\ forall h, life (retryLimit (constructor options)) h
                                (phase s h) (outcomes h log)
                                (attempts h log) (finals h log))).
  - intros evs1 s1 log1 ev s' effs (C1 & W1 & L1) E.
    pose proof (step_config _ _ _ _ E) as (_ & _ & _ & C' & _).
    destruct (step_task _ _ _ _ W1 E) as [W' T].
    split; [congruence|]. split; [exact W'|]. intros h.
    rewrite outcomes_app, attempts_app, finals_app.
    eapply life_moves; [exact Hl | apply L1 |].
    rewrite <- C1. apply T.
  - split; [reflexivity|]. split; [apply constructor_well_formed|].
    intros h. simpl. repeat split.
Qed.

Lemma forallb_is_thrown_last errs o :
  forallb is_thrown (errs ++ [o]) = true -> exists e, o = Thrown e.
Proof.
  rewrite forallb_app. intros H. apply andb_prop in H as [_ H].
  destruct o as [v|e]; [discriminate | eauto].
Qed.



(** ** Retries and the outcome seen by the caller *)

(** The stored limit is never below the configured one, and never 0. *)
Lemma stored_retryLimit options :
  0 <= configured_retryLimit options ->
  configured_retryLimit options <= retryLimit (constructor options)
  /\ (configured_retryLimit options <> 0 ->
      retryLimit (constructor options) = configured_retryLimit options)
  /\ (configured_retryLimit options = 0 ->
      retryLimit (constructor options) = 3).
Proof.
  unfold configured_retryLimit. simpl. unfold JS.or_default.
  destruct (opt_retryLimit options) as [n|]; [|lia].
  destruct (Z.eqb_spec n 0); lia.
Qed.

(** A task all of whose executions fail, for the stored limit: the future
    is rejected when execution number [retryLimit + 1] fails, with that
    reason, and not before. *)
Lemma failures_up_to_the_stored_limit options evs s log h :
  0 <= retryLimit (constructor options) ->
  run (constructor options) evs = Some (s, log) ->
  forallb is_thrown (outcomes h log) = true ->
  let limit := retryLimit (constructor options) in
  let failures := Z.of_nat (List.length (outcomes h log)) in
  failures <= limit + 1
  /\ Z.of_nat (attempts h log) <= limit + 1
  /\ (failures <= limit -> finals h log = [])
  /\ (failures = limit + 1 ->
      Z.of_nat (attempts h log) = limit + 1
      /\ exists errs e, outcomes h log = errs ++ [Thrown e]
                        /\ finals h log = [Rejected h e]).
Proof.
  intros Hl R Ft limit failures. subst limit failures.
  pose proof (run_life options evs s log Hl R h) as L.
  revert Hl L. generalize (retryLimit (constructor options)) as limit.
  intros limit Hl L.
  destruct (phase s h) as [|r|r|]; simpl in L.
  - destruct L as (-> & -> & ->). simpl.
    split; [lia|]. split; [lia|]. split; [reflexivity|]. intros Hc; lia.
  - destruct L as (B & _ & Ln & Hn & ->).
    split; [lia|]. split; [lia|]. split; [reflexivity|]. intros Hc; lia.
  - destruct L as (B & _ & Ln & Hn & ->).
    split; [lia|]. split; [lia|]. split; [reflexivity|]. intros Hc; lia.
  - destruct L as (errs & o & E & Fe & Hn & V). rewrite E in Ft |- *.
    destruct (forallb_is_thrown_last _ _ Ft) as [e ->].
    destruct V as [Ln ->]. rewrite length_app. simpl.
    split; [lia|]. split; [lia|]. split; [intros Hc; lia|]. intros _.
    split; [lia|]. exists errs, e. split; reflexivity.
Qed.

Lemma processQueue_nextHandle s s' e :
  processQueue s = (s', e) -> nextHandle s' = nextHandle s.
Proof.
  revert s s' e.
  apply (processQueue_rounds (fun s s' _ => nextHandle s' = nextHandle s)).
  - reflexivity.
  - reflexivity.
  - intros s task rest error s2 e2 s3 e3 s4 e4 _ _ _ E2 _ N3 _ N4.
    pose proof (throw_state _ _ _ _ _ _ E2) as (_&_&_&_&_&_&_&_& N2 & _).
    congruence.
Qed.

Lemma step_nextHandle s ev s' effs :
  step s ev = Some (s', effs) ->
  nextHandle s' = (nextHandle s + submissions [ev])%nat.
Proof.
  destruct ev as [t| |h o]; simpl.
  - intros H; inversion H as [H1]. unfold addTask in H1.
    apply processQueue_nextHandle in H1. rewrite H1. simpl.
    unfold submissions. simpl. lia.
  - destruct (resetTimer s); [|discriminate]. unfold tick.
    destruct (processQueue _) as [s1 e1] eqn:E1.
    intros H; inversion H; subst. apply processQueue_nextHandle in E1.
    rewrite E1. unfold submissions. simpl. lia.
  - destruct (lookup h (awaiting s)); [|discriminate]. unfold resume.
    destruct (settle_task _ _ _) as [s1 e1] eqn:E1.
    destruct (processQueue (with_activeTasks _ _)) as [s3 e3] eqn:E3.
    destruct (processQueue s3) as [s4 e4] eqn:E4.
    intros H; inversion H; subst.
    apply processQueue_nextHandle in E3, E4. rewrite E4, E3. simpl.
    apply settle_task_fields in E1 as (_&_&_&_&_&_&_&_& N1).
    rewrite N1. unfold submissions. simpl. lia.
Qed.

Lemma submissions_app evs1 evs2 :
  submissions (evs1 ++ evs2) = (submissions evs1 + submissions evs2)%nat.
Proof. unfold submissions. rewrite filter_app, length_app. reflexivity. Qed.

Lemma run_nextHandle options evs s log :
  run (constructor options) evs = Some (s, log) ->
  nextHandle s = submissions evs.
Proof.
  revert evs s log.
  apply (run_invariant (fun evs s _ => nextHandle s = submissions evs)).
  - intros evs1 s1 _ ev s' effs IH E. apply step_nextHandle in E.
    rewrite submissions_app. lia.
  - reflexivity.
Qed.

Lemma submitted_not_Fresh s h :
  (h < nextHandle s)%nat -> phase s h <> Fresh.
Proof.
  intros Hh. unfold phase.
  destruct (lookup h (awaiting s)); [discriminate|].
  destruct (lookup h (queue s)); [discriminate|].
  apply Nat.ltb_lt in Hh. rewrite Hh. discriminate.
Qed.


(** ** The counters count *)

Lemma processQueue_counts s s' e :
  processQueue s = (s', e) ->
  forall acc,
    activeTasks s = Z.of_nat (List.length (awaiting s)) ->
    requestCount s = Z.of_nat (snd acc) ->
    activeTasks s' = Z.of_nat (List.length (awaiting s'))
    /\ requestCount s' = Z.of_nat (snd (fold_left tally_step e acc)).
Proof.
  revert s s' e.
  apply (processQueue_rounds
           (fun s s' e =>
              forall acc,
                activeTasks s = Z.of_nat (List.length (awaiting s)) ->
                requestCount s = Z.of_nat (snd acc) ->
                activeTasks s' = Z.of_nat (List.length (awaiting s'))
                /\ requestCount s'
                   = Z.of_nat (snd (fold_left tally_step e acc)))).
  - intros s _ acc A Rq. split; assumption.
  - intros s task rest _ _ _ acc A Rq. simpl.
    rewrite length_app. simpl. split; lia.
  - intros s task rest error s2 e2 s3 e3 s4 e4 _ _ _ E2 _ IH3 _ IH4 acc A Rq.
    pose proof (throw_state _ _ _ _ _ _ E2)
      as (_ & _ & _ & _ & _ & A2 & R2 & W2 & _).
    cbn [fold_left tally_step]. rewrite !fold_left_app.
    rewrite (settle_task_tally _ _ _ _ _ (fst acc, S (snd acc)) E2).
    destruct (IH3 (fst acc, S (snd acc))) as [A3 R3].
    + rewrite A2, W2. exact A.
    + rewrite R2. simpl. lia.
    + apply IH4; assumption.
Qed.

Lemma step_counts s ev s' effs acc :
  step s ev = Some (s', effs) ->
  activeTasks s = Z.of_nat (List.length (awaiting s)) ->
  requestCount s = Z.of_nat (snd acc) ->
  activeTasks s' = Z.of_nat (List.length (awaiting s'))
  /\ requestCount s' = Z.of_nat (snd (fold_left tally_step effs acc)).
Proof.
  destruct ev as [t| |h o]; simpl.
  - intros H A Rq; inversion H as [H1]. unfold addTask in H1.
    exact (processQueue_counts _ _ _ H1 acc A Rq).
  - destruct (resetTimer s); [|discriminate]. unfold tick.
    destruct (processQueue _) as [s1 e1] eqn:E1.
    intros H A Rq; inversion H; subst.
    exact (processQueue_counts _ _ _ E1 (snd acc :: fst acc, 0%nat) A eq_refl).
  - destruct (lookup h (awaiting s)) as [task|] eqn:L; [|discriminate].
    unfold resume.
    destruct (settle_task _ _ _) as [s1 e1] eqn:E1.
    destruct (processQueue (with_activeTasks _ _)) as [s3 e3] eqn:E3.
    destruct (processQueue s3) as [s4 e4] eqn:E4.
    intros H A Rq; inversion H; subst.
    pose proof (settle_task_fields _ _ _ _ _ E1)
      as (_ & _ & _ & _ & _ & A1 & R1 & W1 & _).
    simpl in A1, R1, W1. apply drop_handle_length in L.
    assert (A2 : activeTasks (with_activeTasks (activeTasks s1 - 1) s1)
                 = Z.of_nat (List.length
                     (awaiting (with_activeTasks (activeTasks s1 - 1) s1)))).
    { simpl. rewrite W1, A1, A, L. lia. }
    assert (R2 : requestCount (with_activeTasks (activeTasks s1 - 1) s1)
                 = Z.of_nat (snd acc)) by (simpl; congruence).
    destruct (processQueue_counts _ _ _ E3 acc A2 R2) as (A3 & R3).
    destruct (processQueue_counts _ _ _ E4 _ A3 R3) as (A4 & R4).
    split; [exact A4|]. cbn [fold_left tally_step].
    rewrite !fold_left_app, (settle_task_tally _ _ _ _ _ acc E1). exact R4.
Qed.

Lemma run_counts options evs s log :
  run (constructor options) evs = Some (s, log) ->
  activeTasks s = Z.of_nat (List.length (awaiting s))
  /\ requestCount s = Z.of_nat (open_window log).
Proof.
  revert evs s log.
  apply (run_invariant
           (fun _ s log =>
              activeTasks s = Z.of_nat (List.length (awaiting s))
              /\ requestCount s = Z.of_nat (open_window log))).
  - intros _ s1 log1 ev s' effs [A Rq] E. unfold open_window, tally.
    rewrite fold_left_app. eapply step_counts; eauto.
  - split; reflexivity.
Qed.

Lemma endings_app e1 e2 : endings (e1 ++ e2) = (endings e1 + endings e2)%nat.
Proof. unfold endings. rewrite filter_app, length_app. reflexivity. Qed.

Lemma settle_task_quiet task o s s' e :
  settle_task task o s = (s', e) -> dequeued e = [] /\ endings e = 0%nat.
Proof.
  unfold settle_task. destruct o; [|destruct (retries task <? retryLimit s)];
    intros H; inversion H; split; reflexivity.
Qed.


(** ** A queued task gets its turn *)

Lemma cost_cons limit w t l :
  cost limit w (t :: l) = 2 * (limit - retries t) + w + cost limit w l.
Proof. reflexivity. Qed.

Lemma cost_nil limit w : cost limit w [] = 0.
Proof. reflexivity. Qed.

Lemma cost_app limit w l1 l2 :
  cost limit w (l1 ++ l2) = cost limit w l1 + cost limit w l2.
Proof.
  unfold cost. induction l1 as [|a l1 IH]; [reflexivity|].
  cbn [app fold_right]. rewrite IH. lia.
Qed.


Ltac cost_arith :=
  rewrite ?cost_app, ?cost_cons, ?cost_nil; cbn [retries]; lia.

Lemma cost_nonneg limit w l :
  0 <= w -> Forall (retries_within limit) l -> 0 <= cost limit w l.
Proof.
  intros Hw. induction 1 as [|a l Ha _ IH]; [unfold cost; simpl; lia|].
  rewrite cost_cons. unfold retries_within in Ha. lia.
Qed.

Lemma cost_lookup limit w h l t :
  lookup h l = Some t ->
  cost limit w l
  = cost limit w (drop_handle h l) + (2 * (limit - retries t) + w).
Proof.
  unfold lookup. induction l as [|a l IH]; cbn [find drop_handle];
    [discriminate|].
  destruct (has_handle h a).
  - intros H; inversion H; subst. rewrite cost_cons. lia.
  - intros H. rewrite !cost_cons, (IH H). lia.
Qed.

Lemma Forall_drop_handle (P : InternalTask -> Prop) h l :
  Forall P l -> Forall P (drop_handle h l).
Proof.
  induction 1 as [|a l Ha Hl IH]; simpl; [constructor|].
  destruct (has_handle h a); [exact Hl | constructor; assumption].
Qed.

Lemma lookup_Forall (P : InternalTask -> Prop) h l t :
  Forall P l -> lookup h l = Some t -> P t.
Proof.
  intros F L. apply lookup_In in L as [Hin _].
  rewrite Forall_forall in F. apply F. exact Hin.
Qed.

(** An activation never adds to the load, and every task it starts takes
    one unit off. *)
Lemma processQueue_load s s' e :
  processQueue s = (s', e) ->
  forall limit,
    retryLimit s = limit ->
    Forall (retries_within limit) (queue s) ->
    Forall (retries_within limit) (awaiting s) ->
    Forall (retries_within limit) (queue s')
    /\ Forall (retries_within limit) (awaiting s')
    /\ cost limit 2 (queue s') + cost limit 1 (awaiting s')
       + Z.of_nat (List.length (dequeued e))
       <= cost limit 2 (queue s) + cost limit 1 (awaiting s).
Proof.
  revert s s' e.
  apply (processQueue_rounds
           (fun s s' e =>
              forall limit,
                retryLimit s = limit ->
                Forall (retries_within limit) (queue s) ->
                Forall (retries_within limit) (awaiting s) ->
                Forall (retries_within limit) (queue s')
                /\ Forall (retries_within limit) (awaiting s')
                /\ cost limit 2 (queue s') + cost limit 1 (awaiting s')
                   + Z.of_nat (List.length (dequeued e))
                   <= cost limit 2 (queue s) + cost limit 1 (awaiting s))).
  - intros s _ limit _ Q A. split; [exact Q|]. split; [exact A|]. simpl. lia.
  - intros s task rest _ Eq _ limit _ Q A. rewrite Eq in Q |- *.
    inversion Q as [|? ? Ht Qr]; subst.
    cbn [queue awaiting with_awaiting start_task].
    split; [exact Qr|]. split.
    + apply Forall_app. split; [exact A | constructor; [exact Ht|constructor]].
    + cbn [dequeued flat_map started_of app List.length]. cost_arith.
  - intros s task rest error s2 e2 s3 e3 s4 e4 _ Eq _ E2 E3 IH3 _ IH4
           limit Hl Q A.
    rewrite Eq in Q |- *. inversion Q as [|? ? Ht Qr]; subst.
    unfold retries_within in Ht.
    pose proof (throw_state _ _ _ _ _ _ E2)
      as (_ & _ & _ & L2 & _ & _ & _ & W2 & _ & Q2).
    cbv zeta in L2, W2, Q2.
    pose proof (processQueue_config _ _ _ E3) as (_ & _ & _ & L3 & _).
    destruct (settle_task_quiet _ _ _ _ _ E2) as [D2 _].
    assert (B2 : Forall (retries_within (retryLimit s))
                   (queue (with_activeTasks (activeTasks s2 - 1) s2))
                 /\ cost (retryLimit s) 2
                      (queue (with_activeTasks (activeTasks s2 - 1) s2))
                    + 2 <= cost (retryLimit s) 2 (task :: rest)).
    { destruct Q2 as [(Hlt & -> & _)|(Hge & -> & _)].
      - split.
        + apply Forall_app. split; [exact Qr|].
          constructor; [|constructor]. unfold retries_within. simpl. lia.
        + cbn [queue with_activeTasks]. cost_arith.
      - split; [exact Qr|]. cbn [queue with_activeTasks]. cost_arith. }
    destruct B2 as [F2 C2].
    destruct (IH3 (retryLimit s) L2 F2) as (F3 & A3 & C3).
    { rewrite W2. exact A. }
    destruct (IH4 (retryLimit s)) as (F4 & A4 & C4);
      [congruence | exact F3 | exact A3 |].
    split; [exact F4|]. split; [exact A4|].
    change (Started (handle task) :: Ended (handle task) (Thrown error)
            :: e2 ++ e3 ++ e4)
      with ([Started (handle task); Ended (handle task) (Thrown error)]
            ++ e2 ++ e3 ++ e4).
    rewrite !dequeued_app, !length_app, D2. rewrite W2 in C3.
    cbn [dequeued flat_map started_of app List.length]. lia.
Qed.

(** An activation that finds the guard true starts a task. *)
Lemma processQueue_starts_one s s' e :
  has_headroom s = true -> processQueue s = (s', e) ->
  (1 <= List.length (dequeued e))%nat.
Proof.
  intros G. rewrite processQueue_eq, G.
  destruct (queue s) as [|task rest] eqn:Q.
  - apply has_headroom_queue in G as (t & r & Q'). congruence.
  - destruct (call_of task).
    + intros H; inversion H; subst. simpl. lia.
    + destruct (resume _ _ _) as [s1 e1]. intros H; inversion H; subst.
      simpl. lia.
Qed.

Lemma step_live s ev s' effs :
  live s -> step s ev = Some (s', effs) ->
  live s'
  /\ match ev with
     | AddTask _ => True
     | Tick => load s' + Z.of_nat (List.length (dequeued effs)) <= load s
     | Settle _ _ => load s' + 1 <= load s
     end.
Proof.
  intros (W & Ac & Rq & C & M & L & T & Q & A) E.
  pose proof (step_config _ _ _ _ E) as (M' & _ & C' & L' & T').
  destruct (step_task _ _ _ _ W E) as [W' _].
  destruct (step_counts s ev s' effs ([], Z.to_nat (requestCount s)) E Ac)
    as [Ac' Rq']; [simpl; lia|].
  enough (G : Forall (retries_within (retryLimit s)) (queue s')
              /\ Forall (retries_within (retryLimit s)) (awaiting s')
              /\ match ev with
                 | AddTask _ => True
                 | Tick =>
                     cost (retryLimit s) 2 (queue s')
                     + cost (retryLimit s) 1 (awaiting s')
                     + Z.of_nat (List.length (dequeued effs)) <= load s
                 | Settle _ _ =>
                     cost (retryLimit s) 2 (queue s')
                     + cost (retryLimit s) 1 (awaiting s') + 1 <= load s
                 end).
  { destruct G as (Q' & A' & G). split.
    - unfold live. rewrite M', C', L', T'.
      split; [exact W'|]. split; [exact Ac'|]. split; [lia|].
      split; [exact C|]. split; [exact M|]. split; [exact L|].
      split; [exact T|]. split; assumption.
    - unfold load at 1 3. rewrite L'. exact G. }
  destruct ev as [t| |h o]; simpl in E.
  - inversion E as [E1]. unfold addTask in E1.
    destruct (processQueue_load _ _ _ E1 (retryLimit s) eq_refl)
      as (Q' & A' & _).
    + cbn [queue with_queue with_nextHandle].
      eapply Permutation_Forall;
        [apply Permutation_sym, sort_queue_perm|].
      apply Forall_app. split; [exact Q|].
      constructor; [|constructor]. unfold retries_within. simpl. lia.
    + exact A.
    + split; [exact Q'|]. split; [exact A' | exact I].
  - destruct (resetTimer s); [|discriminate]. unfold tick in E.
    destruct (processQueue _) as [s1 e1] eqn:E1.
    inversion E; subst.
    destruct (processQueue_load _ _ _ E1 (retryLimit s) eq_refl Q A)
      as (Q' & A' & C1).
    split; [exact Q'|]. split; [exact A'|].
    cbn [queue awaiting with_requestCount] in C1.
    change (WindowReset :: e1) with ([WindowReset] ++ e1).
    rewrite dequeued_app. unfold load. simpl. exact C1.
  - destruct (lookup h (awaiting s)) as [task|] eqn:Lk; [|discriminate].
    unfold resume in E.
    destruct (settle_task _ _ _) as [s1 e1] eqn:E1.
    destruct (processQueue (with_activeTasks _ _)) as [s3 e3] eqn:E3.
    destruct (processQueue s3) as [s4 e4] eqn:E4.
    inversion E; subst.
    pose proof (lookup_Forall _ _ _ _ A Lk) as Ht. unfold retries_within in Ht.
    pose proof (cost_lookup (retryLimit s) 1 _ _ _ Lk) as Cl.
    pose proof (Forall_drop_handle _ h _ A) as Ad.
    pose proof (settle_task_fields _ _ _ _ _ E1)
      as (_ & _ & _ & L1 & _ & _ & _ & W1 & _).
    cbn [retryLimit awaiting with_awaiting] in L1, W1.
    assert (B1 : Forall (retries_within (retryLimit s)) (queue s1)
                 /\ cost (retryLimit s) 2 (queue s1)
                    <= cost (retryLimit s) 2 (queue s)
                       + 2 * (retryLimit s - retries task)).
    { unfold settle_task in E1. destruct o as [v|err].
      - inversion E1; subst. cbn [queue with_awaiting with_queue].
        split; [exact Q | lia].
      - cbn [retryLimit with_awaiting] in E1.
        destruct (Z.ltb_spec (retries task) (retryLimit s)) as [Hlt|Hge];
          inversion E1; subst; cbn [queue with_awaiting with_queue].
        + split.
          * apply Forall_app. split; [exact Q|].
            constructor; [|constructor]. unfold retries_within. simpl. lia.
          * cost_arith.
        + split; [exact Q | lia]. }
    destruct B1 as [Q1 C1].
    pose proof (processQueue_config _ _ _ E3) as (_ & _ & _ & L3 & _).
    destruct (processQueue_load _ _ _ E3 (retryLimit s)) as (Q3 & A3 & C3);
      [exact L1 | exact Q1 | simpl; rewrite W1; exact Ad |].
    destruct (processQueue_load _ _ _ E4 (retryLimit s)) as (Q4 & A4 & C4);
      [simpl in L3; congruence | exact Q3 | exact A3 |].
    split; [exact Q4|]. split; [exact A4|].
    cbn [queue awaiting with_activeTasks] in C3. rewrite W1 in C3.
    unfold load. lia.
Qed.

Lemma constructor_live options :
  1 <= opt_maxRequests options ->
  1 <= concurrency (constructor options) ->
  0 <= retryLimit (constructor options) ->
  live (constructor options).
Proof.
  intros M C L. unfold live.
  split; [apply constructor_well_formed|].
  split; [reflexivity|]. split; [simpl; lia|].
  split; [exact C|]. split; [exact M|]. split; [exact L|].
  split; [discriminate|]. split; constructor.
Qed.

Lemma run_live s0 evs s log :
  live s0 -> run s0 evs = Some (s, log) -> live s.
Proof.
  intros L0. revert evs s log.
  apply (run_invariant (fun _ s _ => live s)); [|exact L0].
  intros _ s1 _ ev s' effs L1 E. apply (step_live _ _ _ _ L1 E).
Qed.

(** A queued task that an event does not start stays queued as it is. *)
Lemma task_moves_unstarted limit h r o k f p' :
  task_moves limit h (Queued r) o k f p' -> k = 0%nat -> p' = Queued r.
Proof.
  remember (Queued r) as p eqn:Ep. intros T.
  destruct T as [p|p o k f p' o' k' f' p'' M T']; intros K.
  - reflexivity.
  - subst p. inversion M; subst; simpl in K; discriminate K.
Qed.

Lemma phase_Queued s h r :
  phase s h = Queued r -> queue s <> [].
Proof.
  unfold phase. destruct (lookup h (awaiting s)); [discriminate|].
  destruct (queue s); [|discriminate].
  simpl. destruct (h <? nextHandle s)%nat; discriminate.
Qed.

(** From any live state, a queued task can be brought to execution by the
    environment alone: the promises in flight settle, in any way, and the
    timer fires; no further submission is needed. *)
Lemma queued_task_can_start (m : nat) :
  forall s h r,
    live s -> load s <= Z.of_nat m -> phase s h = Queued r ->
    exists evs s' log,
      submissions evs = 0%nat
      /\ run s evs = Some (s', log)
      /\ (1 <= attempts h log)%nat.
Proof.
  induction m as [|m IH]; intros s h r Lv Lm Ph.
  - exfalso. pose proof (phase_Queued _ _ _ Ph) as Qn.
    destruct Lv as (_ & _ & _ & _ & _ & _ & _ & Q & A).
    unfold load in Lm. pose proof (cost_nonneg _ 1 _ ltac:(lia) A) as Ca.
    destruct (queue s) as [|t q]; [congruence|].
    inversion Q as [|? ? Ht Qr]; subst. unfold retries_within in Ht.
    pose proof (cost_nonneg _ 2 _ ltac:(lia) Qr) as Cq.
    rewrite cost_cons in Lm. lia.
  - assert (Ev : exists ev s1 e1,
               submissions [ev] = 0%nat /\ step s ev = Some (s1, e1)
               /\ load s1 + 1 <= load s).
    { destruct (awaiting s) as [|t w] eqn:Aw.
      - pose proof Lv as (_ & Ac & _ & C & M & _ & T & _).
        destruct (resetTimer s) as [i|] eqn:Tm; [|congruence].
        destruct (processQueue (with_requestCount 0 s)) as [s1 e1] eqn:E1.
        assert (St : step s Tick = Some (s1, WindowReset :: e1))
          by (simpl; unfold tick; rewrite Tm, E1; reflexivity).
        exists Tick, s1, (WindowReset :: e1).
        split; [reflexivity|]. split; [exact St|].
        destruct (step_live _ _ _ _ Lv St) as [_ Ld].
        assert (G : has_headroom (with_requestCount 0 s) = true).
        { pose proof (phase_Queued _ _ _ Ph) as Qn.
          unfold has_headroom. cbn [queue activeTasks concurrency
                                    requestCount maxRequests
                                    with_requestCount].
          rewrite Aw in Ac. simpl in Ac.
          destruct (queue s) as [|t q]; [congruence|].
          apply andb_true_intro. split; [apply andb_true_intro; split|];
            apply Z.ltb_lt; simpl List.length; lia. }
        pose proof (processQueue_starts_one _ _ _ G E1) as S1.
        change (WindowReset :: e1) with ([WindowReset] ++ e1) in Ld.
        rewrite dequeued_app in Ld. simpl app in Ld. lia.
      - destruct (resume t (Fulfilled "v")
                    (with_awaiting (drop_handle (handle t) (awaiting s)) s))
          as [s1 e1] eqn:E1.
        assert (St : step s (Settle (handle t) (Fulfilled "v"))
                     = Some (s1, e1)).
        { cbn [step]. rewrite Aw in E1 |- *. unfold lookup. cbn [find].
          unfold has_handle at 1. rewrite Nat.eqb_refl, E1. reflexivity. }
        exists (Settle (handle t) (Fulfilled "v")), s1, e1.
        split; [reflexivity|]. split; [exact St|].
        apply (step_live _ _ _ _ Lv St). }
    destruct Ev as (ev & s1 & e1 & Sb & St & Ld).
    destruct (step_live _ _ _ _ Lv St) as [Lv1 _].
    pose proof Lv as (W & _).
    destruct (step_task _ _ _ _ W St) as [_ T]. specialize (T h).
    rewrite Ph in T.
    destruct (attempts h e1) as [|k] eqn:At.
    + apply task_moves_unstarted in T; [|reflexivity].
      destruct (IH s1 h r Lv1 ltac:(lia) T) as (evs & s' & log & Sb' & R & A').
      exists (ev :: evs), s', (e1 ++ log). split; [|split].
      * change (ev :: evs) with ([ev] ++ evs). rewrite submissions_app. lia.
      * simpl. rewrite St, R. reflexivity.
      * rewrite attempts_app. lia.
    + exists [ev], s1, (e1 ++ []). split; [exact Sb|]. split.
      * simpl. rewrite St. reflexivity.
      * rewrite app_nil_r, At. lia.
Qed.

(** ** Driving a task through its executions *)

Lemma task_moves_quiet limit h r k f p' :
  task_moves limit h (Queued r) [] k f p' ->
  (p' = Queued r /\ k = 0%nat) \/ (p' = Running r /\ k = 1%nat).
Proof.
  intros T. inversion T as [|? o1 k1 f1 p1 o2 k2 f2 ? M T1 Ep Eo]; subst.
  - left. split; reflexivity.
  - apply app_eq_nil in Eo as [-> ->].
    inversion M; subst. right.
    inversion T1 as [|? o3 k3 f3 p3 o4 k4 f4 ? M' T2 Ep' Eo']; subst.
    + split; reflexivity.
    + apply app_eq_nil in Eo' as [-> ->]. inversion M'.
Qed.

Lemma task_moves_failed limit h r e k f p' :
  r < limit ->
  task_moves limit h (Running r) [Thrown e] k f p' ->
  p' = Queued (r + 1) \/ p' = Running (r + 1).
Proof.
  intros Hlt T.
  inversion T as [|? o1 k1 f1 p1 o2 k2 f2 ? M T1 Ep Eo]; subst.
  inversion M; subst; simpl in Eo; inversion Eo; subst.
  - apply task_moves_quiet in T1 as [[-> _]|[-> _]]; auto.
  - contradiction.
Qed.

Lemma outcomes_Ended h h' o l :
  outcomes h (Ended h' o :: l)
  = (if Nat.eqb h' h then [o] else []) ++ outcomes h l.
Proof. reflexivity. Qed.

(** A thunk that returns a promise at every call ends no execution within
    a turn. *)
Lemma processQueue_quiet h s s' e :
  processQueue s = (s', e) ->
  returns_promises h (queue s) ->
  outcomes h e = []
  /\ returns_promises h (queue s')
  /\ (returns_promises h (awaiting s) -> returns_promises h (awaiting s')).
Proof.
  revert s s' e.
  apply (processQueue_rounds
           (fun s s' e =>
              returns_promises h (queue s) ->
              outcomes h e = []
              /\ returns_promises h (queue s')
              /\ (returns_promises h (awaiting s) ->
                  returns_promises h (awaiting s')))).
  - intros s _ Q. auto.
  - intros s task rest _ Eq _ Q. rewrite Eq in Q.
    inversion Q as [|? ? Ht Qr]; subst.
    split; [reflexivity|]. split; [exact Qr|].
    intros A. cbn [awaiting with_awaiting start_task].
    apply Forall_app. split; [exact A | constructor; [exact Ht|constructor]].
  - intros s task rest error s2 e2 s3 e3 s4 e4 _ Eq Ec E2 _ IH3 _ IH4 Q.
    rewrite Eq in Q. inversion Q as [|? ? Ht Qr]; subst.
    assert (Hn : handle task <> h).
    { intros Hh. unfold call_of in Ec. rewrite (Ht Hh) in Ec. discriminate. }
    pose proof (throw_state _ _ _ _ _ _ E2)
      as (_ & _ & _ & _ & _ & _ & _ & W2 & _ & Q2).
    cbv zeta in W2, Q2.
    assert (B2 : returns_promises h
                   (queue (with_activeTasks (activeTasks s2 - 1) s2))
                 /\ outcomes h e2 = []).
    { destruct Q2 as [(_ & -> & ->)|(_ & -> & ->)].
      - split; [|reflexivity]. apply Forall_app. split; [exact Qr|].
        constructor; [|constructor]. simpl. intros Hh. contradiction.
      - split; [exact Qr | reflexivity]. }
    destruct B2 as [Q2' O2].
    destruct (IH3 Q2') as (O3 & Q3 & A3).
    destruct (IH4 Q3) as (O4 & Q4 & A4).
    split; [|split; [exact Q4|]].
    + change (Started (handle task) :: Ended (handle task) (Thrown error)
              :: e2 ++ e3 ++ e4)
        with ([Started (handle task)]
              ++ Ended (handle task) (Thrown error) :: e2 ++ e3 ++ e4).
      rewrite outcomes_app, outcomes_Ended, !outcomes_app, O2, O3, O4.
      apply Nat.eqb_neq in Hn. rewrite Hn. reflexivity.
    + intros A. apply A4, A3. rewrite W2. exact A.
Qed.

Lemma step_quiet h s ev s' effs :
  step s ev = Some (s', effs) ->
  is_submission ev = false ->
  returns_promises h (queue s) -> returns_promises h (awaiting s) ->
  returns_promises h (queue s') /\ returns_promises h (awaiting s')
  /\ outcomes h effs
     = match ev with
       | Settle h' o => if Nat.eqb h' h then [o] else []
       | _ => []
       end.
Proof.
  intros E Sb Q A. destruct ev as [t| |h' o]; [discriminate| |]; simpl in E.
  - destruct (resetTimer s); [|discriminate]. unfold tick in E.
    destruct (processQueue _) as [s1 e1] eqn:E1. inversion E; subst.
    destruct (processQueue_quiet h _ _ _ E1 Q) as (O1 & Q1 & A1).
    split; [exact Q1|]. split; [exact (A1 A) | exact O1].
  - destruct (lookup h' (awaiting s)) as [task|] eqn:Lk; [|discriminate].
    unfold resume in E.
    destruct (settle_task _ _ _) as [s1 e1] eqn:E1.
    destruct (processQueue (with_activeTasks _ _)) as [s3 e3] eqn:E3.
    destruct (processQueue s3) as [s4 e4] eqn:E4.
    inversion E; subst.
    pose proof (lookup_Forall _ _ _ _ A Lk) as Ht.
    apply lookup_In in Lk as [_ Hh].
    pose proof (settle_task_fields _ _ _ _ _ E1)
      as (_ & _ & _ & _ & _ & _ & _ & W1 & _).
    cbn [awaiting with_awaiting] in W1.
    assert (B1 : returns_promises h (queue s1) /\ outcomes h e1 = []).
    { unfold settle_task in E1. destruct o as [v|err].
      - inversion E1; subst. split; [exact Q | reflexivity].
      - cbn [retryLimit with_awaiting] in E1.
        destruct (retries task <? retryLimit s); inversion E1; subst.
        + split; [|reflexivity]. cbn [queue with_queue with_awaiting].
          apply Forall_app. split; [exact Q|].
          constructor; [exact Ht|constructor].
        + split; [exact Q | reflexivity]. }
    destruct B1 as [Q1 O1].
    destruct (processQueue_quiet h _ _ _ E3 Q1) as (O3 & Q3 & A3).
    destruct (processQueue_quiet h _ _ _ E4 Q3) as (O4 & Q4 & A4).
    split; [exact Q4|]. split.
    + apply A4, A3. cbn [awaiting with_activeTasks]. rewrite W1.
      apply Forall_drop_handle. exact A.
    + rewrite outcomes_Ended, !outcomes_app, O1, O3, O4, Hh, app_nil_r.
      reflexivity.
Qed.

(** What the environment can always do next for a queued task: settle a
    promise in flight (of another task), or let the timer fire when no
    promise is in flight; either takes from the load. *)
Lemma environment_step s h r :
  live s -> phase s h = Queued r ->
  exists ev s1 e1,
    is_submission ev = false
    /\ (forall o, ev <> Settle h o)
    /\ step s ev = Some (s1, e1)
    /\ load s1 + 1 <= load s.
Proof.
  intros Lv Ph. destruct (awaiting s) as [|t w] eqn:Aw.
  - pose proof Lv as (_ & Ac & _ & C & M & _ & T & _).
    destruct (resetTimer s) as [i|] eqn:Tm; [|congruence].
    destruct (processQueue (with_requestCount 0 s)) as [s1 e1] eqn:E1.
    assert (St : step s Tick = Some (s1, WindowReset :: e1))
      by (simpl; unfold tick; rewrite Tm, E1; reflexivity).
    exists Tick, s1, (WindowReset :: e1).
    split; [reflexivity|]. split; [discriminate|]. split; [exact St|].
    destruct (step_live _ _ _ _ Lv St) as [_ Ld].
    assert (G : has_headroom (with_requestCount 0 s) = true).
    { pose proof (phase_Queued _ _ _ Ph) as Qn.
      unfold has_headroom. cbn [queue activeTasks concurrency
                                requestCount maxRequests
                                with_requestCount].
      rewrite Aw in Ac. simpl in Ac.
      destruct (queue s) as [|t q]; [congruence|].
      apply andb_true_intro. split; [apply andb_true_intro; split|];
        apply Z.ltb_lt; simpl List.length; lia. }
    pose proof (processQueue_starts_one _ _ _ G E1) as S1.
    change (WindowReset :: e1) with ([WindowReset] ++ e1) in Ld.
    rewrite dequeued_app in Ld. simpl app in Ld. lia.
  - destruct (resume t (Fulfilled "v")
                (with_awaiting (drop_handle (handle t) (awaiting s)) s))
      as [s1 e1] eqn:E1.
    assert (St : step s (Settle (handle t) (Fulfilled "v"))
                 = Some (s1, e1)).
    { cbn [step]. rewrite Aw in E1 |- *. unfold lookup. cbn [find].
      unfold has_handle at 1. rewrite Nat.eqb_refl, E1. reflexivity. }
    exists (Settle (handle t) (Fulfilled "v")), s1, e1.
    split; [reflexivity|]. split; [|split; [exact St|]].
    + intros o Eo. inversion Eo as [[Hh Ho]]. unfold phase in Ph.
      rewrite Aw in Ph. unfold lookup in Ph. cbn [find] in Ph.
      unfold has_handle at 1 in Ph. rewrite Hh, Nat.eqb_refl in Ph.
      discriminate.
    + apply (step_live _ _ _ _ Lv St).
Qed.

(** A queued task whose thunk returns promises is brought in flight by the
    environment alone, none of its executions ending meanwhile. *)
Lemma queued_task_gets_running (m : nat) :
  forall s h r,
    live s -> load s <= Z.of_nat m -> phase s h = Queued r ->
    returns_promises h (queue s) -> returns_promises h (awaiting s) ->
    exists evs s' log,
      submissions evs = 0%nat
      /\ run s evs = Some (s', log)
      /\ outcomes h log = []
      /\ phase s' h = Running r.
Proof.
  induction m as [|m IH]; intros s h r Lv Lm Ph Q A.
  - exfalso. pose proof (phase_Queued _ _ _ Ph) as Qn.
    destruct Lv as (_ & _ & _ & _ & _ & _ & _ & Qr & Ar).
    unfold load in Lm. pose proof (cost_nonneg _ 1 _ ltac:(lia) Ar) as Ca.
    destruct (queue s) as [|t q]; [congruence|].
    inversion Qr as [|? ? Ht Qr']; subst. unfold retries_within in Ht.
    pose proof (cost_nonneg _ 2 _ ltac:(lia) Qr') as Cq.
    rewrite cost_cons in Lm. lia.
  - destruct (environment_step s h r Lv Ph)
      as (ev & s1 & e1 & Sb & Nh & St & Ld).
    destruct (step_live _ _ _ _ Lv St) as [Lv1 _].
    pose proof Lv as (W & _).
    destruct (step_task _ _ _ _ W St) as [_ T]. specialize (T h).
    destruct (step_quiet h _ _ _ _ St Sb Q A) as (Q1 & A1 & O1).
    assert (O1' : outcomes h e1 = []).
    { rewrite O1. destruct ev as [t| |h' o]; try reflexivity.
      destruct (Nat.eqb_spec h' h) as [->|_]; [|reflexivity].
      exfalso. apply (Nh o). reflexivity. }
    rewrite Ph, O1' in T.
    assert (Sb' : submissions [ev] = 0%nat).
    { unfold submissions. simpl. rewrite Sb. reflexivity. }
    apply task_moves_quiet in T as [[P1 _]|[P1 _]].
    + destruct (IH s1 h r Lv1 ltac:(lia) P1 Q1 A1)
        as (evs & s' & log & Sbs & R & O & P).
      exists (ev :: evs), s', (e1 ++ log). split; [|split; [|split]].
      * change (ev :: evs) with ([ev] ++ evs). rewrite submissions_app. lia.
      * simpl. rewrite St, R. reflexivity.
      * rewrite outcomes_app, O1', O. reflexivity.
      * exact P.
    + exists [ev], s1, (e1 ++ []). split; [exact Sb'|]. split; [|split].
      * simpl. rewrite St. reflexivity.
      * rewrite app_nil_r. exact O1'.
      * exact P1.
Qed.

(** A task in flight can settle, with any outcome: the scheduler handles
    the end of its execution. *)
Lemma running_task_can_settle s h r o :
  phase s h = Running r ->
  exists s' effs, step s (Settle h o) = Some (s', Ended h o :: effs).
Proof.
  unfold phase. cbn [step].
  destruct (lookup h (awaiting s)) as [t|] eqn:L.
  - intros _. apply lookup_In in L as [_ <-]. unfold resume.
    destruct (settle_task _ _ _) as [s1 e1].
    destruct (processQueue (with_activeTasks _ _)) as [s3 e3].
    destruct (processQueue s3) as [s4 e4]. eauto.
  - destruct (lookup h (queue s)); [discriminate|].
    destruct (h <? nextHandle s)%nat; discriminate.
Qed.

Lemma run_quiet h evs :
  forall s s' log,
    run s evs = Some (s', log) -> submissions evs = 0%nat ->
    returns_promises h (queue s) -> returns_promises h (awaiting s) ->
    returns_promises h (queue s') /\ returns_promises h (awaiting s').
Proof.
  induction evs as [|ev evs IH]; intros s s' log R Sb Q A.
  - inversion R; subst. split; assumption.
  - cbn [run] in R. destruct (step s ev) as [[s1 e1]|] eqn:St; [|discriminate].
    destruct (run s1 evs) as [[s2 e2]|] eqn:R1; [|discriminate].
    inversion R; subst.
    change (ev :: evs) with ([ev] ++ evs) in Sb.
    rewrite submissions_app in Sb.
    assert (Sb1 : is_submission ev = false).
    { destruct ev; try reflexivity. unfold submissions in Sb. simpl in Sb.
      lia. }
    destruct (step_quiet h _ _ _ _ St Sb1 Q A) as (Q1 & A1 & _).
    apply (IH s1 s' e2 R1); [lia | exact Q1 | exact A1].
Qed.

(** A held task whose thunk returns promises can be brought in flight. *)
Lemma held_task_gets_running s h r :
  live s ->
  phase s h = Queued r \/ phase s h = Running r ->
  returns_promises h (queue s) -> returns_promises h (awaiting s) ->
  exists evs s' log,
    submissions evs = 0%nat
    /\ run s evs = Some (s', log)
    /\ outcomes h log = []
    /\ phase s' h = Running r
    /\ live s' /\ retryLimit s' = retryLimit s
    /\ returns_promises h (queue s') /\ returns_promises h (awaiting s').
Proof.
  intros Lv Ph Q A.
  assert (Rn : exists evs s' log,
             submissions evs = 0%nat /\ run s evs = Some (s', log)
             /\ outcomes h log = [] /\ phase s' h = Running r).
  { destruct Ph as [Ph|Ph].
    - assert (B : 0 <= load s).
      { destruct Lv as (_ & _ & _ & _ & _ & _ & _ & Qr & Ar). unfold load.
        pose proof (cost_nonneg _ 2 _ ltac:(lia) Qr).
        pose proof (cost_nonneg _ 1 _ ltac:(lia) Ar). lia. }
      apply (queued_task_gets_running (Z.to_nat (load s)) s h r Lv);
        [lia | exact Ph | exact Q | exact A].
    - exists [], s, []. repeat split. exact Ph. }
  destruct Rn as (evs & s' & log & Sb & R & O & P).
  exists evs, s', log.
  destruct (run_quiet h _ _ _ _ R Sb Q A) as [Q' A'].
  pose proof (run_config _ _ _ _ R) as (_ & _ & _ & L' & _).
  split; [exact Sb|]. split; [exact R|]. split; [exact O|].
  split; [exact P|]. split; [exact (run_live _ _ _ _ Lv R)|].
  split; [exact L'|]. split; assumption.
Qed.

(** The executions of a held task whose thunk returns promises can end in
    any way the retries left allow: failures, as many as retries are left,
    and then any outcome. *)
Lemma held_task_can_be_driven (es : list JS.value) :
  forall s h r o,
    live s ->
    phase s h = Queued r \/ phase s h = Running r ->
    returns_promises h (queue s) -> returns_promises h (awaiting s) ->
    r + Z.of_nat (List.length es) <= retryLimit s ->
    exists evs s' log,
      submissions evs = 0%nat
      /\ run s evs = Some (s', log)
      /\ outcomes h log = map Thrown es ++ [o].
Proof.
  induction es as [|e es IH]; intros s h r o Lv Ph Q A Hr;
    destruct (held_task_gets_running s h r Lv Ph Q A)
      as (evs1 & s1 & log1 & Sb1 & R1 & O1 & P1 & Lv1 & L1 & Q1 & A1).
  - destruct (running_task_can_settle s1 h r o P1) as (s2 & effs & St).
    destruct (step_quiet h _ _ _ _ St eq_refl Q1 A1) as (_ & _ & O2).
    rewrite Nat.eqb_refl in O2.
    exists (evs1 ++ [Settle h o]), s2, (log1 ++ Ended h o :: effs).
    split; [|split].
    + rewrite submissions_app, Sb1. reflexivity.
    + rewrite run_app, R1. cbn [run]. rewrite St, app_nil_r. reflexivity.
    + rewrite outcomes_app, O1, O2. reflexivity.
  - destruct (running_task_can_settle s1 h r (Thrown e) P1)
      as (s2 & effs & St).
    destruct (step_quiet h _ _ _ _ St eq_refl Q1 A1) as (Q2 & A2 & O2).
    rewrite Nat.eqb_refl in O2.
    destruct (step_live _ _ _ _ Lv1 St) as [Lv2 _].
    pose proof (step_config _ _ _ _ St) as (_ & _ & _ & L2 & _).
    pose proof Lv1 as (W1 & _).
    destruct (step_task _ _ _ _ W1 St) as [_ T]. specialize (T h).
    rewrite P1, O2 in T. cbn [List.length] in Hr.
    apply task_moves_failed in T; [|lia].
    destruct (IH s2 h (r + 1) o Lv2 T Q2 A2 ltac:(lia))
      as (evs3 & s3 & log3 & Sb3 & R3 & O3).
    exists (evs1 ++ Settle h (Thrown e) :: evs3), s3,
           (log1 ++ (Ended h (Thrown e) :: effs) ++ log3).
    split; [|split].
    + change (Settle h (Thrown e) :: evs3)
        with ([Settle h (Thrown e)] ++ evs3).
      rewrite !submissions_app, Sb1, Sb3. reflexivity.
    + rewrite run_app, R1. cbn [run]. rewrite St, R3. reflexivity.
    + rewrite !outcomes_app, O1, O2, O3. reflexivity.
Qed.

(** While all the executions of a submitted task have failed, and no more
    of them than the stored limit, the scheduler holds the task, queued or
    in flight, with one retry counted per failure. *)
Lemma held_while_failing options evs s log h :
  0 <= retryLimit (constructor options) ->
  run (constructor options) evs = Some (s, log) ->
  (h < submissions evs)%nat ->
  forallb is_thrown (outcomes h log) = true ->
  Z.of_nat (List.length (outcomes h log)) <= retryLimit (constructor options) ->
  phase s h = Queued (Z.of_nat (List.length (outcomes h log)))
  \/ phase s h = Running (Z.of_nat (List.length (outcomes h log))).
Proof.
  intros Hl R Hh Ft Hk.
  pose proof (run_life options evs s log Hl R h) as L.
  rewrite <- (run_nextHandle _ _ _ _ R) in Hh.
  pose proof (submitted_not_Fresh s h Hh) as NF.
  revert Hl Hk L. generalize (retryLimit (constructor options)) as limit.
  intros limit Hl Hk L.
  destruct (phase s h) as [|r|r|]; simpl in L.
  - congruence.
  - destruct L as (_ & _ & Ln & _). rewrite Ln. auto.
  - destruct L as (_ & _ & Ln & _). rewrite Ln. auto.
  - exfalso. destruct L as (errs & o & E & _ & _ & V).
    rewrite E in Ft, Hk.
    destruct (forallb_is_thrown_last _ _ Ft) as [e ->].
    destruct V as [Ln _]. rewrite length_app in Hk. simpl in Hk. lia.
Qed.

(** The scheduler of a run from valid options brings every queued task to
    execution when its promises settle and its timer fires. *)
Lemma queued_task_progress options evs s log h r :
  1 <= opt_maxRequests options ->
  1 <= concurrency (constructor options) ->
  0 <= retryLimit (constructor options) ->
  run (constructor options) evs = Some (s, log) ->
  phase s h = Queued r ->
  exists evs' s' log',
    submissions evs' = 0%nat
    /\ run s evs' = Some (s', log')
    /\ (1 <= attempts h log')%nat.
Proof.
  intros M C L R Ph.
  pose proof (run_live _ _ _ _ (constructor_live options M C L) R) as Lv.
  assert (B : 0 <= load s).
  { destruct Lv as (_ & _ & _ & _ & _ & _ & _ & Q & A). unfold load.
    pose proof (cost_nonneg _ 2 _ ltac:(lia) Q).
    pose proof (cost_nonneg _ 1 _ ltac:(lia) A). lia. }
  apply (queued_task_can_start (Z.to_nat (load s)) s h r Lv); [lia | exact Ph].
Qed.

(** A success ends the life of a task: the future is resolved with the
    result, after one execution more than there were failures. *)
Lemma resolved_after_failures options evs s log h errs v :
  0 <= retryLimit (constructor options) ->
  run (constructor options) evs = Some (s, log) ->
  outcomes h log = errs ++ [Fulfilled v] ->
  finals h log = [Resolved h v]
  /\ Z.of_nat (attempts h log) = Z.of_nat (List.length errs) + 1.
Proof.
  intros Hl R E.
  pose proof (run_life options evs s log Hl R h) as L.
  assert (Nt : forallb is_thrown (outcomes h log) = false).
  { rewrite E, forallb_app. simpl. apply andb_false_r. }
  destruct (phase s h) as [|r|r|]; simpl in L.
  - destruct L as (E0 & _). rewrite E0 in E. destruct errs; discriminate.
  - destruct L as (_ & Ft' & _). congruence.
  - destruct L as (_ & Ft' & _). congruence.
  - destruct L as (errs' & o & E' & _ & Hk & V). rewrite E in E'.
    apply app_inj_tail in E' as [<- <-]. destruct V as [_ ->].
    split; [reflexivity | lia].
Qed.

(** What the history of a held task is: failures only, one per retry. *)
Lemma held_task_history options evs s log h r :
  0 <= retryLimit (constructor options) ->
  run (constructor options) evs = Some (s, log) ->
  phase s h = Queued r \/ phase s h = Running r ->
  forallb is_thrown (outcomes h log) = true
  /\ Z.of_nat (List.length (outcomes h log)) = r.
Proof.
  intros Hl R Ph.
  pose proof (run_life options evs s log Hl R h) as L.
  destruct Ph as [Ph|Ph]; rewrite Ph in L; simpl in L;
    destruct L as (_ & Ft & Ln & _); auto.
Qed.

(** C5: take a scheduler built with a retry limit [n] (the option, 3 when
    left out; not negative), any run, and a task all of whose executions so
    far have failed.  The limit that counts is the stored one: [n], but 3
    when [n] is 0.  While no more executions have failed than that limit,
    the future has received nothing and the task, once submitted, is held,
    queued or in flight, with one retry counted per failure; when one more
    execution has failed the future is rejected, once, with the last reason,
    and so many executions have begun; no further execution ever fails.  So
    with [retryLimit: 0] the rejection comes at the fourth failure, not the
    first.  With at least one request per window and one slot, a queued
    task is brought to execution again by the timer and the settling
    promises alone, and a task in flight can settle with any outcome; so a
    held task whose thunk returns promises can have all the executions the
    limit leaves it fail, and is then rejected as said. *)
Theorem always_failing_task_rejected_at_stored_limit
    (options : RateLimiterOptions)
    (evs : list Event) (s : AntiRateLimit) (log : list Effect) (h : nat) :
  0 <= configured_retryLimit options ->
  run (constructor options) evs = Some (s, log) ->
  forallb is_thrown (outcomes h log) = true ->
  let n := configured_retryLimit options in
  let limit := if n =? 0 then 3 else n in
  let failures := Z.of_nat (List.length (outcomes h log)) in
  failures <= limit + 1
  /\ (failures <= limit ->
      finals h log = []
      /\ ((h < submissions evs)%nat ->
          phase s h = Queued failures \/ phase s h = Running failures))
  /\ (failures = limit + 1 ->
      Z.of_nat (attempts h log) = limit + 1
      /\ exists errs e, outcomes h log = errs ++ [Thrown e]
                        /\ finals h log = [Rejected h e])
  /\ (1 <= opt_maxRequests options ->
      1 <= concurrency (constructor options) ->
      forall r, phase s h = Queued r ->
                exists evs' s' log',
                  submissions evs' = 0%nat
                  /\ run s evs' = Some (s', log')
                  /\ (1 <= attempts h log')%nat)
  /\ (forall r o, phase s h = Running r ->
                  exists s' effs,
                    step s (Settle h o) = Some (s', Ended h o :: effs))
  /\ (1 <= opt_maxRequests options ->
      1 <= concurrency (constructor options) ->
      returns_promises h (queue s ++ awaiting s) ->
      forall r es e,
        phase s h = Queued r \/ phase s h = Running r ->
        r + Z.of_nat (List.length es) = limit ->
        exists evs' s' log',
          submissions evs' = 0%nat
          /\ run (constructor options) (evs ++ evs') = Some (s', log ++ log')
          /\ outcomes h log' = map Thrown es ++ [Thrown e]
          /\ finals h (log ++ log') = [Rejected h e]
          /\ Z.of_nat (attempts h (log ++ log')) = limit + 1).
Proof.
  intros Hn R Ft n limit failures.
  destruct (stored_retryLimit options Hn) as (_ & Hne & H0).
  assert (El : retryLimit (constructor options) = limit).
  { subst limit n. destruct (Z.eqb_spec (configured_retryLimit options) 0);
      auto. }
  assert (Hl : 0 <= retryLimit (constructor options)).
  { rewrite El. subst limit n.
    destruct (Z.eqb_spec (configured_retryLimit options) 0); lia. }
  destruct (failures_up_to_the_stored_limit options evs s log h Hl R Ft)
    as (B & _ & F & G).
  rewrite El in B, F, G. fold failures in B, F, G.
  split; [exact B|]. split; [|split; [exact G|split; [|split]]].
  - intros Hf. split; [exact (F Hf)|]. intros Hh.
    apply (held_while_failing options evs s log h Hl R Hh Ft).
    rewrite El. exact Hf.
  - intros M C r Ph.
    exact (queued_task_progress options evs s log h r M C Hl R Ph).
  - intros r o Ph. exact (running_task_can_settle s h r o Ph).
  - intros M C RP r es e Ph Hr.
    pose proof (run_live _ _ _ _ (constructor_live options M C Hl) R) as Lv.
    apply Forall_app in RP as [Q A].
    pose proof (run_config _ _ _ _ R) as (_ & _ & _ & Ls & _).
    destruct (held_task_can_be_driven es s h r (Thrown e) Lv Ph Q A
                ltac:(lia)) as (evs' & s' & log' & Sb & R' & O').
    exists evs', s', log'. split; [exact Sb|].
    assert (Rx : run (constructor options) (evs ++ evs')
                 = Some (s', log ++ log'))
      by (rewrite run_app, R, R'; reflexivity).
    split; [exact Rx|]. split; [exact O'|].
    destruct (held_task_history options evs s log h r Hl R Ph) as [Fh Lh].
    assert (Ox : outcomes h (log ++ log')
                 = (outcomes h log ++ map Thrown es) ++ [Thrown e])
      by (rewrite outcomes_app, O', app_assoc; reflexivity).
    assert (Fx : forallb is_thrown (outcomes h (log ++ log')) = true).
    { rewrite Ox, !forallb_app, Fh. simpl. rewrite andb_true_r.
      clear. induction es; simpl; auto. }
    destruct (failures_up_to_the_stored_limit options _ s' _ h Hl Rx Fx)
      as (_ & _ & _ & Gx).
    rewrite El in Gx. destruct Gx as (At & errs & e' & E' & Fin).
    { rewrite Ox, !length_app, length_map. simpl. lia. }
    rewrite Ox in E'. apply app_inj_tail in E' as [_ E']. inversion E'; subst.
    split; [exact Fin | exact At].
Qed.

Lemma always_failing_task_rejected_at_stored_limit_witness :
  let zero := mkOptions 10 1000 None (Some 0) in
  match run (constructor zero)
            [AddTask (async "t" None); Settle 0 (Thrown "e1");
             Settle 0 (Thrown "e2"); Settle 0 (Thrown "e3");
             Settle 0 (Thrown "e4")],
        run (constructor zero) [AddTask (async "t" None)]
  with
  | Some (_, log), Some (_, log1) =>
      (Z.of_nat (attempts 0 log) = 4 /\ finals 0 log = [Rejected 0%nat "e4"])
      /\ (exists evs' s' log',
             submissions evs' = 0%nat
             /\ run (constructor zero) ([AddTask (async "t" None)] ++ evs')
                = Some (s', log1 ++ log')
             /\ outcomes 0 log'
                = [Thrown "a"; Thrown "b"; Thrown "c"; Thrown "d"]
             /\ finals 0 (log1 ++ log') = [Rejected 0%nat "d"]
             /\ Z.of_nat (attempts 0 (log1 ++ log')) = 4)
  | _, _ => False
  end.
Proof.
  cbv zeta.
  destruct (run _ [_; _; _; _; _]) as [[s log]|] eqn:R;
    [|vm_compute in R; discriminate R].
  destruct (run _ [_]) as [[s1 log1]|] eqn:R1;
    [|vm_compute in R1; discriminate R1].
  split.
  - assert (O : outcomes 0 log
                = [Thrown "e1"; Thrown "e2"; Thrown "e3"] ++ [Thrown "e4"])
      by (vm_compute in R; inversion R; subst; reflexivity).
    destruct (always_failing_task_rejected_at_stored_limit
                (mkOptions 10 1000 None (Some 0)) _ s log 0%nat
                ltac:(unfold configured_retryLimit; simpl; lia) R
                ltac:(rewrite O; reflexivity)) as (_ & _ & G & _).
    rewrite O in G. destruct G as (At & errs & e & E & Fin); [reflexivity|].
    split; [exact At|].
    apply app_inj_tail in E as [_ E]. inversion E; subst. exact Fin.
  - assert (O1 : outcomes 0 log1 = [])
      by (vm_compute in R1; inversion R1; subst; reflexivity).
    destruct (always_failing_task_rejected_at_stored_limit
                (mkOptions 10 1000 None (Some 0)) _ s1 log1 0%nat
                ltac:(unfold configured_retryLimit; simpl; lia) R1
                ltac:(rewrite O1; reflexivity)) as (_ & _ & _ & _ & _ & D).
    unfold configured_retryLimit in D.
    cbn [opt_retryLimit opt_maxRequests Z.eqb] in D.
    apply (D ltac:(lia) ltac:(simpl; lia)) with (r := 0)
                                                (es := ["a"; "b"; "c"]).
    + vm_compute in R1. inversion R1; subst.
      repeat constructor; intros _ k; reflexivity.
    + right. vm_compute in R1. inversion R1; subst. reflexivity.
    + reflexivity.
Defined.

(** C6: take a scheduler built with a retry limit [n] (the option, 3 when
    left out; not negative) and any run.  If the executions of task [h]
    failed [n] times and then succeeded with [v], the future of [h] has
    been resolved, once, with [v], and [n + 1] executions of [h] have begun.
    Up to there nothing is lost: as long as all the executions of a
    submitted task have failed, and no more than [n] of them, the task is
    held by the scheduler, queued or in flight, with as many retries counted
    as it had failures, and its future has received nothing.  And the
    executions do come: with at least one request per window and one slot,
    a queued task is brought to execution again by the timer and the
    settling promises alone, without any further submission, and a task in
    flight can settle with any outcome; so for a held task whose thunk
    returns promises there is a continuation of the run in which its
    executions fail until [n] have failed and the next succeeds with [v],
    and the task is then resolved with [v] after [n + 1] executions. *)
Theorem fails_then_succeeds_resolved (options : RateLimiterOptions)
    (evs : list Event) (s : AntiRateLimit) (log : list Effect) (h : nat) :
  0 <= configured_retryLimit options ->
  run (constructor options) evs = Some (s, log) ->
  let n := configured_retryLimit options in
  (forall errs v,
      outcomes h log = errs ++ [Fulfilled v] ->
      forallb is_thrown errs = true ->
      Z.of_nat (List.length errs) = n ->
      finals h log = [Resolved h v] /\ Z.of_nat (attempts h log) = n + 1)
  /\ ((h < submissions evs)%nat ->
      forallb is_thrown (outcomes h log) = true ->
      Z.of_nat (List.length (outcomes h log)) <= n ->
      let k := Z.of_nat (List.length (outcomes h log)) in
      (phase s h = Queued k \/ phase s h = Running k)
      /\ finals h log = [])
  /\ (1 <= opt_maxRequests options ->
      1 <= concurrency (constructor options) ->
      forall r, phase s h = Queued r ->
                exists evs' s' log',
                  submissions evs' = 0%nat
                  /\ run s evs' = Some (s', log')
                  /\ (1 <= attempts h log')%nat)
  /\ (forall r o, phase s h = Running r ->
                  exists s' effs,
                    step s (Settle h o) = Some (s', Ended h o :: effs))
  /\ (1 <= opt_maxRequests options ->
      1 <= concurrency (constructor options) ->
      returns_promises h (queue s ++ awaiting s) ->
      forall r es v,
        phase s h = Queued r \/ phase s h = Running r ->
        r + Z.of_nat (List.length es) = n ->
        exists evs' s' log',
          submissions evs' = 0%nat
          /\ run (constructor options) (evs ++ evs') = Some (s', log ++ log')
          /\ outcomes h log' = map Thrown es ++ [Fulfilled v]
          /\ finals h (log ++ log') = [Resolved h v]
          /\ Z.of_nat (attempts h (log ++ log')) = n + 1).
Proof.
  intros Hn R n. subst n.
  destruct (stored_retryLimit options Hn) as (Hle & _).
  assert (Hl : 0 <= retryLimit (constructor options)) by lia.
  split; [|split; [|split; [|split]]].
  - intros errs v E Ft Ln.
    destruct (resolved_after_failures options evs s log h errs v Hl R E)
      as [Fin At].
    split; [exact Fin | lia].
  - intros Hh Ft Hk. cbv zeta.
    split; [apply (held_while_failing options evs s log h Hl R Hh Ft); lia|].
    destruct (failures_up_to_the_stored_limit options evs s log h Hl R Ft)
      as (_ & _ & F & _).
    apply F. lia.
  - intros M C r Ph.
    exact (queued_task_progress options evs s log h r M C Hl R Ph).
  - intros r o Ph. exact (running_task_can_settle s h r o Ph).
  - intros M C RP r es v Ph Hr.
    pose proof (run_live _ _ _ _ (constructor_live options M C Hl) R) as Lv.
    apply Forall_app in RP as [Q A].
    pose proof (run_config _ _ _ _ R) as (_ & _ & _ & Ls & _).
    destruct (held_task_can_be_driven es s h r (Fulfilled v) Lv Ph Q A
                ltac:(lia)) as (evs' & s' & log' & Sb & R' & O').
    exists evs', s', log'. split; [exact Sb|].
    assert (Rx : run (constructor options) (evs ++ evs')
                 = Some (s', log ++ log'))
      by (rewrite run_app, R, R'; reflexivity).
    split; [exact Rx|]. split; [exact O'|].
    destruct (held_task_history options evs s log h r Hl R Ph) as [_ Lh].
    destruct (resolved_after_failures options _ s' _ h
                (outcomes h log ++ map Thrown es) v Hl Rx) as [Fin At].
    { rewrite outcomes_app, O', app_assoc. reflexivity. }
    split; [exact Fin|]. rewrite At, length_app, length_map. lia.
Qed.

Lemma fails_then_succeeds_resolved_witness :
  let evs := [AddTask (async "t" None); Settle 0 (Thrown "e1");
              AddTask (async "u" (Some 7)); Settle 0 (Thrown "e2");
              Settle 1 (Thrown "x"); Settle 0 (Fulfilled "done")] in
  match run (constructor (mkOptions 10 1000 None (Some 2))) evs with
  | Some (s, log) =>
      (finals 0 log = [Resolved 0%nat "done"] /\ attempts 0 log = 3%nat)
      /\ ((phase s 1 = Queued 1 \/ phase s 1 = Running 1)
          /\ finals 1 log = [])
      /\ (exists evs' s' log',
             submissions evs' = 0%nat
             /\ run (constructor (mkOptions 10 1000 None (Some 2)))
                    (evs ++ evs')
                = Some (s', log ++ log')
             /\ outcomes 1 log' = [Thrown "y"; Fulfilled "late"]
             /\ finals 1 (log ++ log') = [Resolved 1%nat "late"]
             /\ Z.of_nat (attempts 1 (log ++ log')) = 3)
  | None => False
  end.
Proof.
  cbv zeta. destruct (run _ _) as [[s log]|] eqn:R.
  - destruct (fails_then_succeeds_resolved
                (mkOptions 10 1000 None (Some 2)) _ s log 0%nat
                ltac:(unfold configured_retryLimit; simpl; lia) R)
      as (A & _).
    destruct (fails_then_succeeds_resolved
                (mkOptions 10 1000 None (Some 2)) _ s log 1%nat
                ltac:(unfold configured_retryLimit; simpl; lia) R)
      as (_ & B & _ & _ & D).
    assert (O0 : outcomes 0 log
                 = [Thrown "e1"; Thrown "e2"] ++ [Fulfilled "done"])
      by (vm_compute in R; inversion R; subst; reflexivity).
    assert (O1 : outcomes 1 log = [Thrown "x"])
      by (vm_compute in R; inversion R; subst; reflexivity).
    unfold configured_retryLimit in A, B, D.
    cbn [opt_retryLimit opt_maxRequests] in A, B, D.
    destruct (A _ _ O0 eq_refl eq_refl) as [Fin At].
    split; [split; [exact Fin | cbn in At; lia]|].
    rewrite O1 in B.
    destruct B as [Ph F1];
      [unfold submissions; simpl; lia | reflexivity | simpl; lia |].
    split; [split; [exact Ph | exact F1]|].
    apply (D ltac:(lia) ltac:(simpl; lia)) with (r := 1) (es := ["y"]).
    + vm_compute in R. inversion R; subst.
      repeat constructor; intros _ k; reflexivity.
    + exact Ph.
    + reflexivity.
  - vm_compute in R. discriminate R.
Defined.

(** At the limit asked for: with [retryLimit: 0] a task whose first
    execution succeeds is resolved after that one execution. *)
Example succeeds_at_once_with_limit_zero :
  option_map (fun r => (attempts 0 (snd r), finals 0 (snd r)))
    (run (constructor (mkOptions 10 1000 None (Some 0)))
         [AddTask (async "t" None); Settle 0 (Fulfilled "v")])
  = Some (1%nat, [Resolved 0%nat "v"]).
Proof. vm_compute. reflexivity. Qed.

(** ** Failures stay with the task that failed *)



(** * Further properties of the class *)

(** ** The sort of [addTask] *)

(** X1: the sort applied by [addTask] keeps exactly the tasks it is given,
    leaves priorities non-increasing from head to tail, and keeps the tasks
    of any one priority in the order they had. *)
Theorem sort_queue_is_stable_sort (l : list InternalTask) :
  Permutation (sort_queue l) l
  /\ queue_sorted (sort_queue l)
  /\ forall p, filter (fun t => prio t =? p) (sort_queue l)
               = filter (fun t => prio t =? p) l.
Proof.
  split; [apply sort_queue_perm|]. split; [apply sort_queue_sorted|].
  intros p. apply sort_queue_stable.
Qed.

Lemma insert_by_priority_head y l :
  Forall (by_priority y) l -> insert_by_priority y l = y :: l.
Proof.
  destruct l as [|z l]; [reflexivity|]. intros F.
  inversion F as [|? ? Hz _]; subst. unfold by_priority in Hz.
  cbn [insert_by_priority].
  destruct (Z.leb_spec (prio z) (prio y)); [reflexivity | lia].
Qed.

Lemma sort_queue_snoc l w :
  queue_sorted l ->
  exists l1 l2,
    l = l1 ++ l2 /\ sort_queue (l ++ [w]) = l1 ++ w :: l2
    /\ Forall (fun t => prio w <= prio t) l1
    /\ Forall (fun t => prio t < prio w) l2.
Proof.
  unfold queue_sorted. induction 1 as [|y l S IH F].
  - exists [], []. repeat split; constructor.
  - destruct IH as (l1 & l2 & El & Es & F1 & F2).
    change (sort_queue ((y :: l) ++ [w]))
      with (insert_by_priority y (sort_queue (l ++ [w]))).
    rewrite Es. destruct l1 as [|a l1].
    + simpl in El. subst l2. cbn [app insert_by_priority].
      destruct (Z.leb_spec (prio w) (prio y)) as [Hw|Hw].
      * exists [y], l. repeat split; try assumption.
        constructor; [exact Hw | constructor].
      * exists [], (y :: l). rewrite (insert_by_priority_head y l F).
        repeat split; [constructor|]. constructor; assumption.
    + assert (Ha : prio a <= prio y).
      { subst l. inversion F; subst. assumption. }
      inversion F1 as [|? ? Hwa F1']; subst.
      cbn [app insert_by_priority].
      destruct (Z.leb_spec (prio a) (prio y)); [|lia].
      exists (y :: a :: l1), l2. repeat split; try assumption.
      constructor; [lia|]. constructor; assumption.
Qed.

(** X2: when the queue is in priority order, the push-and-sort of
    [addTask] puts the new task behind every queued task whose priority is
    at least its own and ahead of every queued task of smaller priority;
    the queued tasks keep their order. *)
Theorem addTask_inserts_behind_equal_priority
    (l : list InternalTask) (w : InternalTask) :
  queue_sorted l ->
  exists l1 l2,
    l = l1 ++ l2 /\ sort_queue (l ++ [w]) = l1 ++ w :: l2
    /\ Forall (fun t => prio w <= prio t) l1
    /\ Forall (fun t => prio t < prio w) l2.
Proof. apply sort_queue_snoc. Qed.

Ltac sorted_by_computation :=
  repeat first
    [ apply SSorted_nil | apply SSorted_cons | apply Forall_nil
    | apply Forall_cons
    | (unfold by_priority; apply Z.leb_le; reflexivity) ].

Lemma addTask_inserts_behind_equal_priority_witness :
  let a := mkInternal 0 (async "a" (Some 5)) 0 in
  let b := mkInternal 1 (async "b" (Some 2)) 0 in
  let c := mkInternal 2 (async "c" None) 0 in
  let w := mkInternal 3 (async "w" (Some 2)) 0 in
  queue_sorted [a; b; c]
  /\ exists l1 l2,
       [a; b; c] = l1 ++ l2 /\ [a; b; w; c] = l1 ++ w :: l2
       /\ Forall (fun t => prio w <= prio t) l1
       /\ Forall (fun t => prio t < prio w) l2.
Proof.
  intros a b c w.
  assert (S : queue_sorted [a; b; c]) by (unfold queue_sorted; sorted_by_computation).
  split; [exact S|].
  exact (addTask_inserts_behind_equal_priority [a; b; c] w S).
Defined.

(** ** Tasks and counters along a run, for any configuration *)

(** X3: along every run, whatever the options, a task object is in one
    place at most: no handle occurs twice among the queued and in-flight
    tasks, so no task is queued twice, executed twice at once, or queued
    while it executes. *)
Theorem task_in_one_place (options : RateLimiterOptions)
    (evs : list Event) (s : AntiRateLimit) (log : list Effect) :
  run (constructor options) evs = Some (s, log) ->
  NoDup (map handle (queue s ++ awaiting s)).
Proof. intros R. apply (run_well_formed _ _ _ _ R). Qed.

Lemma task_in_one_place_witness :
  match run (constructor readme_options)
            [AddTask (async "a" None); AddTask (async "a" None);
             AddTask (async "a" None); Settle 0 (Thrown "x");
             Settle 1 (Thrown "y")]
  with
  | Some (s, _) => NoDup (map handle (queue s ++ awaiting s))
  | None => False
  end.
Proof.
  destruct (run _ _) as [[s log]|] eqn:R.
  - exact (task_in_one_place readme_options _ s log R).
  - vm_compute in R. discriminate R.
Defined.

(** X4: along every run, whatever the options (valid or not),
    [activeTasks] is the number of executions in flight, hence never
    negative, and [requestCount] is the number of tasks started since the
    last firing of the timer. *)
Theorem counters_count (options : RateLimiterOptions)
    (evs : list Event) (s : AntiRateLimit) (log : list Effect) :
  run (constructor options) evs = Some (s, log) ->
  activeTasks s = Z.of_nat (List.length (awaiting s))
  /\ requestCount s = Z.of_nat (open_window log).
Proof. apply run_counts. Qed.

Lemma counters_count_witness :
  match run (constructor (mkOptions (-4) 0 (Some (-1)) (Some (-2))))
            [AddTask (async "a" None); Tick; AddTask (async "b" None)]
  with
  | Some (s, log) =>
      activeTasks s = Z.of_nat (List.length (awaiting s))
      /\ requestCount s = Z.of_nat (open_window log)
  | None => False
  end.
Proof.
  destruct (run _ _) as [[s log]|] eqn:R.
  - exact (counters_count _ _ s log R).
  - vm_compute in R. discriminate R.
Defined.

(** ** How much one event starts *)

Lemma processQueue_starts s s' e :
  processQueue s = (s', e) ->
  (List.length (dequeued e) <= 1 + 2 * endings e)%nat.
Proof.
  revert s s' e.
  apply (processQueue_rounds
           (fun _ _ e => (List.length (dequeued e) <= 1 + 2 * endings e)%nat)).
  - intros. simpl. lia.
  - intros. simpl. lia.
  - intros s task rest error s2 e2 s3 e3 s4 e4 _ _ _ E2 _ IH3 _ IH4.
    destruct (settle_task_quiet _ _ _ _ _ E2) as [D2 N2].
    change (Started (handle task) :: Ended (handle task) (Thrown error)
            :: e2 ++ e3 ++ e4)
      with ([Started (handle task); Ended (handle task) (Thrown error)]
            ++ e2 ++ e3 ++ e4).
    rewrite !dequeued_app, !endings_app, !length_app, D2, N2.
    cbn [dequeued flat_map started_of app List.length endings filter
         is_ending].
    lia.
Qed.

(** X5: an event starts tasks only within the window: [requestCount]
    becomes its value before the event (0 for a firing of the timer) plus
    the number of tasks the event starts, and does not pass [maxRequests]
    unless it already did.  A call of [addTask] and a firing of the timer
    start one task at most, a settling promise two at most, plus two for
    every thunk that throws at its call during the event. *)
Theorem starts_per_event (s : AntiRateLimit) (ev : Event) :
  match step s ev with
  | Some (s', effs) =>
      let before := match ev with Tick => 0 | _ => requestCount s end in
      requestCount s' = before + Z.of_nat (List.length (dequeued effs))
      /\ requestCount s' <= Z.max before (maxRequests s)
      /\ (List.length (dequeued effs)
          <= 2 * endings effs + match ev with Settle _ _ => 0 | _ => 1 end)%nat
  | None => True
  end.
Proof.
  destruct ev as [t| |h o]; simpl.
  - unfold addTask. destruct (processQueue _) as [s' e] eqn:E.
    pose proof (processQueue_starts _ _ _ E) as B.
    apply processQueue_once in E as (Rq & Rb & _). simpl in Rq, Rb.
    split; [exact Rq|]. split; [exact Rb | lia].
  - destruct (resetTimer s); [|exact I]. unfold tick.
    destruct (processQueue _) as [s' e] eqn:E.
    pose proof (processQueue_starts _ _ _ E) as B.
    apply processQueue_once in E as (Rq & Rb & _). simpl in Rq, Rb.
    split; [exact Rq|]. split; [exact Rb|].
    change (WindowReset :: e) with ([WindowReset] ++ e).
    rewrite dequeued_app, endings_app. simpl. lia.
  - destruct (lookup h (awaiting s)) as [task|]; [|exact I].
    unfold resume.
    destruct (settle_task _ _ _) as [s1 e1] eqn:E1.
    destruct (processQueue (with_activeTasks _ _)) as [s3 e3] eqn:E3.
    destruct (processQueue s3) as [s4 e4] eqn:E4.
    destruct (settle_task_quiet _ _ _ _ _ E1) as [D1 N1].
    pose proof (settle_task_fields _ _ _ _ _ E1)
      as (M1 & _ & _ & _ & _ & _ & R1 & _).
    pose proof (processQueue_starts _ _ _ E3) as B3.
    pose proof (processQueue_starts _ _ _ E4) as B4.
    pose proof (processQueue_config _ _ _ E3) as (M3 & _).
    apply processQueue_once in E3 as (R3 & Rb3 & _).
    apply processQueue_once in E4 as (R4 & Rb4 & _).
    simpl in R1, R3, Rb3, M1, M3.
    change (Ended (handle task) o :: e1 ++ e3 ++ e4)
      with ([Ended (handle task) o] ++ e1 ++ e3 ++ e4).
    rewrite !dequeued_app, !endings_app, !length_app, D1, N1.
    cbn [dequeued flat_map started_of app List.length endings filter
         is_ending].
    split; [lia|]. split; lia.
Qed.

(** ** A scheduler with one slot *)

Lemma processQueue_saturates s s' e :
  processQueue s = (s', e) ->
  0 <= activeTasks s -> concurrency s <= 1 ->
  has_headroom s' = false /\ 0 <= activeTasks s'.
Proof.
  revert s s' e.
  apply (processQueue_rounds
           (fun s s' _ =>
              0 <= activeTasks s -> concurrency s <= 1 ->
              has_headroom s' = false /\ 0 <= activeTasks s')).
  - intros s G A _. split; assumption.
  - intros s task rest _ _ _ A C. unfold has_headroom; simpl.
    split; [|lia].
    destruct (Z.ltb_spec (activeTasks s + 1) (concurrency s)); [lia|].
    rewrite andb_false_r. reflexivity.
  - intros s task rest error s2 e2 s3 e3 s4 e4 _ _ _ E2 E3 IH3 _ IH4 A C.
    pose proof (throw_state _ _ _ _ _ _ E2)
      as (_ & _ & C2 & _ & _ & A2 & _).
    pose proof (processQueue_config _ _ _ E3) as (_ & _ & C3 & _).
    destruct IH3 as [_ A3]; [lia | lia |].
    apply IH4; [exact A3 | lia].
Qed.

Lemma step_saturates s ev s' effs :
  activeTasks s = Z.of_nat (List.length (awaiting s)) ->
  concurrency s <= 1 ->
  step s ev = Some (s', effs) -> has_headroom s' = false.
Proof.
  intros A C. destruct ev as [t| |h o]; simpl.
  - intros H; inversion H as [H1]. unfold addTask in H1.
    apply (processQueue_saturates _ _ _ H1); simpl; lia.
  - destruct (resetTimer s); [|discriminate]. unfold tick.
    destruct (processQueue _) as [s1 e1] eqn:E1.
    intros H; inversion H; subst.
    apply (processQueue_saturates _ _ _ E1); simpl; lia.
  - destruct (lookup h (awaiting s)) as [task|] eqn:L; [|discriminate].
    unfold resume.
    destruct (settle_task _ _ _) as [s1 e1] eqn:E1.
    destruct (processQueue (with_activeTasks _ _)) as [s3 e3] eqn:E3.
    destruct (processQueue s3) as [s4 e4] eqn:E4.
    intros H; inversion H; subst.
    pose proof (settle_task_fields _ _ _ _ _ E1)
      as (_ & _ & C1 & _ & _ & A1 & _).
    pose proof (processQueue_config _ _ _ E3) as (_ & _ & C3 & _).
    apply drop_handle_length in L. simpl in A1, C1, C3.
    destruct (processQueue_saturates _ _ _ E3) as [_ A3];
      [simpl; lia | simpl; lia |].
    apply (processQueue_saturates _ _ _ E4); lia.
Qed.

(** X6: a scheduler whose effective concurrency is 1 (the default) never
    idles: after every event of every run, no task waits in the queue while
    both the slot and the window would admit it. *)
Theorem single_slot_never_idles (options : RateLimiterOptions)
    (evs : list Event) (s : AntiRateLimit) (log : list Effect) :
  concurrency (constructor options) <= 1 ->
  run (constructor options) evs = Some (s, log) ->
  has_headroom s = false.
Proof.
  intros C R.
  assert (G : forall evs1 ev, evs = evs1 ++ [ev] -> has_headroom s = false).
  { intros evs1 ev ->. rewrite run_app in R.
    destruct (run (constructor options) evs1) as [[s1 l1]|] eqn:R1;
      [|discriminate].
    cbn [run] in R. destruct (step s1 ev) as [[s2 e2]|] eqn:E; [|discriminate].
    inversion R; subst.
    destruct (run_counts _ _ _ _ R1) as [A _].
    pose proof (run_config _ _ _ _ R1) as (_ & _ & C1 & _).
    eapply step_saturates; eauto. lia. }
  destruct (rev evs) as [|ev l] eqn:E.
  - apply (f_equal (@rev _)) in E. rewrite rev_involutive in E. simpl in E.
    subst evs. inversion R; subst. reflexivity.
  - apply (f_equal (@rev _)) in E. rewrite rev_involutive in E. simpl in E.
    eapply G; eauto.
Qed.

Lemma single_slot_never_idles_witness :
  match run (constructor (mkOptions 3 1000 None None))
            [AddTask (async "a" None); AddTask (async "b" (Some 4));
             AddTask (async "c" None); Settle 0 (Thrown "x"); Tick;
             Settle 1 (Fulfilled "v")]
  with
  | Some (s, _) => has_headroom s = false
  | None => False
  end.
Proof.
  destruct (run _ _) as [[s log]|] eqn:R.
  - exact (single_slot_never_idles (mkOptions 3 1000 None None) _ s log
             ltac:(simpl; lia) R).
  - vm_compute in R. discriminate R.
Defined.

(** ** Service order while no execution fails *)

Lemma goes_before_priority a b : goes_before a b = true -> by_priority a b.
Proof.
  unfold goes_before, by_priority. intros H.
  apply orb_prop in H as [H|H].
  - apply Z.ltb_lt in H. lia.
  - apply andb_prop in H as [H _]. apply Z.eqb_eq in H. lia.
Qed.

Lemma queue_ordered_sorted l : queue_ordered l -> queue_sorted l.
Proof.
  unfold queue_ordered, queue_sorted. induction 1 as [|a l S IH F].
  - constructor.
  - constructor; [exact IH|]. eapply Forall_impl; [|exact F].
    intros b. apply goes_before_priority.
Qed.

Lemma queue_ordered_insert l1 l2 w :
  queue_ordered (l1 ++ l2) ->
  Forall (fun t => goes_before t w = true) l1 ->
  Forall (fun t => goes_before w t = true) l2 ->
  queue_ordered (l1 ++ w :: l2).
Proof.
  unfold queue_ordered. induction l1 as [|a l1 IH]; simpl; intros S F1 F2.
  - constructor; assumption.
  - inversion S as [|? ? S' Fa]; subst. inversion F1 as [|? ? Haw F1']; subst.
    constructor; [apply IH; assumption|].
    apply Forall_app in Fa as [Fa1 Fa2]. apply Forall_app. split; [exact Fa1|].
    constructor; assumption.
Qed.

Lemma sort_queue_snoc_ordered l w :
  queue_ordered l ->
  Forall (fun t => (handle t < handle w)%nat) l ->
  queue_ordered (sort_queue (l ++ [w])).
Proof.
  intros O B.
  destruct (sort_queue_snoc l w (queue_ordered_sorted l O))
    as (l1 & l2 & El & Es & F1 & F2).
  rewrite Es. subst l. apply Forall_app in B as [B1 B2].
  apply queue_ordered_insert; [exact O| |].
  - rewrite Forall_forall in *. intros t Ht.
    specialize (F1 t Ht). specialize (B1 t Ht). unfold goes_before.
    destruct (Z.ltb_spec (prio w) (prio t)); [reflexivity|].
    destruct (Z.eqb_spec (prio t) (prio w)); [|lia].
    apply Nat.ltb_lt in B1. rewrite B1. reflexivity.
  - eapply Forall_impl; [|exact F2]. intros t Ht. unfold goes_before.
    apply Z.ltb_lt in Ht. rewrite Ht. reflexivity.
Qed.

Lemma processQueue_takes_first s s' e :
  processQueue s = (s', e) ->
  no_failure e = true ->
  queue_ordered (queue s) ->
  queue_ordered (queue s')
  /\ (forall u, In u (queue s') -> In u (queue s))
  /\ (forall t, In t (awaiting s') ->
        In t (awaiting s)
        \/ forall u, In u (queue s') -> goes_before t u = true).
Proof.
  revert s s' e.
  apply (processQueue_rounds
           (fun s s' e =>
              no_failure e = true ->
              queue_ordered (queue s) ->
              queue_ordered (queue s')
              /\ (forall u, In u (queue s') -> In u (queue s))
              /\ (forall t, In t (awaiting s') ->
                    In t (awaiting s)
                    \/ forall u, In u (queue s') -> goes_before t u = true))).
  - intros s _ _ O. split; [exact O|]. split; [auto|]. intros t Ht. left.
    exact Ht.
  - intros s task rest _ Q _ _ O. simpl. rewrite Q in O |- *.
    inversion O as [|? ? O' F]; subst.
    split; [exact O'|]. split; [intros u Hu; right; exact Hu|].
    intros t' Ht'. apply in_app_or in Ht' as [Ht'|[<-|[]]]; [left; exact Ht'|].
    right. rewrite Forall_forall in F. exact F.
  - intros. discriminate.
Qed.

Lemma step_admits_first s ev s' effs :
  no_failure effs = true -> well_formed s -> queue_ordered (queue s) ->
  step s ev = Some (s', effs) ->
  queue_ordered (queue s')
  /\ (forall t, In t (awaiting s') ->
        In t (awaiting s)
        \/ forall u, In u (queue s') -> goes_before t u = true).
Proof.
  intros NF W O. destruct ev as [t| |h o]; simpl.
  - intros H; inversion H as [H1]. unfold addTask in H1.
    assert (O2 : queue_ordered
                   (sort_queue (queue s ++ [mkInternal (nextHandle s) t 0]))).
    { apply sort_queue_snoc_ordered; [exact O|]. destruct W as [_ B].
      unfold handles in B. rewrite map_app in B.
      apply Forall_app in B as [B _]. rewrite Forall_forall in *.
      intros u Hu. simpl. apply B. apply in_map. exact Hu. }
    destruct (processQueue_takes_first _ _ _ H1 NF O2) as (O' & _ & A).
    split; [exact O'|]. exact A.
  - destruct (resetTimer s); [|discriminate]. unfold tick.
    destruct (processQueue _) as [s1 e1] eqn:E1.
    intros H; inversion H; subst. simpl in NF.
    destruct (processQueue_takes_first _ _ _ E1 NF O) as (O' & _ & A).
    split; [exact O'|]. exact A.
  - destruct (lookup h (awaiting s)) as [task|]; [|discriminate].
    unfold resume.
    destruct (settle_task _ _ _) as [s1 e1] eqn:E1.
    destruct (processQueue (with_activeTasks _ _)) as [s3 e3] eqn:E3.
    destruct (processQueue s3) as [s4 e4] eqn:E4.
    intros H; inversion H; subst. cbn [no_failure forallb] in NF.
    fold (no_failure (e1 ++ e3 ++ e4)) in NF.
    apply andb_prop in NF as [NFo NF].
    rewrite !no_failure_app in NF.
    apply andb_prop in NF as [_ NF]. apply andb_prop in NF as [NF3 NF4].
    destruct o as [v|e]; [|discriminate]. simpl in E1.
    inversion E1; subst.
    destruct (processQueue_takes_first _ _ _ E3 NF3 O) as (O3 & _ & A3).
    destruct (processQueue_takes_first _ _ _ E4 NF4 O3) as (O4 & I4 & A4).
    split; [exact O4|]. intros t Ht.
    destruct (A4 t Ht) as [Ht3|Hb]; [|right; exact Hb].
    destruct (A3 t Ht3) as [Ht0|Hb].
    + left. simpl in Ht0. eapply drop_handle_incl; eauto.
    + right. intros u Hu. apply Hb. apply I4. exact Hu.
Qed.

Lemma run_queue_ordered options evs s log :
  run (constructor options) evs = Some (s, log) ->
  no_failure log = true ->
  queue_ordered (queue s).
Proof.
  intros R.
  enough (G : well_formed s
              /\ (no_failure log = true -> queue_ordered (queue s)))
    by apply G.
  revert evs s log R.
  apply (run_invariant
           (fun _ s log =>
              well_formed s
              /\ (no_failure log = true -> queue_ordered (queue s)))).
  - intros evs1 s1 log1 ev s' effs [W IH] E.
    split; [apply (step_task _ _ _ _ W E)|]. intros NF.
    rewrite no_failure_app in NF. apply andb_prop in NF as [NF1 NF2].
    apply (step_admits_first _ _ _ _ NF2 W (IH NF1) E).
  - split; [apply constructor_well_formed|]. intros _. constructor.
Qed.

(** X7: in a run where no execution fails, the queue is at all times in
    service order: priorities never increase from head to tail, and among
    tasks of one priority the one submitted first comes first. *)
Theorem queue_ordered_without_failures (options : RateLimiterOptions)
    (evs : list Event) (s : AntiRateLimit) (log : list Effect) :
  no_failure log = true ->
  run (constructor options) evs = Some (s, log) ->
  queue_ordered (queue s).
Proof. intros NF R. exact (run_queue_ordered _ _ _ _ R NF). Qed.

Lemma queue_ordered_without_failures_witness :
  match run (constructor (mkOptions 2 1000 None None))
            [AddTask (async "a" None); AddTask (async "b" (Some 1));
             AddTask (async "c" (Some 7)); AddTask (async "d" (Some 1));
             AddTask (async "e" (Some 7))]
  with
  | Some (s, _) =>
      queue_ordered (queue s) /\ map handle (queue s) = [2; 4; 1; 3]%nat
  | None => False
  end.
Proof.
  destruct (run _ _) as [[s log]|] eqn:R.
  - split.
    + refine (queue_ordered_without_failures _ _ s log _ R).
      vm_compute in R. inversion R; subst. reflexivity.
    + vm_compute in R. inversion R; subst. reflexivity.
  - vm_compute in R. discriminate R.
Defined.

(** X8: in a run where no execution fails, whenever an event (itself not a
    failure) puts a task in flight, that task goes before every task the
    event leaves in the queue: it has a larger priority, or the same
    priority and an earlier submission. *)
Theorem admission_takes_first_without_failures
    (options : RateLimiterOptions) (evs : list Event) (s : AntiRateLimit)
    (log : list Effect) (ev : Event) (s' : AntiRateLimit)
    (effs : list Effect) :
  no_failure (log ++ effs) = true ->
  run (constructor options) evs = Some (s, log) ->
  step s ev = Some (s', effs) ->
  forall t, In t (awaiting s') ->
            In t (awaiting s)
            \/ forall u, In u (queue s') -> goes_before t u = true.
Proof.
  intros NF R E. rewrite no_failure_app in NF.
  apply andb_prop in NF as [NF1 NF2].
  apply (step_admits_first _ _ _ _ NF2 (run_well_formed _ _ _ _ R)
           (run_queue_ordered _ _ _ _ R NF1) E).
Qed.

Lemma admission_takes_first_without_failures_witness :
  match run (constructor (mkOptions 9 1000 None None))
            [AddTask (async "a" None); AddTask (async "b" (Some 1));
             AddTask (async "c" (Some 7)); AddTask (async "d" (Some 7))]
  with
  | Some (s, _) =>
      match step s (Settle 0 (Fulfilled "v")) with
      | Some (s', _) =>
          forall t, In t (awaiting s') ->
                    In t (awaiting s)
                    \/ forall u, In u (queue s') -> goes_before t u = true
      | None => False
      end
  | None => False
  end.
Proof.
  destruct (run _ _) as [[s log]|] eqn:R.
  - destruct (step s _) as [[s' effs]|] eqn:E.
    + refine (admission_takes_first_without_failures _ _ s log _ s' effs
                _ R E).
      vm_compute in R. inversion R; subst. vm_compute in E.
      inversion E; subst. reflexivity.
    + vm_compute in R. inversion R; subst. vm_compute in E. discriminate E.
  - vm_compute in R. discriminate R.
Defined.

(** ** Every submitted task is accounted for *)

Lemma phase_handles s h :
  match phase s h with
  | Queued _ | Running _ => In h (handles s)
  | Fresh | Done => ~ In h (handles s)
  end.
Proof.
  unfold phase, handles. rewrite map_app.
  destruct (lookup h (awaiting s)) as [t|] eqn:A.
  - apply lookup_In in A as [Hin <-]. apply in_or_app. right.
    apply in_map. exact Hin.
  - destruct (lookup h (queue s)) as [t|] eqn:Q.
    + apply lookup_In in Q as [Hin <-]. apply in_or_app. left.
      apply in_map. exact Hin.
    + apply lookup_None in A, Q.
      destruct (h <? nextHandle s)%nat; intros Hin;
        apply in_app_or in Hin as [Hin|Hin]; contradiction.
Qed.

(** X9: along every run of a scheduler whose stored retry limit is not
    negative, each task submitted so far is either still held by the
    scheduler (queued or in flight) with its future untouched, or gone from
    the scheduler with its future settled exactly once, by one call of
    [resolve] or one call of [reject]. *)
Theorem submitted_task_accounted_for (options : RateLimiterOptions)
    (evs : list Event) (s : AntiRateLimit) (log : list Effect) (h : nat) :
  0 <= retryLimit (constructor options) ->
  run (constructor options) evs = Some (s, log) ->
  (h < submissions evs)%nat ->
  (In h (map handle (queue s ++ awaiting s)) /\ finals h log = [])
  \/ (~ In h (map handle (queue s ++ awaiting s))
      /\ exists x, finals h log = [Resolved h x]
                   \/ finals h log = [Rejected h x]).
Proof.
  intros Hl R Hh. rewrite <- (run_nextHandle _ _ _ _ R) in Hh.
  pose proof (run_life options evs s log Hl R h) as L.
  pose proof (phase_handles s h) as P. fold (handles s).
  destruct (phase s h) as [|r|r|] eqn:Ph; simpl in L.
  - exfalso. unfold phase in Ph.
    destruct (lookup h (awaiting s)); [discriminate|].
    destruct (lookup h (queue s)); [discriminate|].
    apply Nat.ltb_lt in Hh. rewrite Hh in Ph. discriminate.
  - left. split; [exact P | apply L].
  - left. split; [exact P | apply L].
  - right. split; [exact P|].
    destruct L as (errs & o & _ & _ & _ & V). destruct o as [v|e].
    + exists v. left. apply V.
    + exists e. right. apply V.
Qed.

Lemma submitted_task_accounted_for_witness :
  match run (constructor (mkOptions 10 1000 None (Some 1)))
            [AddTask (async "a" None); AddTask (async "b" None);
             Settle 0 (Thrown "e1"); Settle 1 (Fulfilled "v")]
  with
  | Some (s, log) =>
      ((In 0%nat (map handle (queue s ++ awaiting s)) /\ finals 0 log = [])
       \/ (~ In 0%nat (map handle (queue s ++ awaiting s))
           /\ exists x, finals 0 log = [Resolved 0%nat x]
                        \/ finals 0 log = [Rejected 0%nat x]))
      /\ ((In 1%nat (map handle (queue s ++ awaiting s)) /\ finals 1 log = [])
          \/ (~ In 1%nat (map handle (queue s ++ awaiting s))
              /\ exists x, finals 1 log = [Resolved 1%nat x]
                           \/ finals 1 log = [Rejected 1%nat x]))
  | None => False
  end.
Proof.
  destruct (run _ _) as [[s log]|] eqn:R.
  - split.
    + refine (submitted_task_accounted_for _ _ s log 0%nat _ R _);
        [simpl; lia | unfold submissions; simpl; lia].
    + refine (submitted_task_accounted_for _ _ s log 1%nat _ R _);
        [simpl; lia | unfold submissions; simpl; lia].
  - vm_compute in R. discriminate R.
Defined.

(** X10: along every run of a scheduler whose stored retry limit is not
    negative, and whatever its executions returned, a task has been started
    as many times as its executions have ended, or once more (while it is
    in flight), and never more than [retryLimit + 1] times. *)
Theorem attempts_bounded (options : RateLimiterOptions)
    (evs : list Event) (s : AntiRateLimit) (log : list Effect) (h : nat) :
  0 <= retryLimit (constructor options) ->
  run (constructor options) evs = Some (s, log) ->
  (List.length (outcomes h log) <= attempts h log
   <= List.length (outcomes h log) + 1)%nat
  /\ Z.of_nat (attempts h log) <= retryLimit (constructor options) + 1.
Proof.
  intros Hl R.
  pose proof (run_life options evs s log Hl R h) as L.
  revert Hl L. generalize (retryLimit (constructor options)) as limit.
  intros limit Hl L.
  destruct (phase s h) as [|r|r|]; simpl in L.
  - destruct L as (-> & -> & _). simpl. lia.
  - destruct L as (B & _ & Ln & Hn & _). lia.
  - destruct L as (B & _ & Ln & Hn & _). lia.
  - destruct L as (errs & o & -> & _ & Hn & V). rewrite length_app. simpl.
    destruct o; destruct V as [Ln _]; lia.
Qed.

Lemma attempts_bounded_witness :
  match run (constructor (mkOptions 10 1000 (Some 2) (Some 2)))
            [AddTask (async "a" None); AddTask (async "b" None);
             Settle 0 (Thrown "e1"); Settle 1 (Fulfilled "v");
             Settle 0 (Thrown "e2")]
  with
  | Some (_, log) => (2 <= attempts 0 log <= 3)%nat /\ attempts 0 log = 3%nat
  | None => False
  end.
Proof.
  destruct (run _ _) as [[s log]|] eqn:R.
  - destruct (attempts_bounded (mkOptions 10 1000 (Some 2) (Some 2)) _ s log
                0%nat ltac:(simpl; lia) R) as [B _].
    vm_compute in R. inversion R; subst. split; [exact B | reflexivity].
  - vm_compute in R. discriminate R.
Defined.

(** ** Options outside their range *)

Lemma no_headroom s :
  concurrency s <= activeTasks s \/ maxRequests s <= requestCount s ->
  has_headroom s = false.
Proof.
  intros H. destruct (has_headroom s) eqn:G; [|reflexivity].
  apply has_headroom_true in G. lia.
Qed.

Lemma finals_nil_app h l1 l2 :
  finals h l1 = [] -> finals h l2 = [] -> finals h (l1 ++ l2) = [].
Proof. intros H1 H2. rewrite finals_app, H1, H2. reflexivity. Qed.

(** X11: a scheduler built with a non-positive [maxRequests] or a negative
    [concurrency] accepts every submission and never starts anything: along
    every run no task is dequeued, no future is ever settled, and the queue
    holds all the tasks submitted. *)
Theorem misconfigured_scheduler_starts_nothing (options : RateLimiterOptions)
    (evs : list Event) (s : AntiRateLimit) (log : list Effect) :
  opt_maxRequests options <= 0
  \/ (exists c, opt_concurrency options = Some c /\ c < 0) ->
  run (constructor options) evs = Some (s, log) ->
  dequeued log = []
  /\ (forall h, finals h log = [])
  /\ awaiting s = []
  /\ List.length (queue s) = submissions evs.
Proof.
  intros Bad R.
  assert (B0 : concurrency (constructor options) <= 0
               \/ maxRequests (constructor options) <= 0).
  { destruct Bad as [M|(c & Ec & Hc)]; [right; exact M|left].
    simpl. rewrite Ec. simpl. destruct (Z.eqb_spec c 0); lia. }
  enough (G : same_config (constructor options) s
              /\ (dequeued log = [] /\ (forall h, finals h log = []))
              /\ (awaiting s = [] /\ activeTasks s = 0 /\ 0 <= requestCount s)
              /\ List.length (queue s) = submissions evs).
  { destruct G as (_ & (D & F) & (A & _) & Q). auto. }
  revert evs s log R.
  apply (run_invariant
           (fun evs s log =>
              same_config (constructor options) s
              /\ (dequeued log = [] /\ (forall h, finals h log = []))
              /\ (awaiting s = [] /\ activeTasks s = 0 /\ 0 <= requestCount s)
              /\ List.length (queue s) = submissions evs)).
  2:{ split; [apply same_config_refl|]. repeat split; simpl; lia. }
  intros evs1 s1 log1 ev s' effs (Cf & (D & F) & (A & Ac & Rq) & Q) E.
  split; [eapply same_config_trans; [exact Cf | eapply step_config; eauto]|].
  destruct Cf as (Cm & _ & Cc & _).
  assert (Blk : forall x, concurrency x = concurrency s1 ->
                          maxRequests x = maxRequests s1 ->
                          activeTasks x = 0 -> 0 <= requestCount x ->
                          processQueue x = (x, [])).
  { intros x C M Ax Rx. apply processQueue_blocked. apply no_headroom. lia. }
  rewrite dequeued_app, submissions_app.
  destruct ev as [t| |h o]; simpl in E.
  - inversion E as [E1]. unfold addTask in E1.
    rewrite Blk in E1 by (first [reflexivity | assumption | (simpl; lia)]).
    inversion E1; subst; clear E1. simpl. rewrite !app_nil_r.
    repeat split; try assumption.
    rewrite (Permutation_length (sort_queue_perm _)), length_app.
    simpl. unfold submissions at 2. simpl. lia.
  - destruct (resetTimer s1); [|discriminate]. unfold tick in E.
    rewrite Blk in E by (first [reflexivity | assumption | (simpl; lia)]).
    inversion E; subst; clear E. simpl. rewrite D.
    repeat split; try assumption; try lia.
    + intros h. apply finals_nil_app; [apply F | reflexivity].
    + unfold submissions at 2. simpl. lia.
  - rewrite A in E. discriminate E.
Qed.

Lemma misconfigured_scheduler_starts_nothing_witness :
  match run (constructor (mkOptions 0 1000 (Some 4) None))
            [AddTask (async "a" None); Tick; AddTask (async "b" (Some 3));
             Tick]
  with
  | Some (s, log) =>
      dequeued log = [] /\ awaiting s = []
      /\ List.length (queue s) = 2%nat
  | None => False
  end.
Proof.
  destruct (run _ _) as [[s log]|] eqn:R.
  - destruct (misconfigured_scheduler_starts_nothing
                (mkOptions 0 1000 (Some 4) None) _ s log
                ltac:(left; simpl; lia) R) as (D & _ & A & Q).
    split; [exact D|]. split; [exact A | exact Q].
  - vm_compute in R. discriminate R.
Defined.

Lemma fail_fast_move limit h p outs n fin o' k f' p' :
  limit < 0 ->
  fail_fast_life h p outs n fin ->
  task_move limit h p o' k f' p' ->
  fail_fast_life h p' (outs ++ o') (n + k) (fin ++ f').
Proof.
  intros Hl L T. destruct T; simpl in L |- *.
  - destruct L as (-> & -> & ->). repeat split.
  - destruct L as (-> & -> & -> & ->). repeat split.
  - destruct L as (-> & _). lia.
  - destruct L as (-> & -> & -> & ->). exists (Thrown e). repeat split.
  - destruct L as (-> & -> & -> & ->). exists (Fulfilled v). repeat split.
  - destruct L as (-> & _). lia.
  - destruct L as (-> & -> & -> & ->). exists (Thrown e). repeat split.
Qed.

Lemma fail_fast_moves limit h p outs n fin o' k f' p' :
  limit < 0 ->
  fail_fast_life h p outs n fin ->
  task_moves limit h p o' k f' p' ->
  fail_fast_life h p' (outs ++ o') (n + k) (fin ++ f').
Proof.
  intros Hl L T. revert outs n fin L.
  induction T as [p|p o k f p' o' k' f' p'' M _ IH]; intros outs n fin L.
  - rewrite !app_nil_r, Nat.add_0_r. exact L.
  - rewrite !app_assoc, Nat.add_assoc. apply IH.
    eapply fail_fast_move; eauto.
Qed.

(** X12: with a negative [retryLimit] (a truthy number, kept as given) the
    scheduler never retries: along every run each task is executed at most
    once, and the outcome of that execution is what its future receives, a
    failure rejecting it at once. *)
Theorem negative_retryLimit_never_retries (options : RateLimiterOptions)
    (evs : list Event) (s : AntiRateLimit) (log : list Effect) (h : nat) :
  retryLimit (constructor options) < 0 ->
  run (constructor options) evs = Some (s, log) ->
  (attempts h log <= 1)%nat
  /\ (List.length (outcomes h log) <= 1)%nat
  /\ finals h log
     = match outcomes h log with
       | [] => []
       | Fulfilled v :: _ => [Resolved h v]
       | Thrown e :: _ => [Rejected h e]
       end.
Proof.
  intros Hl R.
  enough (G : retryLimit s = retryLimit (constructor options)
              /\ well_formed s
              /\ forall h, fail_fast_life h (phase s h) (outcomes h log)
                                          (attempts h log) (finals h log)).
  { destruct G as (_ & _ & L). specialize (L h).
    destruct (phase s h) as [|r|r|]; simpl in L.
    - destruct L as (-> & -> & ->). simpl. repeat split; lia.
    - destruct L as (_ & -> & -> & ->). simpl. repeat split; lia.
    - destruct L as (_ & -> & -> & ->). simpl. repeat split; lia.
    - destruct L as (o & -> & -> & ->). simpl.
      destruct o; repeat split; lia. }
  revert evs s log R.
  apply (run_invariant
           (fun _ s log =>
              retryLimit s = retryLimit (constructor options)
              /\ well_formed s
              /\ forall h, fail_fast_life h (phase s h) (outcomes h log)
                                          (attempts h log) (finals h log))).
  - intros evs1 s1 log1 ev s' effs (C1 & W1 & L1) E.
    pose proof (step_config _ _ _ _ E) as (_ & _ & _ & C' & _).
    destruct (step_task _ _ _ _ W1 E) as [W' T].
    split; [congruence|]. split; [exact W'|]. intros h'.
    rewrite outcomes_app, attempts_app, finals_app.
    eapply fail_fast_moves; [exact Hl | apply L1 |].
    rewrite <- C1. apply T.
  - split; [reflexivity|]. split; [apply constructor_well_formed|].
    intros h'. simpl. repeat split.
Qed.

Lemma negative_retryLimit_never_retries_witness :
  match run (constructor (mkOptions 10 1000 None (Some (-1))))
            [AddTask (async "t" None); Settle 0 (Thrown "e1")]
  with
  | Some (_, log) =>
      (attempts 0 log <= 1)%nat /\ finals 0 log = [Rejected 0%nat "e1"]
  | None => False
  end.
Proof.
  destruct (run _ _) as [[s log]|] eqn:R.
  - destruct (negative_retryLimit_never_retries
                (mkOptions 10 1000 None (Some (-1))) _ s log 0%nat
                ltac:(simpl; lia) R) as (A & _ & F).
    vm_compute in R. inversion R; subst.
    split; [exact A | exact F].
  - vm_compute in R. discriminate R.
Defined.

(** ** Thunks that throw at the call *)

Lemma has_headroom_empty s : queue s = [] -> has_headroom s = false.
Proof. intros Q. unfold has_headroom. rewrite Q. reflexivity. Qed.

(** A task alone in the queue whose thunk throws at every call is executed
    again and again in one activation, until its retries are spent. *)
Lemma throwing_task_burst (reason : nat -> JS.value) (n : nat) :
  forall s task,
    queue s = [task] ->
    (forall k, execute (base task) k = Throws (reason k)) ->
    0 <= retries task ->
    retryLimit s - retries task = Z.of_nat n ->
    activeTasks s < concurrency s ->
    requestCount s + Z.of_nat n + 1 <= maxRequests s ->
    exists s' effs,
      processQueue s = (s', effs)
      /\ queue s' = [] /\ awaiting s' = awaiting s
      /\ activeTasks s' = activeTasks s
      /\ requestCount s' = requestCount s + Z.of_nat n + 1
      /\ attempts (handle task) effs = S n
      /\ finals (handle task) effs
         = [Rejected (handle task) (reason (Z.to_nat (retryLimit s)))].
Proof.
  induction n as [|n IH]; intros s task Q Ex Hr Hn Ha Hq.
  - assert (G : has_headroom s = true).
    { unfold has_headroom. rewrite Q. cbn [List.length].
      apply andb_true_intro. split; [apply andb_true_intro; split|];
        apply Z.ltb_lt; lia. }
    rewrite processQueue_eq, G, Q. unfold call_of. rewrite Ex.
    unfold resume, settle_task. cbn [retryLimit start_task].
    destruct (Z.ltb_spec (retries task) (retryLimit s)) as [Hlt|_]; [lia|].
    rewrite !processQueue_blocked
      by (apply has_headroom_empty; reflexivity).
    eexists _, _. split; [reflexivity|].
    cbn [queue awaiting activeTasks requestCount with_activeTasks
         start_task app].
    split; [reflexivity|]. split; [reflexivity|]. split; [lia|].
    split; [lia|]. unfold attempts, finals.
    cbn [filter is_start is_final]. rewrite Nat.eqb_refl.
    cbn [List.length]. split; [reflexivity|].
    replace (retryLimit s) with (retries task) by lia. reflexivity.
  - assert (G : has_headroom s = true).
    { unfold has_headroom. rewrite Q. cbn [List.length].
      apply andb_true_intro. split; [apply andb_true_intro; split|];
        apply Z.ltb_lt; lia. }
    rewrite processQueue_eq, G, Q. unfold call_of. rewrite Ex.
    unfold resume, settle_task. cbn [retryLimit start_task].
    destruct (Z.ltb_spec (retries task) (retryLimit s)) as [_|Hge]; [|lia].
    match goal with
    | |- context [processQueue ?x] =>
        destruct (IH x (mkInternal (handle task) (base task)
                                   (retries task + 1)))
          as (s3 & e3 & E3 & Q3 & W3 & A3 & R3 & At3 & F3)
    end.
    + reflexivity.
    + exact Ex.
    + cbn [retries]. lia.
    + cbn [retries retryLimit with_activeTasks with_queue start_task]. lia.
    + cbn [activeTasks concurrency with_activeTasks with_queue start_task].
      lia.
    + cbn [requestCount maxRequests with_activeTasks with_queue start_task].
      lia.
    + rewrite E3, (processQueue_blocked s3 (has_headroom_empty s3 Q3)).
      eexists _, _. split; [reflexivity|].
      cbn [handle queue awaiting activeTasks requestCount retryLimit
           with_activeTasks with_queue start_task] in W3, A3, R3, At3, F3.
      split; [exact Q3|]. split; [exact W3|]. split; [lia|].
      split; [lia|]. rewrite app_nil_r. cbn [app].
      unfold attempts, finals in *.
      cbn [filter is_start is_final]. rewrite Nat.eqb_refl.
      cbn [List.length]. rewrite At3. split; [reflexivity | exact F3].
Qed.

(** X14: a task whose thunk throws at every call, submitted to a fresh
    scheduler with a slot and a window large enough, is executed
    [retryLimit + 1] times and rejected, with the reason of the last throw,
    within the call of [addTask] that submits it: the retries wait for no
    promise and no timer, and each of them counts as a request of the
    window. *)
Theorem synchronous_failures_retried_at_once
    (options : RateLimiterOptions) (t : Task) (reason : nat -> JS.value) :
  0 <= retryLimit (constructor options) ->
  1 <= concurrency (constructor options) ->
  retryLimit (constructor options) + 1 <= opt_maxRequests options ->
  (forall k, execute t k = Throws (reason k)) ->
  let limit := retryLimit (constructor options) in
  let s' := fst (addTask t (constructor options)) in
  let effs := snd (addTask t (constructor options)) in
  Z.of_nat (attempts 0 effs) = limit + 1
  /\ finals 0 effs = [Rejected 0%nat (reason (Z.to_nat limit))]
  /\ queue s' = [] /\ awaiting s' = []
  /\ activeTasks s' = 0 /\ requestCount s' = limit + 1.
Proof.
  intros Hl Hc Hm Ex. cbv zeta. unfold addTask.
  match goal with
  | |- context [processQueue ?x] =>
      destruct (throwing_task_burst reason
                  (Z.to_nat (retryLimit (constructor options))) x
                  (mkInternal 0 t 0))
        as (s' & effs & E & Q & W & A & R & At & F)
  end.
  - reflexivity.
  - exact Ex.
  - cbn [retries]. lia.
  - cbn [retries retryLimit with_queue with_nextHandle]. lia.
  - cbn [activeTasks concurrency with_queue with_nextHandle].
    change (activeTasks (constructor options)) with 0. lia.
  - cbn [requestCount maxRequests with_queue with_nextHandle].
    change (requestCount (constructor options)) with 0.
    change (maxRequests (constructor options)) with (opt_maxRequests options).
    lia.
  - rewrite E. cbn [fst snd handle] in *.
    cbn [awaiting activeTasks requestCount retryLimit with_queue
         with_nextHandle] in W, A, R, F.
    change (awaiting (constructor options)) with (@nil InternalTask) in W.
    change (activeTasks (constructor options)) with 0 in A.
    change (requestCount (constructor options)) with 0 in R.
    split; [rewrite At; lia|]. split; [exact F|]. split; [exact Q|].
    split; [exact W|]. split; [exact A | lia].
Qed.

Lemma synchronous_failures_retried_at_once_witness :
  let t := mkTask "t" (fun k => Throws (if (k <? 2)%nat then "early" else "late"))
                  None in
  Z.of_nat (attempts 0 (snd (addTask t (constructor readme_options)))) = 4
  /\ finals 0 (snd (addTask t (constructor readme_options)))
     = [Rejected 0%nat "late"]
  /\ requestCount (fst (addTask t (constructor readme_options))) = 4.
Proof.
  cbv zeta.
  destruct (synchronous_failures_retried_at_once readme_options
              (mkTask "t" (fun k => Throws (if (k <? 2)%nat then "early"
                                            else "late")) None)
              (fun k => if (k <? 2)%nat then "early" else "late")
              ltac:(simpl; lia) ltac:(simpl; lia) ltac:(simpl; lia)
              ltac:(intros k; reflexivity))
    as (At & F & _ & _ & _ & R).
  split; [exact At|]. split; [exact F | exact R].
Defined.
